(** * hamburg84: retry wrapper, worker pool and lookbook layout

    A shallow embedding of [src/services/geminiService.ts], of the handlers
    of [src/App.tsx] and of [createLookbookPage] from [lib/albumUtils.ts],
    followed by the properties of the specification that concern them.

    Conventions of the embedding.
    - A JavaScript string is the [string] of its UTF-8 bytes; where the
      code counts UTF-16 code units ([substring]), the units are read off
      the bytes.
    - A call that may throw returns a [completion]: [Normal v] or [Throw e].
    - The remote capability ([ai.models.generateContent]) is an oracle that
      gives, for the k-th call made by one invocation of the retry wrapper,
      the completion of that call.
    - Every asynchronous function runs to its next [await] without being
      interleaved (run-to-completion); the points where a promise settles
      and the actions of the user that the interface allows are the events
      of the transition system of the application. *)

From Stdlib Require Import ZArith QArith Qreals Reals Lqa Lra Lia String Ascii.
From stdpp Require Import base list sets strings.
From Equations Require Import Equations.

Open Scope string_scope.

(** ** JavaScript values that the code inspects *)

(** A thrown value: either an instance of [Error] with its [message], or any
    other value, known through what [JSON.stringify] makes of it ([None] when
    it returns [undefined], as it does for [undefined] and for functions). *)
Inductive js_thrown : Type :=
  | ErrorObj (message : string)
  | Thrown (json : option string).

Inductive completion (A : Type) : Type :=
  | Normal (a : A)
  | Throw (e : js_thrown).
Arguments Normal {A} a.
Arguments Throw {A} e.

(** The double quote character, for the string literals that contain it. *)
Definition dq : string := String (ascii_of_nat 34) EmptyString.

(** [s.includes(t)] *)
Fixpoint includes (s t : string) : bool :=
  if String.prefix t s then true
  else match s with
       | EmptyString => false
       | String _ s' => includes s' t
       end.

(** Truthiness of a string: only the empty string is falsy. *)
Definition truthy (s : string) : bool :=
  match s with EmptyString => false | String _ _ => true end.

(** [`${v}`] for a value that may be [undefined]. *)
Definition template (v : option string) : string :=
  match v with Some s => s | None => "undefined" end.

(** ** geminiService.ts *)

(** *** The prompt table *)

Definition PROMPTS : list (string * string) :=
  [ ("Kiez-König",
     "Reimagine the person in this photo as a powerful Hamburg pimp from the 1980s, the " +:+ dq +:+ "Kiez-König" +:+ dq +:+ ". The image should be a photorealistic portrait. They are wearing a black leather jacket over an open-collared shirt, heavy gold chains, and have a confident, intimidating expression. The background is a dimly lit, smoky bar on the Reeperbahn. The aesthetic must feel like a gritty 1980s film photograph.");
    ("Luden-Larry",
     "Reimagine the person in this photo as a flashy Hamburg pimp from the 1980s, " +:+ dq +:+ "Luden-Larry" +:+ dq +:+ ". They are wearing a garish, brightly colored silk shirt, a white blazer, and gold-rimmed aviator sunglasses. They are leaning against a classic 80s sports car. The background is filled with the bright neon signs of the Reeperbahn at night. The style should be vibrant and slightly over-saturated, like a high-flash 80s photo.");
    ("Gold-Zahn Günther",
     "Reimagine the person in this photo as a tough, street-level Hamburg pimp from the 1980s, " +:+ dq +:+ "Gold-Zahn Günther" +:+ dq +:+ ". They have a mullet hairstyle and a prominent gold tooth. They are wearing a cheap-looking tracksuit and a scowl. The photo must have a raw, candid feel, as if taken on a gritty side street off the Reeperbahn. The lighting is harsh and the colors are slightly faded.");
    ("Disco Dieter",
     "Reimagine the person in this photo as a stylish Hamburg pimp from the 1980s, " +:+ dq +:+ "Disco Dieter" +:+ dq +:+ ". They are inside a pulsating 80s disco, with a disco ball and colorful lights in the background. They are wearing a shiny shirt, tight pants, and have perfectly coiffed hair. They are holding a cocktail and have a suave look. The image must capture the dynamic, colorful atmosphere of an 80s nightclub.");
    ("Porsche-Paul",
     "Reimagine the person in this photo as a wealthy Hamburg pimp from the 1980s, " +:+ dq +:+ "Porsche-Paul" +:+ dq +:+ ". They are standing proudly next to a white Porsche 911. They are wearing an expensive suit with the jacket open, revealing a flamboyant shirt. Their expression is one of smug success. The scene is set on a Hamburg street at dusk, with the car's headlights on. The photo style should be sharp and glossy, like from a car magazine of the era.") ].

(** [PROMPTS] is an object literal, so its prototype is [Object.prototype]:
    a property read [PROMPTS[k]] that finds no own property continues along
    the prototype chain.  These are the property names of [Object.prototype]
    (ECMAScript, sections 20.1.3 and B.2.2); each of them reads as a function
    or an object, never as [undefined]. *)
Definition Object_prototype_keys : list string :=
  [ "constructor"; "hasOwnProperty"; "isPrototypeOf"; "propertyIsEnumerable";
    "toLocaleString"; "toString"; "valueOf"; "__proto__";
    "__defineGetter__"; "__defineSetter__"; "__lookupGetter__";
    "__lookupSetter__" ].

(** What a property read on [PROMPTS] evaluates to. *)
Inductive js_prop : Type :=
  | OwnString (s : string)
  | Inherited (name : string).

Fixpoint own_property {A : Type} (o : list (string * A)) (k : string) : option A :=
  match o with
  | [] => None
  | (k', v) :: o' => if String.eqb k' k then Some v else own_property o' k
  end.

(** [PROMPTS[pimpName]]; [None] is [undefined]. *)
Definition PROMPTS_get (pimpName : string) : option js_prop :=
  match own_property PROMPTS pimpName with
  | Some s => Some (OwnString s)
  | None =>
      if existsb (String.eqb pimpName) Object_prototype_keys
      then Some (Inherited pimpName)
      else None
  end.

(** [!prompt] is false exactly on these. *)
Definition prop_truthy (p : option js_prop) : bool :=
  match p with
  | None => false
  | Some (OwnString s) => truthy s
  | Some (Inherited _) => true
  end.

(** *** The response of the remote call *)

Record Blob : Type := { mimeType : option string; data : option string }.

Record Part : Type := { inlineData : option Blob; part_text : option string }.

Record Content : Type := { parts : option (list Part) }.

Record Candidate : Type := { content : option Content }.

Record GenerateContentResponse : Type :=
  { candidates : option (list Candidate);
    text : option string }.

(** [response.candidates?.[0]?.content?.parts?.find(part => part.inlineData)] *)
Definition imagePartFromResponse (response : GenerateContentResponse) : option Part :=
  match candidates response with
  | Some (c :: _) =>
      match content c with
      | Some ct =>
          match parts ct with
          | Some ps => List.find (fun part => bool_decide (is_Some (inlineData part))) ps
          | None => None
          end
      | None => None
      end
  | _ => None
  end.

(** [textResponse || 'No text response received.'] *)
Definition text_or_default (textResponse : option string) : string :=
  match textResponse with
  | Some s => if truthy s then s else "No text response received."
  | None => "No text response received."
  end.

Definition processGeminiResponse (response : GenerateContentResponse) : completion string :=
  match imagePartFromResponse response with
  | Some {| inlineData := Some b |} =>
      Normal ("data:" +:+ template (mimeType b) +:+ ";base64," +:+ template (data b))
  | _ =>
      let textResponse := text response in
      Throw (ErrorObj ("The AI model responded with text instead of an image: "
                       +:+ dq +:+ text_or_default textResponse +:+ dq))
  end.

(** *** The retry wrapper *)

(** The request payload: [{ parts: [imagePart, textPart] }]. *)
Record request : Type :=
  { req_mimeType : string;
    req_data : string;
    req_text : js_prop }.

(** What one invocation does that can be observed from outside: the calls
    of [ai.models.generateContent], numbered by attempt, and the timers. *)
Inductive effect : Type :=
  | GenerateContent (attempt : Z) (rq : request)
  | Sleep (delay : Z).

(** The remote capability during one invocation of the wrapper: the
    completion of the call made by each attempt. *)
Definition remote : Type := Z -> completion GenerateContentResponse.

Definition maxRetries : Z := 3.
Definition initialDelay : Z := 1000.

(** [error instanceof Error ? error.message : JSON.stringify(error)] *)
Definition errorMessage (error : js_thrown) : option string :=
  match error with
  | ErrorObj message => Some message
  | Thrown json => json
  end.

(** [errorMessage.includes('"code":500') || errorMessage.includes('INTERNAL')] *)
Definition isInternalError (errorMessage : string) : bool :=
  includes errorMessage (dq +:+ "code" +:+ dq +:+ ":500")
  || includes errorMessage "INTERNAL".

(** Reading [.includes] of [undefined] throws; the message is V8's. *)
Definition TypeError_includes : js_thrown :=
  ErrorObj "Cannot read properties of undefined (reading 'includes')".

(** How control leaves the [for] loop of [callGeminiWithRetry]. *)
Inductive loop_exit : Type :=
  | Returned (response : GenerateContentResponse)
  | Rethrown (error : js_thrown)
  | FellThrough.

(** The loop [for (let attempt = ...; attempt <= maxRetries; attempt++)],
    entered with the given value of [attempt]. *)
Equations? attempt_loop (ai : remote) (rq : request) (attempt : Z)
  : list effect * loop_exit by wf (Z.to_nat (maxRetries + 1 - attempt)) lt :=
attempt_loop ai rq attempt with Z_le_dec attempt maxRetries => {
  | right _ => ([], FellThrough)
  | left _ with ai attempt => {
    | Normal response => ([GenerateContent attempt rq], Returned response)
    | Throw error with errorMessage error => {
      | None => ([GenerateContent attempt rq], Rethrown TypeError_includes)
      | Some msg with isInternalError msg, Z_lt_dec attempt maxRetries => {
        | true, left _ =>
            let delay := (initialDelay * 2 ^ (attempt - 1))%Z in
            let '(effects, exit) := attempt_loop ai rq (attempt + 1) in
            (GenerateContent attempt rq :: Sleep delay :: effects, exit)
        | _, _ => ([GenerateContent attempt rq], Rethrown error)
        }
      }
    }
  }.
Proof. lia. Qed.

Definition callGeminiWithRetry (ai : remote) (rq : request)
  : list effect * completion GenerateContentResponse :=
  match attempt_loop ai rq 1 with
  | (effects, Returned response) => (effects, Normal response)
  | (effects, Rethrown error) => (effects, Throw error)
  | (effects, FellThrough) =>
      (effects, Throw (ErrorObj "Gemini API call failed after all retries."))
  end.

(** *** generatePimpImage *)

Definition is_word_char (c : ascii) : bool :=
  let n := nat_of_ascii c in
  (((48 <=? n) && (n <=? 57)) || ((65 <=? n) && (n <=? 90))
   || ((97 <=? n) && (n <=? 122)) || (n =? 95))%nat.

(** The longest prefix made of [\w] characters, and what follows it. *)
Fixpoint span_word (s : string) : string * string :=
  match s with
  | String c s' =>
      if is_word_char c
      then let '(w, rest) := span_word s' in (String c w, rest)
      else (EmptyString, s)
  | EmptyString => (EmptyString, EmptyString)
  end.

(** [s] starts with [p]: what follows. *)
Fixpoint strip_prefix (p s : string) : option string :=
  match p, s with
  | EmptyString, _ => Some s
  | String a p', String b s' => if Ascii.eqb a b then strip_prefix p' s' else None
  | String _ _, EmptyString => None
  end.

(** The line terminators, which [.] does not match: LF, CR, and the UTF-8
    encodings of U+2028 and U+2029. *)
Definition line_terminators : list string :=
  [ String (ascii_of_nat 10) EmptyString;
    String (ascii_of_nat 13) EmptyString;
    String (ascii_of_nat 226) (String (ascii_of_nat 128) (String (ascii_of_nat 168) EmptyString));
    String (ascii_of_nat 226) (String (ascii_of_nat 128) (String (ascii_of_nat 169) EmptyString)) ].

Definition has_line_terminator (s : string) : bool :=
  existsb (includes s) line_terminators.

(** [imageDataUrl.match(re)] for the regular expression of the source, which
    reads: start of input, [data:], a first group made of [image/] and one
    or more word characters, [;base64,], a second group of any characters but
    line terminators, end of input.  The result is the two groups.  The run
    of word characters is greedy and [;] is not a word character, so the only
    candidate for the first group is the longest run. *)
Definition match_data_url (imageDataUrl : string) : option (string * string) :=
  match strip_prefix "data:image/" imageDataUrl with
  | None => None
  | Some after_slash =>
      let '(subtype, after_subtype) := span_word after_slash in
      if truthy subtype then
        match strip_prefix ";base64," after_subtype with
        | Some base64Data =>
            if has_line_terminator base64Data then None
            else Some ("image/" +:+ subtype, base64Data)
        | None => None
        end
      else None
  end.

Definition generatePimpImage (ai : remote) (imageDataUrl pimpName : string)
  : list effect * completion string :=
  match match_data_url imageDataUrl with
  | None =>
      ([], Throw (ErrorObj "Invalid image data URL format. Expected 'data:image/...;base64,...'"))
  | Some (mimeType, base64Data) =>
      let prompt := PROMPTS_get pimpName in
      match prompt with
      | Some p =>
          if prop_truthy prompt then
            let rq := {| req_mimeType := mimeType; req_data := base64Data; req_text := p |} in
            let '(effects, called) := callGeminiWithRetry ai rq in
            let processed :=
              match called with
              | Normal response => processGeminiResponse response
              | Throw error => Throw error
              end in
            match processed with
            | Normal resultUrl => (effects, Normal resultUrl)
            | Throw error =>
                (effects,
                 Throw (ErrorObj ("The AI model failed to generate an image. Details: "
                                  +:+ template (errorMessage error))))
            end
          else ([], Throw (ErrorObj ("No prompt found for archetype: " +:+ pimpName)))
      | None => ([], Throw (ErrorObj ("No prompt found for archetype: " +:+ pimpName)))
      end
  end.

(** ** albumUtils.ts: the lookbook page *)

(** A loaded [HTMLImageElement], as far as the layout reads it. *)
Record Image : Type := { naturalWidth : Z; naturalHeight : Z }.

(** One polaroid as [createLookbookPage] places it: the frame is the
    rectangle of size [photoWidth] by [photoHeight] whose top left corner
    is [(x, y)] before it is turned by [rotation] radians about its centre;
    [figure] is the caption written on it and [img] the picture drawn inside
    the frame. *)
Record Panel : Type :=
  { figure : string;
    img : Image;
    row : Z;
    col : Z;
    x : Q;
    y : Q;
    photoWidth : Q;
    photoHeight : Q;
    rotation : Q }.

Record Page : Type :=
  { canvasWidth : Q;
    canvasHeight : Q;
    contentTopMargin : Q;
    panels : list Panel }.

(** What the function takes from its environment: whether the canvas gives
    a 2D context, what [loadImage] does with each URL ([None]: the image
    fails to load), and the successive values of [Math.random()]. *)
Record Browser : Type :=
  { has_context : bool;
    load : string -> option Image;
    random : N -> Q }.

Definition grid_cols : Z := 2.
Definition grid_rows : Z := 3.
Definition grid_padding : Q := 100.

(** The texture loop runs 150000 times and draws four random numbers each
    time (the colour, the alpha and the two coordinates), all of them
    before the first rotation is drawn. *)
Definition texture_draws : N := (150000 * 4)%N.

(** The high surrogate of the code point whose UTF-8 encoding starts with
    the bytes [b0], [b1] and [b2] (a code point of four bytes, beyond
    U+FFFF), as the three bytes that a surrogate standing alone has in
    generalized UTF-8: with [c] the code point, the surrogate is
    [0xD800 + ((c - 0x10000) >> 10)], and [c >> 10] does not depend on the
    fourth byte. *)
Definition high_surrogate (b0 b1 b2 : ascii) : string :=
  let top := (N_of_ascii b0 mod 8 * 256 + N_of_ascii b1 mod 64 * 4
              + N_of_ascii b2 mod 64 / 16)%N in
  let unit := (55296 + (top - 64))%N in
  String (ascii_of_N 237)
    (String (ascii_of_N (128 + unit / 64 mod 64))
       (String (ascii_of_N (128 + unit mod 64)) EmptyString)).

(** [s.substring(0, n)]: the first [n] UTF-16 code units of [s], read off
    the UTF-8 bytes of [s].  A code point of one, two or three bytes is one
    unit; a code point of four bytes is two units, a surrogate pair, and
    when only one unit is left the cut falls between the two and the high
    surrogate is kept alone. *)
Fixpoint substring_units (n : nat) (s : string) : string :=
  match n with
  | O => EmptyString
  | S n' =>
      match s with
      | EmptyString => EmptyString
      | String b0 rest =>
          if (N_of_ascii b0 <? 192)%N then String b0 (substring_units n' rest)
          else if (N_of_ascii b0 <? 224)%N then
            match rest with
            | String b1 rest' => String b0 (String b1 (substring_units n' rest'))
            | _ => s
            end
          else if (N_of_ascii b0 <? 240)%N then
            match rest with
            | String b1 (String b2 rest') =>
                String b0 (String b1 (String b2 (substring_units n' rest')))
            | _ => s
            end
          else
            match rest with
            | String b1 (String b2 (String b3 rest')) =>
                match n' with
                | O => high_surrogate b0 b1 b2
                | S n'' =>
                    String b0 (String b1 (String b2 (String b3 (substring_units n'' rest'))))
                end
            | _ => s
            end
      end
  end.

Arguments substring_units : simpl never.

(** [loadImage(src)] *)
Definition loadImage (b : Browser) (src : string) : completion Image :=
  match load b src with
  | Some i => Normal i
  | None => Throw (ErrorObj ("Failed to load image: " +:+ substring_units 50 src +:+ "..."))
  end.

(** [await Promise.all(urls.map(url => loadImage(url)))]; when several
    images fail, the failure reported is taken to be the first in order. *)
Fixpoint loadAll (b : Browser) (urls : list string) : completion (list Image) :=
  match urls with
  | [] => Normal []
  | url :: urls' =>
      match loadImage b url with
      | Throw e => Throw e
      | Normal i =>
          match loadAll b urls' with
          | Throw e => Throw e
          | Normal rest => Normal (i :: rest)
          end
      end
  end.

Open Scope Q_scope.

Definition cellWidth (canvasWidth : Q) : Q :=
  (canvasWidth - grid_padding * (inject_Z grid_cols + 1)) / inject_Z grid_cols.

Definition cellHeight (contentHeight : Q) : Q :=
  (contentHeight - grid_padding * (inject_Z grid_rows + 1)) / inject_Z grid_rows.

(** The body of [imagesWithFigures.forEach(({ figure, img }, index) => ...)]. *)
Definition place (b : Browser) (canvasWidth canvasHeight contentTopMargin : Q)
    (index : N) (figure : string) (img : Image) : Panel :=
  let contentHeight := canvasHeight - contentTopMargin in
  let cellWidth := cellWidth canvasWidth in
  let cellHeight := cellHeight contentHeight in
  let photoWidth := cellWidth * (9 # 10) in
  let photoHeight := photoWidth * (5 # 4) in
  let row := (Z.of_N index / grid_cols)%Z in
  let col := (Z.of_N index mod grid_cols)%Z in
  let x := grid_padding * (inject_Z col + 1) + cellWidth * inject_Z col
           + (cellWidth - photoWidth) / 2 in
  let y := contentTopMargin + grid_padding * (inject_Z row + 1)
           + cellHeight * inject_Z row in
  let rotation := (random b (texture_draws + index)%N - (1 # 2)) * (15 # 100) in
  {| figure := figure; img := img; row := row; col := col;
     x := x; y := y; photoWidth := photoWidth; photoHeight := photoHeight;
     rotation := rotation |}.

Fixpoint place_all (b : Browser) (canvasWidth canvasHeight contentTopMargin : Q)
    (index : N) (imagesWithFigures : list (string * Image)) : list Panel :=
  match imagesWithFigures with
  | [] => []
  | (figure, img) :: rest =>
      place b canvasWidth canvasHeight contentTopMargin index figure img
      :: place_all b canvasWidth canvasHeight contentTopMargin (index + 1)%N rest
  end.

(** [imageData] is the list of the entries of the object, in the order in
    which [Object.keys] and [Object.values] enumerate them. *)
Definition createLookbookPage (b : Browser) (imageData : list (string * string))
  : completion Page :=
  let canvasWidth : Q := 2480 in
  let canvasHeight : Q := 3508 in
  if has_context b then
    let figures := List.map fst imageData in
    match loadAll b (List.map snd imageData) with
    | Throw e => Throw e
    | Normal loadedImages =>
        let imagesWithFigures := List.combine figures loadedImages in
        let contentTopMargin : Q := 550 in
        Normal {| canvasWidth := canvasWidth;
                  canvasHeight := canvasHeight;
                  contentTopMargin := contentTopMargin;
                  panels := place_all b canvasWidth canvasHeight contentTopMargin 0%N
                                      imagesWithFigures |}
    end
  else Throw (ErrorObj "Could not get 2D canvas context").

Close Scope Q_scope.

(** *** The geometry of two frames *)

Open Scope R_scope.

(** The point [(px, py)] of the canvas lies strictly inside the frame of
    [p]: its coordinates relative to the centre of the frame, turned back by
    the rotation of the frame, are within half the width and half the height.
    ([ctx.rotate] turns the axes clockwise on a canvas whose y axis points
    down.) *)
Definition inside (p : Panel) (px py : R) : Prop :=
  let cx := Q2R (x p) + Q2R (photoWidth p) / 2 in
  let cy := Q2R (y p) + Q2R (photoHeight p) / 2 in
  let theta := Q2R (rotation p) in
  let u := (px - cx) * cos theta + (py - cy) * sin theta in
  let v := (py - cy) * cos theta - (px - cx) * sin theta in
  Rabs u < Q2R (photoWidth p) / 2 /\ Rabs v < Q2R (photoHeight p) / 2.

Definition overlap (p q : Panel) : Prop :=
  exists px py : R, inside p px py /\ inside q px py.

Definition no_two_panels_overlap (page : Page) : Prop :=
  forall (i j : nat) (p q : Panel),
    i <> j -> panels page !! i = Some p -> panels page !! j = Some q ->
    ~ overlap p q.

Close Scope R_scope.

(** *** Inside the frame *)

Open Scope Q_scope.

(** The rectangle that [ctx.drawImage(img, imgX, imgY, drawWidth, drawHeight)]
    fills, in the coordinates of the frame, whose origin is the centre of the
    frame. *)
Record DrawRect : Type :=
  { imgX : Q; imgY : Q; drawWidth : Q; drawHeight : Q }.

Definition inset : Q := 35.

(** The fitting of the picture into the frame, from [const inset = 35] to
    [const imgY = ...].  The source computes in floating point; the
    rationals agree with it, up to rounding, when both natural sizes are
    positive (a division by a zero height or a zero ratio gives an infinity
    there and 0 here). *)
Definition drawImage_rect (img : Image) (photoWidth photoHeight : Q) : DrawRect :=
  let imageContainerWidth := photoWidth - inset * 2 in
  let imageContainerHeight := photoHeight - inset * 2 - 100 in
  let aspectRatio := inject_Z (naturalWidth img) / inject_Z (naturalHeight img) in
  let drawWidth := imageContainerWidth in
  let drawHeight := drawWidth / aspectRatio in
  let '(drawWidth, drawHeight) :=
    if Qlt_le_dec imageContainerHeight drawHeight
    then (imageContainerHeight * aspectRatio, imageContainerHeight)
    else (drawWidth, drawHeight) in
  {| imgX := - drawWidth / 2;
     imgY := - photoHeight / 2 + inset + (imageContainerHeight - drawHeight) / 2;
     drawWidth := drawWidth;
     drawHeight := drawHeight |}.

(** [const captionY = (photoHeight / 2) - 60]: where [fillText] anchors the
    caption, horizontally centred ([textAlign = 'center']) and vertically
    centred on that line ([textBaseline = 'middle']). *)
Definition captionY (photoHeight : Q) : Q := photoHeight / 2 - 60.

Close Scope Q_scope.

Open Scope R_scope.

(** Where a point given in the coordinates of the frame of [p] falls on
    the canvas, after [ctx.translate(x + photoWidth / 2, y + photoHeight / 2)]
    and [ctx.rotate(rotation)]. *)
Definition to_canvas (p : Panel) (lx ly : R) : R * R :=
  let cx := Q2R (x p) + Q2R (photoWidth p) / 2 in
  let cy := Q2R (y p) + Q2R (photoHeight p) / 2 in
  let theta := Q2R (rotation p) in
  (cx + lx * cos theta - ly * sin theta, cy + lx * sin theta + ly * cos theta).

(** The point of the canvas at which the caption of [p] is anchored. *)
Definition caption_anchor (p : Panel) : R * R :=
  to_canvas p 0 (Q2R (captionY (photoHeight p))).

Close Scope R_scope.

(** ** App.tsx *)

Definition PIMP_ARCHETYPES : list string :=
  [ "Kiez-König"; "Luden-Larry"; "Gold-Zahn Günther"; "Disco Dieter"; "Porsche-Paul" ].

(** ['pending' | 'done' | 'error'] *)
Inductive ImageStatus : Type := Pending | Done | Error.

Global Instance ImageStatus_eq_dec : EqDecision ImageStatus.
Proof. solve_decision. Defined.

Record GeneratedImage : Type :=
  { status : ImageStatus;
    url : option string;
    error : option string }.

(** [Record<string, GeneratedImage>]: the own properties, in the order in
    which [Object.entries] enumerates them (none of the keys used by the
    application is an array index, so this is the order of insertion). *)
Definition Store : Type := list (string * GeneratedImage).

(** [{ ...prev, [pimp]: v }], and [acc[pimp] = v] on a plain object: a key
    that is present keeps its place, a new one comes last. *)
Fixpoint set_key {A : Type} (prev : list (string * A)) (pimp : string) (v : A)
  : list (string * A) :=
  match prev with
  | [] => [(pimp, v)]
  | (k, old) :: rest =>
      if String.eqb k pimp then (k, v) :: rest
      else (k, old) :: set_key rest pimp v
  end.

(** [generatedImages[pimp]?.status]; the members inherited from
    [Object.prototype] have no [status], so only own properties matter. *)
Definition status_of (generatedImages : Store) (pimp : string) : option ImageStatus :=
  status <$> own_property generatedImages pimp.

Inductive AppState : Type := idle | image_uploaded | generating | results_shown.

(** The promise of one worker of [handleGenerateClick]: suspended at
    [await processPimp(pimp)], fulfilled, or rejected. *)
Inductive Worker : Type :=
  | Awaiting (pimp : string)
  | Fulfilled
  | Rejected (e : js_thrown).

(** The state of the component together with the state of the handlers
    that are suspended at an [await].  [regenerating] lists the calls of
    [handleRegeneratePimp] that are awaiting [generatePimpImage];
    [dispatched] is a history variable: the calls of [processPimp] made so
    far, each with the index of the worker that made it. *)
Record App : Type :=
  { uploadedImage : option string;
    generatedImages : Store;
    isLoading : bool;
    appState : AppState;
    pimpQueue : list string;
    workers : list Worker;
    regenerating : list string;
    dispatched : list (nat * string) }.

(** The state after [handleImageUpload] has read a file. *)
Definition uploaded (imageDataUrl : string) : App :=
  {| uploadedImage := Some imageDataUrl;
     generatedImages := [];
     isLoading := false;
     appState := image_uploaded;
     pimpQueue := [];
     workers := [];
     regenerating := [];
     dispatched := [] |}.

Definition concurrencyLimit : nat := 2.

(** [try { body } catch (err) { handler(err) }] *)
Definition try_catch {A : Type} (body : completion A) (handler : js_thrown -> completion A)
  : completion A :=
  match body with
  | Normal a => Normal a
  | Throw err => handler err
  end.

(** The part of [processPimp] (and of [handleRegeneratePimp]) that runs once
    [generatePimpImage] has settled with [outcome]. *)
Definition record_outcome (outcome : completion string) (pimp : string) (prev : Store)
  : completion Store :=
  try_catch
    (match outcome with
     | Normal resultUrl =>
         Normal (set_key prev pimp {| status := Done; url := Some resultUrl; error := None |})
     | Throw err => Throw err
     end)
    (fun err =>
       let errorMessage :=
         match err with
         | ErrorObj message => message
         | Thrown _ => "An unknown error occurred."
         end in
       Normal (set_key prev pimp {| status := Error; url := None; error := Some errorMessage |})).

Definition processPimp (ai : remote) (uploadedImage pimp : string) (prev : Store)
  : completion Store :=
  record_outcome (snd (generatePimpImage ai uploadedImage pimp)) pimp prev.

(** A worker from the head of its [while] loop to its next [await]:
    [while (pimpQueue.length > 0) { const pimp = pimpQueue.shift();
    if (pimp) { await processPimp(pimp); } }].  Gives the state of the
    worker and what is left of the queue. *)
Fixpoint worker_loop (pimpQueue : list string) : Worker * list string :=
  match pimpQueue with
  | [] => (Fulfilled, [])
  | pimp :: rest => if truthy pimp then (Awaiting pimp, rest) else worker_loop rest
  end.

Definition log_dispatch (i : nat) (w : Worker) (log : list (nat * string))
  : list (nat * string) :=
  match w with
  | Awaiting pimp => log ++ [(i, pimp)]
  | _ => log
  end.

(** The continuation of [await Promise.all(workers)]: it runs once every
    worker is fulfilled. *)
Definition all_fulfilled (ws : list Worker) : bool :=
  forallb (fun w => match w with Fulfilled => true | _ => false end) ws.

Definition join (s : App) : App :=
  if all_fulfilled (workers s) then
    {| uploadedImage := uploadedImage s;
       generatedImages := generatedImages s;
       isLoading := false;
       appState := results_shown;
       pimpQueue := pimpQueue s;
       workers := workers s;
       regenerating := regenerating s;
       dispatched := dispatched s |}
  else s.

(** One more element of [Array(concurrencyLimit).fill(null).map(async ...)]:
    the new worker runs at once, up to its first [await]. *)
Definition start_worker (s : App) : App :=
  let '(w, rest) := worker_loop (pimpQueue s) in
  {| uploadedImage := uploadedImage s;
     generatedImages := generatedImages s;
     isLoading := isLoading s;
     appState := appState s;
     pimpQueue := rest;
     workers := workers s ++ [w];
     regenerating := regenerating s;
     dispatched := log_dispatch (length (workers s)) w (dispatched s) |}.

(** [initialImages], built by [PIMP_ARCHETYPES.forEach]. *)
Definition initialImages : Store :=
  fold_left (fun acc pimp => set_key acc pimp {| status := Pending; url := None; error := None |})
            PIMP_ARCHETYPES [].

(** [!uploadedImage]: [null] and the empty string are falsy. *)
Definition no_image (uploadedImage : option string) : bool :=
  match uploadedImage with
  | Some image => negb (truthy image)
  | None => true
  end.

(** [handleGenerateClick], up to [await Promise.all(workers)]. *)
Definition handleGenerateClick (s : App) : App :=
  if no_image (uploadedImage s) then s
  else
    join (Nat.iter concurrencyLimit start_worker
            {| uploadedImage := uploadedImage s;
               generatedImages := initialImages;
               isLoading := true;
               appState := generating;
               pimpQueue := PIMP_ARCHETYPES;
               workers := [];
               regenerating := regenerating s;
               dispatched := [] |}).

(** [handleRegeneratePimp(pimp)], up to [await generatePimpImage(...)].
    The handler reads [generatedImages] as of the latest render, which is
    taken to be the current state. *)
Definition handleRegeneratePimp (pimp : string) (s : App) : App :=
  if no_image (uploadedImage s) then s
  else if bool_decide (status_of (generatedImages s) pimp = Some Pending) then s
  else
    {| uploadedImage := uploadedImage s;
       generatedImages :=
         set_key (generatedImages s) pimp {| status := Pending; url := None; error := None |};
       isLoading := isLoading s;
       appState := appState s;
       pimpQueue := pimpQueue s;
       workers := workers s;
       regenerating := pimp :: regenerating s;
       dispatched := dispatched s |}.

(** Removes the first occurrence. *)
Fixpoint remove_one (pimp : string) (l : list string) : list string :=
  match l with
  | [] => []
  | p :: l' => if String.eqb p pimp then l' else p :: remove_one pimp l'
  end.

(** The points at which a suspended handler goes on, and the user's shake
    of a card.  The [remote] is what the remote capability does during the
    call that settles. *)
Inductive event : Type :=
  | WorkerSettles (i : nat) (ai : remote)
  | Shake (pimp : string)
  | RegenerationSettles (pimp : string) (ai : remote).

Definition step (e : event) (s : App) : option App :=
  match e with
  | WorkerSettles i ai =>
      match workers s !! i, uploadedImage s with
      | Some (Awaiting pimp), Some image =>
          match processPimp ai image pimp (generatedImages s) with
          | Normal images =>
              let '(w, rest) := worker_loop (pimpQueue s) in
              Some (join {| uploadedImage := uploadedImage s;
                            generatedImages := images;
                            isLoading := isLoading s;
                            appState := appState s;
                            pimpQueue := rest;
                            workers := <[i:=w]> (workers s);
                            regenerating := regenerating s;
                            dispatched := log_dispatch i w (dispatched s) |})
          | Throw err =>
              Some {| uploadedImage := uploadedImage s;
                      generatedImages := generatedImages s;
                      isLoading := isLoading s;
                      appState := appState s;
                      pimpQueue := pimpQueue s;
                      workers := <[i:=Rejected err]> (workers s);
                      regenerating := regenerating s;
                      dispatched := dispatched s |}
          end
      | _, _ => None
      end
  | Shake pimp => Some (handleRegeneratePimp pimp s)
  | RegenerationSettles pimp ai =>
      match bool_decide (pimp ∈ regenerating s), uploadedImage s with
      | true, Some image =>
          match record_outcome (snd (generatePimpImage ai image pimp)) pimp (generatedImages s) with
          | Normal images =>
              Some {| uploadedImage := uploadedImage s;
                      generatedImages := images;
                      isLoading := isLoading s;
                      appState := appState s;
                      pimpQueue := pimpQueue s;
                      workers := workers s;
                      regenerating := remove_one pimp (regenerating s);
                      dispatched := dispatched s |}
          | Throw _ =>
              Some {| uploadedImage := uploadedImage s;
                      generatedImages := generatedImages s;
                      isLoading := isLoading s;
                      appState := appState s;
                      pimpQueue := pimpQueue s;
                      workers := workers s;
                      regenerating := remove_one pimp (regenerating s);
                      dispatched := dispatched s |}
          end
      | _, _ => None
      end
  end.

Fixpoint exec (trace : list event) (s : App) : option App :=
  match trace with
  | [] => Some s
  | e :: trace' =>
      match step e s with
      | Some s' => exec trace' s'
      | None => None
      end
  end.

(** The names whose call of [generatePimpImage] is outstanding. *)
Definition awaited (ws : list Worker) : list string :=
  omap (fun w => match w with Awaiting pimp => Some pimp | _ => None end) ws.

Definition in_flight (s : App) : list string := awaited (workers s) ++ regenerating s.

(** [handleDownloadLookbook]: what the user gets. *)
Inductive Download : Type :=
  | Refused                  (* "Please wait for all images to finish ..." *)
  | Downloaded (page : Page) (* the link is clicked *)
  | Failed.                  (* "Sorry, there was an error ..." *)

(** The predicate of the [filter]: [image.status === 'done' && image.url]. *)
Definition has_result (entry : string * GeneratedImage) : bool :=
  let '(_, image) := entry in
  bool_decide (status image = Done)
  && match url image with Some u => truthy u | None => false end.

(** The function of the [reduce]: [acc[pimp] = image.url]. *)
Definition collect (acc : list (string * string)) (entry : string * GeneratedImage)
  : list (string * string) :=
  let '(pimp, image) := entry in
  match url image with
  | Some u => set_key acc pimp u
  | None => acc
  end.

(** [Object.entries(generatedImages).filter(...).reduce(..., {})] *)
Definition imageData_of (generatedImages : Store) : list (string * string) :=
  fold_left collect (List.filter has_result generatedImages) [].

Definition handleDownloadLookbook (b : Browser) (s : App) : Download :=
  let imageData := imageData_of (generatedImages s) in
  if (length imageData <? length PIMP_ARCHETYPES)%nat then Refused
  else
    match createLookbookPage b imageData with
    | Normal page => Downloaded page
    | Throw _ => Failed
    end.

(** [s.replace(' ', '-')]: with a string as pattern, only the first
    occurrence is replaced. *)
Fixpoint replace_first_space (s : string) : string :=
  match s with
  | EmptyString => EmptyString
  | String c s' =>
      if Ascii.eqb c " " then String "-" s' else String c (replace_first_space s')
  end.

(** [handleDownloadIndividualImage(pimp)]: the link that is clicked, as its
    [href] and its [download] name, or [None] when nothing is downloaded.
    [toLowerCase] stands for [String.prototype.toLowerCase]. *)
Definition handleDownloadIndividualImage (toLowerCase : string -> string)
    (pimp : string) (s : App) : option (string * string) :=
  match own_property (generatedImages s) pimp with
  | Some image =>
      match url image with
      | Some u =>
          if bool_decide (status image = Done) && truthy u
          then Some (u, "hamburg-pimp-" +:+ replace_first_space (toLowerCase pimp) +:+ ".jpg")
          else None
      | None => None
      end
  | None => None
  end.

Open Scope list_scope.

(** ** App.tsx: from one session to the next *)

(** [handleReset], the handler of "Go Straight" and of "Start Over".  It
    sets three state variables and cancels nothing. *)
Definition handleReset (s : App) : App :=
  {| uploadedImage := None;
     generatedImages := [];
     isLoading := isLoading s;
     appState := idle;
     pimpQueue := pimpQueue s;
     workers := workers s;
     regenerating := regenerating s;
     dispatched := dispatched s |}.

(** The [onloadend] callback of [handleImageUpload]; [result] is
    [reader.result], which is [null] when the file could not be read. *)
Definition handleImageUpload (result : option string) (s : App) : App :=
  {| uploadedImage := result;
     generatedImages := [];
     isLoading := isLoading s;
     appState := image_uploaded;
     pimpQueue := pimpQueue s;
     workers := workers s;
     regenerating := regenerating s;
     dispatched := dispatched s |}.

(** The component together with the calls of [handleRegeneratePimp] that
    were awaiting [generatePimpImage] when [handleReset] ran.  Such a call
    goes on: each is kept in [leftover] with the name of its item and the
    image that its closure captured, the image of the session in which the
    card was shaken. *)
Record World : Type :=
  { app : App;
    leftover : list (string * string) }.

(** The application when it is mounted. *)
Definition fresh : World :=
  {| app := {| uploadedImage := None;
               generatedImages := [];
               isLoading := false;
               appState := idle;
               pimpQueue := [];
               workers := [];
               regenerating := [];
               dispatched := [] |};
     leftover := [] |}.

(** The cards, and with them [onShake], are rendered while the
    application is generating or shows the results. *)
Definition cards_shown (s : App) : bool :=
  match appState s with
  | generating | results_shown => true
  | idle | image_uploaded => false
  end.

(** The two buttons "Go Straight" and "Hit the Streets" are rendered when
    [appState === 'image-uploaded' && uploadedImage]. *)
Definition mugshot_shown (s : App) : bool :=
  match appState s with
  | image_uploaded => negb (no_image (uploadedImage s))
  | _ => false
  end.

(** "Start Over" is rendered when [appState === 'results-shown']. *)
Definition results_are_shown (s : App) : bool :=
  match appState s with
  | results_shown => true
  | _ => false
  end.

(** The regenerations in flight, each with the image it was started
    with. *)
Definition outliving (s : App) : list (string * string) :=
  match uploadedImage s with
  | Some image => List.map (fun pimp => (pimp, image)) (regenerating s)
  | None => []
  end.

Definition with_regenerating (regs : list string) (s : App) : App :=
  {| uploadedImage := uploadedImage s;
     generatedImages := generatedImages s;
     isLoading := isLoading s;
     appState := appState s;
     pimpQueue := pimpQueue s;
     workers := workers s;
     regenerating := regs;
     dispatched := dispatched s |}.

Definition with_generatedImages (images : Store) (s : App) : App :=
  {| uploadedImage := uploadedImage s;
     generatedImages := images;
     isLoading := isLoading s;
     appState := appState s;
     pimpQueue := pimpQueue s;
     workers := workers s;
     regenerating := regenerating s;
     dispatched := dispatched s |}.

(** Everything that can happen to the application, each event where the
    interface allows it: a file is read (the file input is rendered in the
    idle state only; the file is taken to be read before the user acts
    again), one of the two buttons that call [handleReset] is pressed (the
    first is rendered with the uploaded image, the second with the results),
    "Hit the Streets" is pressed, an event of the session takes place (a
    card can be shaken while the cards are rendered), or a regeneration
    that has outlived [handleReset] settles and writes its outcome into the
    store as it is then. *)
Inductive ui_event : Type :=
  | FileRead (result : option string)
  | StartOver
  | HitTheStreets
  | During (e : event)
  | LeftoverSettles (k : nat) (ai : remote).

Definition ui_step (e : ui_event) (w : World) : option World :=
  match e with
  | FileRead result =>
      match appState (app w) with
      | idle => Some {| app := handleImageUpload result (app w); leftover := leftover w |}
      | _ => None
      end
  | StartOver =>
      if mugshot_shown (app w) || results_are_shown (app w)
      then Some {| app := with_regenerating [] (handleReset (app w));
                   leftover := leftover w ++ outliving (app w) |}
      else None
  | HitTheStreets =>
      if mugshot_shown (app w)
      then Some {| app := handleGenerateClick (app w); leftover := leftover w |}
      else None
  | During e =>
      match e with
      | Shake _ =>
          if cards_shown (app w)
          then (fun s => {| app := s; leftover := leftover w |}) <$> step e (app w)
          else None
      | _ => (fun s => {| app := s; leftover := leftover w |}) <$> step e (app w)
      end
  | LeftoverSettles k ai =>
      match leftover w !! k with
      | Some (pimp, image) =>
          match record_outcome (snd (generatePimpImage ai image pimp)) pimp
                               (generatedImages (app w)) with
          | Normal images =>
              Some {| app := with_generatedImages images (app w);
                      leftover := delete k (leftover w) |}
          | Throw _ => Some {| app := app w; leftover := delete k (leftover w) |}
          end
      | None => None
      end
  end.

Fixpoint ui_run (trace : list ui_event) (w : World) : option World :=
  match trace with
  | [] => Some w
  | e :: trace' =>
      match ui_step e w with
      | Some w' => ui_run trace' w'
      | None => None
      end
  end.


(** ** Predicates used to state the properties *)

(** The classification of a failure by the retry wrapper: transient when
    its message can be read and contains one of the two markers. *)
Definition classified_transient (error : js_thrown) : bool :=
  match errorMessage error with
  | Some msg => isInternalError msg
  | None => false
  end.

Definition is_call (e : effect) : bool :=
  match e with GenerateContent _ _ => true | Sleep _ => false end.

(** The number of calls of the remote capability among the effects. *)
Definition attempts (effects : list effect) : nat :=
  length (List.filter is_call effects).

(** The timers among the effects, in order. *)
Definition delays (effects : list effect) : list Z :=
  omap (fun e => match e with Sleep d => Some d | _ => None end) effects.

(** Some part of some candidate of the response carries inline data. *)
Definition has_image_payload (response : GenerateContentResponse) : bool :=
  existsb
    (fun c =>
       existsb (fun part => bool_decide (is_Some (inlineData part)))
               (default [] (content c ≫= parts)))
    (default [] (candidates response)).

(** The invariant of a session: what holds of every state that a click
    on the button and the events of the session after it lead to. *)

Definition terminal (st : option ImageStatus) : Prop :=
  st = Some Done \/ st = Some Error.

(** An entry of the store carries a URL exactly when it is [Done] and a
    message exactly when it is [Error]. *)
Definition entry_wf (g : GeneratedImage) : Prop :=
  match status g with
  | Pending => url g = None /\ error g = None
  | Done => is_Some (url g) /\ error g = None
  | Error => url g = None /\ is_Some (error g)
  end.

Record Inv (s : App) : Prop :=
  { inv_image : is_Some (uploadedImage s);
    inv_nodup : NoDup (pimpQueue s ++ in_flight s);
    inv_pending :
      forall p, p ∈ pimpQueue s ++ in_flight s ->
                status_of (generatedImages s) p = Some Pending;
    inv_truthy : Forall (fun p => truthy p = true) (pimpQueue s);
    inv_covered :
      forall p, p ∈ PIMP_ARCHETYPES ->
                p ∈ pimpQueue s ++ in_flight s
                \/ terminal (status_of (generatedImages s) p);
    inv_drained : Fulfilled ∈ workers s -> pimpQueue s = [];
    inv_no_reject : forall e, Rejected e ∉ workers s;
    inv_workers : length (workers s) = concurrencyLimit;
    inv_log : List.map snd (dispatched s) ++ pimpQueue s = PIMP_ARCHETYPES;
    inv_shown : appState s = results_shown <-> all_fulfilled (workers s) = true;
    inv_wf : Forall (fun kv => entry_wf (snd kv)) (generatedImages s);
    inv_keys : NoDup (List.map fst (generatedImages s));
    inv_awaited :
      forall p, p ∈ awaited (workers s) -> p ∈ List.map snd (dispatched s) }.

(** What holds of the component while the cards are shown, in every
    session, whatever earlier sessions have left behind. *)
Record Running (s : App) : Prop :=
  { run_image : exists image, uploadedImage s = Some image /\ truthy image = true;
    run_nodup : NoDup (pimpQueue s ++ awaited (workers s));
    run_truthy : Forall (fun p => truthy p = true) (pimpQueue s);
    run_covered :
      forall p, p ∈ PIMP_ARCHETYPES ->
                p ∈ pimpQueue s ++ in_flight s
                \/ terminal (status_of (generatedImages s) p);
    run_drained : Fulfilled ∈ workers s -> pimpQueue s = [];
    run_workers : length (workers s) = concurrencyLimit;
    run_log : List.map snd (dispatched s) ++ pimpQueue s = PIMP_ARCHETYPES;
    run_awaited :
      forall p, p ∈ awaited (workers s) -> p ∈ List.map snd (dispatched s);
    run_ui :
      if all_fulfilled (workers s)
      then appState s = results_shown /\ isLoading s = false
      else appState s = generating /\ isLoading s = true }.

(** What holds of the application at every moment, from the mounting of
    the component on. *)
Record Sound (w : World) : Prop :=
  { sound_wf : Forall (fun kv => entry_wf (snd kv)) (generatedImages (app w));
    sound_no_reject : forall e, Rejected e ∉ workers (app w);
    sound_quiet :
      cards_shown (app w) = false ->
      regenerating (app w) = [] /\ awaited (workers (app w)) = []
      /\ isLoading (app w) = false;
    sound_running : cards_shown (app w) = true -> Running (app w) }.

(** The names of all the calls of [generatePimpImage] that are
    outstanding: those of the workers, those of the regenerations of the
    session, and those of the regenerations left over from earlier
    sessions. *)
Definition outstanding (w : World) : list string :=
  in_flight (app w) ++ List.map fst (leftover w).

(** Where a frame stands on the page, for a panel of row [r] and column
    [c]: the columns are 1190 apart, the rows 2858/3 (about 952.67) apart,
    and every frame is 981 wide and 1226.25 high. *)
Definition frame_at (p : Panel) (r c : Z) : Prop :=
  (Q2R (x p) = 309 / 2 + 1190 * IZR c
   /\ Q2R (y p) = 650 + 2858 / 3 * IZR r
   /\ Q2R (photoWidth p) = 981
   /\ Q2R (photoHeight p) = 4905 / 4)%R.

(** [rest] is empty or starts with a character that is not a word
    character. *)
Definition starts_outside_word (rest : string) : Prop :=
  match rest with
  | String c _ => is_word_char c = false
  | EmptyString => True
  end.

(** Every character of [s] is a word character. *)
Fixpoint all_word (s : string) : bool :=
  match s with
  | EmptyString => true
  | String c s' => is_word_char c && all_word s'
  end.

(** The effects of [k] attempts in a row: the calls 1 to [k], and between
    two calls the timer of the attempt that failed. *)
Fixpoint schedule_from (rq : request) (attempt : Z) (k : nat) : list effect :=
  match k with
  | O => []
  | 1%nat => [GenerateContent attempt rq]
  | S k' =>
      GenerateContent attempt rq :: Sleep (initialDelay * 2 ^ (attempt - 1))%Z
        :: schedule_from rq (attempt + 1) k'
  end.

Definition schedule (rq : request) (k : nat) : list effect := schedule_from rq 1 k.

(** What the wrapper throws for a failed attempt that it does not retry. *)
Definition rethrown (error : js_thrown) : js_thrown :=
  match errorMessage error with
  | Some _ => error
  | None => TypeError_includes
  end.

(** An entry as the handlers write it: well formed, and when [Done] its
    URL is a data URL. *)
Definition good_entry (g : GeneratedImage) : Prop :=
  entry_wf g
  /\ (status g = Done -> exists rest, url g = Some ("data:" +:+ rest)).

(** The store during and after a run: one good entry for each archetype,
    in the order of [PIMP_ARCHETYPES]. *)
Definition store_ok (generatedImages : Store) : Prop :=
  List.map fst generatedImages = PIMP_ARCHETYPES
  /\ Forall (fun kv => good_entry (snd kv)) generatedImages.

(** ** Sample inputs *)

Definition always_internal : remote :=
  fun _ => Throw (ErrorObj "got status: 500 INTERNAL").

Definition sample_request : request :=
  {| req_mimeType := "image/png"; req_data := "AAAA"; req_text := OwnString "prompt" |}.

Definition content_policy : remote :=
  fun _ => Throw (ErrorObj "Request blocked by the content policy").

Definition refusal : GenerateContentResponse :=
  {| candidates :=
       Some [ {| content :=
                   Some {| parts :=
                             Some [ {| inlineData := None;
                                       part_text := Some "I cannot edit this photo." |} ] |} |} ];
     text := Some "I cannot edit this photo." |}.

Definition sample_image : string := "data:image/png;base64,AAAA".

(** A remote capability that answers every call with an image. *)
Definition answers_image : remote :=
  fun _ =>
    Normal {| candidates :=
                Some [ {| content :=
                            Some {| parts :=
                                      Some [ {| inlineData :=
                                                  Some {| mimeType := Some "image/png";
                                                          data := Some "BBBB" |};
                                                part_text := None |} ] |} |} ];
              text := None |}.

(** A run in which the third call fails for good and the others succeed. *)
Definition sample_run : list event :=
  [ WorkerSettles 1 answers_image; WorkerSettles 0 answers_image;
    WorkerSettles 1 content_policy; WorkerSettles 0 answers_image;
    WorkerSettles 1 answers_image ].

Definition sample_final : App :=
  Eval vm_compute in
    default (uploaded sample_image)
            (exec sample_run (handleGenerateClick (uploaded sample_image))).


(** The cards can only be shaken for an archetype. *)
Definition shakes_a_card (e : event) : Prop :=
  match e with
  | Shake pimp => pimp ∈ PIMP_ARCHETYPES
  | _ => True
  end.

(** A browser in which every image loads and [Math.random()] always gives
    one half, so that no frame is turned. *)
Definition sample_browser : Browser :=
  {| has_context := true;
     load := fun _ => Some {| naturalWidth := 1024; naturalHeight := 1024 |};
     random := fun _ => (1 # 2)%Q |}.

Definition sample_three : list (string * string) :=
  [ ("Kiez-König", "data:image/png;base64,BBBB");
    ("Luden-Larry", "data:image/png;base64,CCCC");
    ("Gold-Zahn Günther", "data:image/png;base64,DDDD") ].

(** A run in which every call succeeds at once. *)
Definition sample_success_run : list event :=
  [ WorkerSettles 0 answers_image; WorkerSettles 1 answers_image;
    WorkerSettles 0 answers_image; WorkerSettles 1 answers_image;
    WorkerSettles 0 answers_image ].

Definition sample_success_final : App :=
  Eval vm_compute in
    default (uploaded sample_image)
            (exec sample_success_run (handleGenerateClick (uploaded sample_image))).

(** A response that carries one image. *)
Definition sample_answer : GenerateContentResponse :=
  {| candidates :=
       Some [ {| content :=
                   Some {| parts :=
                             Some [ {| inlineData :=
                                         Some {| mimeType := Some "image/png";
                                                 data := Some "BBBB" |};
                                       part_text := None |} ] |} |} ];
     text := None |}.

(** A mapping of seven images, one more than the grid has cells, and the
    page made of it. *)
Definition sample_seven : list (string * string) :=
  [ ("Kiez-König", "data:image/png;base64,BBBB");
    ("Luden-Larry", "data:image/png;base64,CCCC");
    ("Gold-Zahn Günther", "data:image/png;base64,DDDD");
    ("Disco Dieter", "data:image/png;base64,EEEE");
    ("Porsche-Paul", "data:image/png;base64,FFFF");
    ("Sechs", "data:image/png;base64,GGGG");
    ("Sieben", "data:image/png;base64,HHHH") ].

Definition sample_page : Page :=
  Eval vm_compute in
    match createLookbookPage sample_browser sample_seven with
    | Normal page => page
    | Throw _ => {| canvasWidth := 0; canvasHeight := 0; contentTopMargin := 0; panels := [] |}
    end.

Definition sample_panel (i : nat) : Panel :=
  default {| figure := ""; img := {| naturalWidth := 0; naturalHeight := 0 |};
             row := 0; col := 0; x := 0; y := 0; photoWidth := 0; photoHeight := 0;
             rotation := 0 |}
          (panels sample_page !! i).

(** The state once the first call of the first worker has settled. *)
Definition sample_settled : App :=
  Eval vm_compute in
    default (uploaded sample_image)
            (exec [WorkerSettles 0 answers_image]
                  (handleGenerateClick (uploaded sample_image))).




(** The bound of C7 as the specification has it, the items in flight being
    those for which a call of [generatePimpImage] is outstanding. *)
Definition at_most_two_calls_outstanding : Prop :=
  forall (imageDataUrl : string) (trace : list event) (s : App),
    truthy imageDataUrl = true ->
    exec trace (handleGenerateClick (uploaded imageDataUrl)) = Some s ->
    appState s = generating ->
    (length (in_flight s) <= concurrencyLimit)%nat.

(** A run during which the user shakes the cards of the three items that
    are done while the workers await the other two. *)
Definition sample_busy_run : list event :=
  [ WorkerSettles 0 answers_image; WorkerSettles 1 answers_image;
    WorkerSettles 0 answers_image;
    Shake "Kiez-König"; Shake "Luden-Larry"; Shake "Gold-Zahn Günther" ].

Definition sample_busy : App :=
  Eval vm_compute in
    default (uploaded sample_image)
            (exec sample_busy_run (handleGenerateClick (uploaded sample_image))).



(** The beginning of a session: the first call has settled and the card of
    its item has been shaken, twice. *)
Definition sample_beginning : list ui_event :=
  [ FileRead (Some sample_image); HitTheStreets;
    During (WorkerSettles 0 answers_image);
    During (Shake "Kiez-König"); During (Shake "Kiez-König") ].

Definition sample_begun : World :=
  Eval vm_compute in default fresh (ui_run sample_beginning fresh).

(** Two sessions: after a complete run the card of the first item is
    shaken, and while its regeneration is outstanding the user starts over,
    uploads a file and starts the second run. *)
Definition two_sessions : list ui_event :=
  [ FileRead (Some sample_image); HitTheStreets;
    During (WorkerSettles 0 answers_image); During (WorkerSettles 1 answers_image);
    During (WorkerSettles 0 answers_image); During (WorkerSettles 1 answers_image);
    During (WorkerSettles 0 answers_image);
    During (Shake "Kiez-König");
    StartOver; FileRead (Some sample_image); HitTheStreets ].

Definition sample_second_session : World :=
  Eval vm_compute in default fresh (ui_run two_sessions fresh).

(** The page made of [sample_three]. *)
Definition sample_three_page : Page :=
  Eval vm_compute in
    match createLookbookPage sample_browser sample_three with
    | Normal page => page
    | Throw _ => {| canvasWidth := 0; canvasHeight := 0; contentTopMargin := 0; panels := [] |}
    end.

Definition sample_three_panel (i : nat) : Panel :=
  default {| figure := ""; img := {| naturalWidth := 0; naturalHeight := 0 |};
             row := 0; col := 0; x := 0; y := 0; photoWidth := 0; photoHeight := 0;
             rotation := 0 |}
          (panels sample_three_page !! i).

(** A browser in which the second image of [sample_three] fails to
    load. *)
Definition flaky_browser : Browser :=
  {| has_context := true;
     load := fun u =>
               if String.eqb u "data:image/png;base64,CCCC" then None
               else Some {| naturalWidth := 1024; naturalHeight := 1024 |};
     random := fun _ => (1 # 2)%Q |}.

(** * Properties *)

(** ** The definitions at work *)

Example isInternalError_code_500 :
  isInternalError ("{" +:+ dq +:+ "error" +:+ dq +:+ ":{" +:+ dq +:+ "code" +:+ dq +:+ ":500}}")
  = true.
Proof. reflexivity. Qed.

Example isInternalError_quota : isInternalError "429 RESOURCE_EXHAUSTED" = false.
Proof. reflexivity. Qed.

Example match_data_url_jpeg :
  match_data_url "data:image/jpeg;base64,/9j/4AAQ" = Some ("image/jpeg", "/9j/4AAQ").
Proof. reflexivity. Qed.

Example match_data_url_svg : match_data_url "data:image/svg+xml;base64,AAAA" = None.
Proof. reflexivity. Qed.

Example match_data_url_text : match_data_url "data:text/plain;base64,AAAA" = None.
Proof. reflexivity. Qed.

Example PROMPTS_get_unknown : PROMPTS_get "Nobody" = None.
Proof. reflexivity. Qed.

Example PROMPTS_get_constructor : PROMPTS_get "constructor" = Some (Inherited "constructor").
Proof. reflexivity. Qed.

Example retry_then_success :
  callGeminiWithRetry
    (fun attempt => if (attempt =? 1)%Z then always_internal attempt else answers_image attempt)
    sample_request
  = ([GenerateContent 1 sample_request; Sleep 1000; GenerateContent 2 sample_request],
     answers_image 2%Z).
Proof. reflexivity. Qed.

(** The scenario of the specification: five names, two workers, every call
    succeeds at once; the run ends with the five items done, in a state in
    which the lookbook is composed, with five panels. *)
Example all_done_then_lookbook :
  exec sample_success_run (handleGenerateClick (uploaded sample_image))
  = Some sample_success_final
  /\ appState sample_success_final = results_shown
  /\ List.map (fun kv => status (snd kv)) (generatedImages sample_success_final)
     = [Done; Done; Done; Done; Done]
  /\ match handleDownloadLookbook sample_browser sample_success_final with
     | Downloaded page =>
         List.map figure (panels page) = PIMP_ARCHETYPES
         /\ List.map (fun p => (row p, col p)) (panels page)
            = [(0, 0); (0, 1); (1, 0); (1, 1); (2, 0)]%Z
     | _ => False
     end.
Proof. vm_compute. repeat split; reflexivity. Qed.

(** The cut of [substring] counts UTF-16 code units: the two bytes of [ö]
    are one unit, the four bytes of a character beyond U+FFFF are two. *)
Example substring_units_ascii :
  substring_units 50 "data:image/png;base64,AAAAAAAAAAAAAAAAAAAAAAAAAAAAAAAAAAAAAAAA"
  = "data:image/png;base64,AAAAAAAAAAAAAAAAAAAAAAAAAAAA".
Proof. reflexivity. Qed.

Example substring_units_two_bytes : substring_units 5 "Günther" = "Günth".
Proof. reflexivity. Qed.

Example substring_units_four_bytes : substring_units 3 "a😀b" = "a😀".
Proof. reflexivity. Qed.

Example substring_units_between_surrogates :
  List.map N_of_ascii (list_ascii_of_string (substring_units 2 "a😀b"))
  = [97; 237; 160; 189]%N.
Proof. reflexivity. Qed.

Example loadImage_failure_message :
  loadImage flaky_browser "data:image/png;base64,CCCC"
  = Throw (ErrorObj "Failed to load image: data:image/png;base64,CCCC...").
Proof. reflexivity. Qed.

(** ** The retry wrapper *)

Section RetryWrapper.

Variable ai : remote.
Variable rq : request.

(** One turn of the loop, as a plain conditional. *)
Lemma attempt_loop_body (attempt : Z) :
  attempt_loop ai rq attempt =
  if Z_le_dec attempt maxRetries then
    match ai attempt with
    | Normal response => ([GenerateContent attempt rq], Returned response)
    | Throw error =>
        match errorMessage error with
        | None => ([GenerateContent attempt rq], Rethrown TypeError_includes)
        | Some msg =>
            if isInternalError msg && bool_decide (attempt < maxRetries)%Z then
              let '(effects, exit) := attempt_loop ai rq (attempt + 1) in
              (GenerateContent attempt rq
                 :: Sleep (initialDelay * 2 ^ (attempt - 1)) :: effects, exit)
            else ([GenerateContent attempt rq], Rethrown error)
        end
    end
  else ([], FellThrough).
Proof.
  funelim (attempt_loop ai rq attempt); clear Heqcall.
  all: repeat match goal with
         | H : attempt_loop _ _ _ = _ |- _ => clear H
         | H : _ = _ |- _ => first [rewrite H | idtac]; clear H
         end; simpl.
  all: rewrite ?bool_decide_eq_true_2, ?bool_decide_eq_false_2 by done.
  all: rewrite ?andb_false_r; reflexivity.
Qed.

(** The last turn never goes round again. *)
Lemma attempt_loop_last :
  snd (attempt_loop ai rq maxRetries) <> FellThrough
  /\ attempts (fst (attempt_loop ai rq maxRetries)) = 1%nat
  /\ delays (fst (attempt_loop ai rq maxRetries)) = [].
Proof.
  rewrite attempt_loop_body.
  destruct (Z_le_dec maxRetries maxRetries) as [_|n]; [|lia].
  destruct (ai maxRetries) as [r|e]; [done|].
  destruct (errorMessage e) as [m|]; [|done].
  rewrite bool_decide_eq_false_2 by lia. rewrite andb_false_r. done.
Qed.

(** Every turn that starts within the bound leaves the loop from inside,
    after at most as many calls as there are turns left. *)
Lemma attempt_loop_exits (k : nat) (attempt : Z) :
  (attempt <= maxRetries)%Z ->
  (maxRetries - attempt < Z.of_nat k)%Z ->
  snd (attempt_loop ai rq attempt) <> FellThrough
  /\ (1 <= attempts (fst (attempt_loop ai rq attempt)) <= k)%nat.
Proof.
  revert attempt. induction k as [|k IH]; intros attempt Hle Hk; [lia|].
  rewrite attempt_loop_body.
  destruct (Z_le_dec attempt maxRetries) as [_|n]; [|lia].
  destruct (ai attempt) as [r|e]; [simpl; split; [done|unfold attempts; simpl; lia]|].
  destruct (errorMessage e) as [m|]; [|simpl; split; [done|unfold attempts; simpl; lia]].
  destruct (isInternalError m); simpl;
    [|split; [done|unfold attempts; simpl; lia]].
  case_bool_decide as Hlt; [|split; [done|unfold attempts; simpl; lia]].
  destruct (IH (attempt + 1)%Z) as [Hexit Hn]; [lia..|].
  destruct (attempt_loop ai rq (attempt + 1)) as [effects exit].
  simpl in *. split; [done|]. unfold attempts in *. simpl. lia.
Qed.

End RetryWrapper.

Ltac loop_turn :=
  rewrite attempt_loop_body;
  match goal with
  | |- context [Z_le_dec ?a maxRetries] =>
      destruct (Z_le_dec a maxRetries) as [_|?]; [|unfold maxRetries in *; lia]
  end.

(** C2. When every attempt fails with a failure that the wrapper classifies
    as transient, it calls the remote capability exactly three times, waits
    1000 ms after the first failure and 2000 ms after the second, these
    being [initialDelay * 2 ^ (attempt - 1)] for the attempt that failed,
    and throws the failure of the third attempt. *)
Theorem retry_exhausted_on_transient_failures (ai : remote) (rq : request) :
  (forall attempt, (1 <= attempt <= maxRetries)%Z ->
     exists e, ai attempt = Throw e /\ classified_transient e = true) ->
  exists last,
    ai maxRetries = Throw last
    /\ callGeminiWithRetry ai rq =
         ([GenerateContent 1 rq; Sleep 1000; GenerateContent 2 rq; Sleep 2000;
           GenerateContent 3 rq], Throw last)
    /\ attempts (fst (callGeminiWithRetry ai rq)) = 3%nat
    /\ delays (fst (callGeminiWithRetry ai rq))
       = List.map (fun failed => (initialDelay * 2 ^ (failed - 1))%Z) [1%Z; 2%Z].
Proof.
  intros H.
  destruct (H 1%Z) as (e1 & H1 & T1); [unfold maxRetries; lia|].
  destruct (H 2%Z) as (e2 & H2 & T2); [unfold maxRetries; lia|].
  destruct (H 3%Z) as (e3 & H3 & T3); [unfold maxRetries; lia|].
  exists e3. split; [assumption|].
  unfold classified_transient in *.
  destruct (errorMessage e1) as [m1|] eqn:M1; [|discriminate].
  destruct (errorMessage e2) as [m2|] eqn:M2; [|discriminate].
  destruct (errorMessage e3) as [m3|] eqn:M3; [|discriminate].
  assert (callGeminiWithRetry ai rq =
         ([GenerateContent 1 rq; Sleep 1000; GenerateContent 2 rq; Sleep 2000;
           GenerateContent 3 rq], Throw e3)) as ->.
  { unfold callGeminiWithRetry.
    loop_turn. rewrite H1, M1, T1. change (1 + 1)%Z with 2%Z.
    loop_turn. rewrite H2, M2, T2. change (2 + 1)%Z with 3%Z.
    loop_turn. rewrite H3, M3, T3.
    reflexivity. }
  repeat split.
Qed.

Lemma retry_exhausted_on_transient_failures_witness :
  exists last,
    always_internal maxRetries = Throw last
    /\ callGeminiWithRetry always_internal sample_request =
         ([GenerateContent 1 sample_request; Sleep 1000;
           GenerateContent 2 sample_request; Sleep 2000;
           GenerateContent 3 sample_request], Throw last)
    /\ attempts (fst (callGeminiWithRetry always_internal sample_request)) = 3%nat
    /\ delays (fst (callGeminiWithRetry always_internal sample_request))
       = List.map (fun failed => (initialDelay * 2 ^ (failed - 1))%Z) [1%Z; 2%Z].
Proof.
  apply (retry_exhausted_on_transient_failures always_internal sample_request).
  intros attempt _. exists (ErrorObj "got status: 500 INTERNAL").
  split; reflexivity.
Defined.

(** C3. An attempt that fails with a failure not classified as transient
    ends the wrapper there: that attempt is the only call of the remote
    capability from then on, no timer is set, and the failure is thrown
    (in the place of a thrown value without a readable message, the
    [TypeError] raised on reading it).  In particular, when the first
    attempt fails so, the wrapper makes exactly one attempt. *)
Theorem permanent_failure_is_not_retried
    (ai : remote) (rq : request) (attempt : Z) (e : js_thrown) :
  (1 <= attempt <= maxRetries)%Z ->
  ai attempt = Throw e ->
  classified_transient e = false ->
  exists thrown,
    attempt_loop ai rq attempt = ([GenerateContent attempt rq], Rethrown thrown)
    /\ (errorMessage e <> None -> thrown = e)
    /\ (errorMessage e = None -> thrown = TypeError_includes)
    /\ (attempt = 1%Z ->
        callGeminiWithRetry ai rq = ([GenerateContent 1 rq], Throw thrown)
        /\ attempts (fst (callGeminiWithRetry ai rq)) = 1%nat
        /\ delays (fst (callGeminiWithRetry ai rq)) = []).
Proof.
  intros Hrange Hfail Hclass. unfold classified_transient in Hclass.
  assert (exists thrown,
             attempt_loop ai rq attempt = ([GenerateContent attempt rq], Rethrown thrown)
             /\ (errorMessage e <> None -> thrown = e)
             /\ (errorMessage e = None -> thrown = TypeError_includes))
    as (thrown & Hloop & Hsome & Hnone).
  { loop_turn. rewrite Hfail.
    destruct (errorMessage e) as [msg|] eqn:Hmsg.
    - rewrite Hclass. simpl. exists e. repeat split; congruence.
    - exists TypeError_includes. repeat split; congruence. }
  exists thrown. repeat split; try assumption;
    subst attempt; unfold callGeminiWithRetry; rewrite Hloop; reflexivity.
Qed.

Lemma permanent_failure_is_not_retried_witness :
  exists thrown,
    attempt_loop content_policy sample_request 1
      = ([GenerateContent 1 sample_request], Rethrown thrown)
    /\ (errorMessage (ErrorObj "Request blocked by the content policy") <> None
        -> thrown = ErrorObj "Request blocked by the content policy")
    /\ (errorMessage (ErrorObj "Request blocked by the content policy") = None
        -> thrown = TypeError_includes)
    /\ (1%Z = 1%Z ->
        callGeminiWithRetry content_policy sample_request
          = ([GenerateContent 1 sample_request], Throw thrown)
        /\ attempts (fst (callGeminiWithRetry content_policy sample_request)) = 1%nat
        /\ delays (fst (callGeminiWithRetry content_policy sample_request)) = []).
Proof.
  apply (permanent_failure_is_not_retried content_policy sample_request 1
           (ErrorObj "Request blocked by the content policy")).
  - unfold maxRetries. lia.
  - reflexivity.
  - vm_compute. reflexivity.
Defined.

(** C10. Whatever the remote capability does, the loop of
    [callGeminiWithRetry] is left from inside, by the [return] or by the
    [throw] of one of its turns, after at least one and at most three calls;
    the [throw] that follows the loop is never reached. *)
Theorem trailing_throw_unreachable (ai : remote) (rq : request) :
  snd (attempt_loop ai rq 1) <> FellThrough
  /\ (1 <= attempts (fst (callGeminiWithRetry ai rq)) <= 3)%nat
  /\ (forall attempt, (1 <= attempt <= maxRetries)%Z ->
        snd (attempt_loop ai rq attempt) <> FellThrough).
Proof.
  assert (forall attempt, (1 <= attempt <= maxRetries)%Z ->
            snd (attempt_loop ai rq attempt) <> FellThrough) as Hall.
  { intros attempt Hrange.
    apply (attempt_loop_exits ai rq (Z.to_nat (maxRetries - attempt + 1)) attempt); lia. }
  split; [apply Hall; unfold maxRetries; lia|]. split; [|exact Hall].
  destruct (attempt_loop_exits ai rq 3 1) as [Hexit Hn];
    [unfold maxRetries; lia..|].
  unfold callGeminiWithRetry.
  destruct (attempt_loop ai rq 1) as [effects [r|e|]]; simpl in *; try done.
Qed.

Lemma trailing_throw_unreachable_witness :
  snd (attempt_loop always_internal sample_request 1) <> FellThrough
  /\ (1 <= attempts (fst (callGeminiWithRetry always_internal sample_request)) <= 3)%nat
  /\ (forall attempt, (1 <= attempt <= maxRetries)%Z ->
        snd (attempt_loop always_internal sample_request attempt) <> FellThrough).
Proof. exact (trailing_throw_unreachable always_internal sample_request). Defined.

(** ** Response processing *)

Lemma prefix_append (t b : string) : String.prefix t (t +:+ b) = true.
Proof.
  induction t as [|c t IH]; simpl; [by destruct b|].
  destruct (ascii_dec c c); [exact IH|done].
Qed.

Lemma includes_here (t b : string) : includes (t +:+ b) t = true.
Proof.
  destruct t as [|c t]; [by destruct b|].
  pose proof (prefix_append (String c t) b) as H.
  simpl in *. by rewrite H.
Qed.

Lemma includes_append_l (a s t : string) :
  includes s t = true -> includes (a +:+ s) t = true.
Proof.
  intros H. induction a as [|c a IH]; [exact H|].
  change (String c a +:+ s) with (String c (a +:+ s)).
  cbn [includes]. rewrite IH. by destruct (String.prefix _ _).
Qed.

Lemma find_image_part_has_payload (ps : list Part) (part : Part) :
  List.find (fun part => bool_decide (is_Some (inlineData part))) ps = Some part ->
  existsb (fun part => bool_decide (is_Some (inlineData part))) ps = true.
Proof.
  induction ps as [|p ps IH]; simpl; [done|].
  destruct (bool_decide (is_Some (inlineData p))); [done|exact IH].
Qed.

Lemma imagePartFromResponse_has_payload (response : GenerateContentResponse) (part : Part) :
  imagePartFromResponse response = Some part ->
  has_image_payload response = true.
Proof.
  unfold imagePartFromResponse, has_image_payload.
  destruct (candidates response) as [[|c cs]|]; simpl; try done.
  destruct (content c) as [ct|]; simpl; [|done].
  destruct (parts ct) as [ps|]; simpl; [|done].
  intros H. by rewrite (find_image_part_has_payload _ _ H).
Qed.

(** C9. A response none of whose parts carries inline image data makes
    [processGeminiResponse] throw, and the message of the error it throws
    quotes the text of the response (or a fixed notice when there is no
    text); it never returns a result for such a response. *)
Theorem response_without_image_is_an_error (response : GenerateContentResponse) :
  has_image_payload response = false ->
  processGeminiResponse response
    = Throw (ErrorObj ("The AI model responded with text instead of an image: "
                       +:+ dq +:+ text_or_default (text response) +:+ dq))
  /\ (forall t, text response = Some t -> truthy t = true ->
        exists message,
          processGeminiResponse response = Throw (ErrorObj message)
          /\ includes message t = true).
Proof.
  intros Hno.
  assert (processGeminiResponse response
    = Throw (ErrorObj ("The AI model responded with text instead of an image: "
                       +:+ dq +:+ text_or_default (text response) +:+ dq))) as Heq.
  { unfold processGeminiResponse.
    destruct (imagePartFromResponse response) as [part|] eqn:Hpart; [|done].
    apply imagePartFromResponse_has_payload in Hpart. congruence. }
  split; [exact Heq|].
  intros t Ht Htruthy. eexists. split; [exact Heq|].
  rewrite Ht. unfold text_or_default. rewrite Htruthy.
  apply (includes_append_l "The AI model responded with text instead of an image: ").
  apply (includes_append_l dq). apply includes_here.
Qed.

Lemma response_without_image_is_an_error_witness :
  processGeminiResponse refusal
    = Throw (ErrorObj ("The AI model responded with text instead of an image: "
                       +:+ dq +:+ text_or_default (text refusal) +:+ dq))
  /\ (forall t, text refusal = Some t -> truthy t = true ->
        exists message,
          processGeminiResponse refusal = Throw (ErrorObj message)
          /\ includes message t = true).
Proof. apply (response_without_image_is_an_error refusal). reflexivity. Defined.

(** ** Input errors of generatePimpImage *)

(** A source image whose data URL does not have the expected form is
    refused before anything is sent. *)
Lemma generatePimpImage_rejects_malformed_url (ai : remote) (imageDataUrl pimpName : string) :
  match_data_url imageDataUrl = None ->
  generatePimpImage ai imageDataUrl pimpName
  = ([], Throw (ErrorObj "Invalid image data URL format. Expected 'data:image/...;base64,...'")).
Proof. intros H. unfold generatePimpImage. by rewrite H. Qed.

(** So is a name for which the property read on [PROMPTS] gives
    [undefined]. *)
Lemma generatePimpImage_rejects_undefined_prompt (ai : remote) (imageDataUrl pimpName : string) :
  PROMPTS_get pimpName = None ->
  fst (generatePimpImage ai imageDataUrl pimpName) = []
  /\ exists e, snd (generatePimpImage ai imageDataUrl pimpName) = Throw e.
Proof.
  intros H. unfold generatePimpImage.
  destruct (match_data_url imageDataUrl) as [[mime payload]|]; [|by eauto].
  rewrite H. by eauto.
Qed.

(** C8, at the input where the code departs from it.  [toString] is not
    an entry of the prompt table, yet [generatePimpImage] does not throw
    before dispatch: the property read finds [Object.prototype.toString],
    which is truthy, and the remote capability is called with it as the
    text of the request. *)
Theorem generatePimpImage_dispatches_inherited_name (ai : remote) :
  own_property PROMPTS "toString" = None
  /\ exists rest,
       fst (generatePimpImage ai "data:image/png;base64,AAAA" "toString")
       = GenerateContent 1 {| req_mimeType := "image/png";
                              req_data := "AAAA";
                              req_text := Inherited "toString" |} :: rest.
Proof.
  split; [reflexivity|].
  unfold generatePimpImage.
  replace (match_data_url "data:image/png;base64,AAAA")
    with (Some ("image/png", "AAAA")) by reflexivity.
  replace (PROMPTS_get "toString") with (Some (Inherited "toString")) by reflexivity.
  cbn [prop_truthy].
  set (rq := {| req_mimeType := "image/png"; req_data := "AAAA";
                req_text := Inherited "toString" |}).
  unfold callGeminiWithRetry. rewrite attempt_loop_body.
  destruct (Z_le_dec 1 maxRetries) as [_|n]; [|unfold maxRetries in n; lia].
  destruct (ai 1%Z) as [r|e].
  { destruct (processGeminiResponse r); simpl; eauto. }
  destruct (errorMessage e) as [msg|]; [|simpl; eauto].
  destruct (isInternalError msg && bool_decide (1 < maxRetries)%Z); [|simpl; eauto].
  destruct (attempt_loop ai rq (1 + 1)) as [effects [r|e'|]]; simpl; eauto.
  destruct (processGeminiResponse r); simpl; eauto.
Qed.

(** ** The store *)

Lemma own_property_set_key {A : Type} (o : list (string * A)) (k k' : string) (v : A) :
  own_property (set_key o k v) k' = if String.eqb k k' then Some v else own_property o k'.
Proof.
  induction o as [|[k0 v0] o IH]; simpl.
  - by destruct (String.eqb k k').
  - destruct (String.eqb_spec k0 k) as [->|E0]; simpl.
    + by destruct (String.eqb k k').
    + rewrite IH.
      destruct (String.eqb_spec k0 k') as [->|E1]; [|done].
      by destruct (String.eqb_spec k k').
Qed.

Lemma status_of_set_key_eq (o : Store) (k : string) (v : GeneratedImage) :
  status_of (set_key o k v) k = Some (status v).
Proof. unfold status_of. rewrite own_property_set_key. by rewrite String.eqb_refl. Qed.

Lemma status_of_set_key_ne (o : Store) (k k' : string) (v : GeneratedImage) :
  k <> k' -> status_of (set_key o k v) k' = status_of o k'.
Proof.
  intros Hne. unfold status_of. rewrite own_property_set_key.
  destruct (String.eqb k k') eqn:E; [|done].
  by apply String.eqb_eq in E.
Qed.

Lemma keys_set_key {A : Type} (o : list (string * A)) (k : string) (v : A) :
  List.map fst (set_key o k v)
  = if bool_decide (k ∈ List.map fst o) then List.map fst o
    else (List.map fst o ++ [k])%list.
Proof.
  induction o as [|[k0 v0] o IH]; simpl; [done|].
  destruct (String.eqb k0 k) eqn:E0; simpl.
  - apply String.eqb_eq in E0. subst k0.
    rewrite bool_decide_eq_true_2; [done|by left].
  - rewrite IH. apply String.eqb_neq in E0.
    destruct (decide (k ∈ List.map fst o)) as [Hin|Hnin].
    + rewrite !bool_decide_eq_true_2; [done|by right|done].
    + rewrite !bool_decide_eq_false_2; [done| |done].
      intros [->|Hin]%elem_of_cons; done.
Qed.

Lemma NoDup_keys_set_key {A : Type} (o : list (string * A)) (k : string) (v : A) :
  NoDup (List.map fst o) -> NoDup (List.map fst (set_key o k v)).
Proof.
  intros H. rewrite keys_set_key. case_bool_decide as Hin; [done|].
  apply NoDup_app. repeat split; [done| |apply NoDup_singleton].
  intros x Hx Hx'. apply list_elem_of_singleton in Hx'. by subst.
Qed.

(** The outcome of a call is always recorded, as [Done] or as [Error];
    nothing escapes the [catch]. *)
Lemma record_outcome_recorded (outcome : completion string) (pimp : string) (prev : Store) :
  exists v,
    record_outcome outcome pimp prev = Normal (set_key prev pimp v)
    /\ match outcome with
       | Normal resultUrl => v = {| status := Done; url := Some resultUrl; error := None |}
       | Throw err =>
           exists message, v = {| status := Error; url := None; error := Some message |}
       end.
Proof.
  destruct outcome as [resultUrl|err]; simpl; eexists; split; try reflexivity.
  by eexists.
Qed.

(** ** The workers *)

Lemma worker_loop_truthy (queue : list string) :
  Forall (fun p => truthy p = true) queue ->
  worker_loop queue
  = match queue with
    | [] => (Fulfilled, [])
    | pimp :: rest => (Awaiting pimp, rest)
    end.
Proof. destruct 1 as [|p rest Hp _]; simpl; [done|by rewrite Hp]. Qed.

Lemma awaited_app (ws1 ws2 : list Worker) :
  awaited (ws1 ++ ws2) = awaited ws1 ++ awaited ws2.
Proof. apply omap_app. Qed.

(** Replacing the worker that awaits [pimp]. *)
Lemma awaited_settle (ws : list Worker) (i : nat) (pimp : string) :
  ws !! i = Some (Awaiting pimp) ->
  exists before after,
    awaited ws = before ++ pimp :: after
    /\ forall w, awaited (<[i:=w]> ws) = before ++ awaited [w] ++ after.
Proof.
  intros Hi.
  exists (awaited (take i ws)), (awaited (drop (S i) ws)). split.
  - rewrite <- (take_drop_middle ws i _ Hi) at 1. by rewrite awaited_app.
  - intros w. rewrite insert_take_drop by (by eapply lookup_lt_Some).
    rewrite awaited_app.
    change (w :: drop (S i) ws) with ([w] ++ drop (S i) ws).
    by rewrite (awaited_app [w]).
Qed.

Lemma remove_one_split (pimp : string) (l : list string) :
  pimp ∈ l ->
  exists before after, l = before ++ pimp :: after /\ remove_one pimp l = before ++ after.
Proof.
  induction l as [|p l IH]; intros Hin; [by apply elem_of_nil in Hin|].
  simpl. destruct (String.eqb p pimp) eqn:E.
  - apply String.eqb_eq in E. subst p. by exists [], l.
  - apply String.eqb_neq in E. apply elem_of_cons in Hin as [->|Hin]; [done|].
    destruct (IH Hin) as (before & after & -> & ->).
    by exists (p :: before), after.
Qed.

(** ** The invariant is kept *)

Lemma join_spec (s : App) :
  uploadedImage (join s) = uploadedImage s
  /\ generatedImages (join s) = generatedImages s
  /\ pimpQueue (join s) = pimpQueue s
  /\ workers (join s) = workers s
  /\ regenerating (join s) = regenerating s
  /\ dispatched (join s) = dispatched s
  /\ appState (join s)
     = (if all_fulfilled (workers s) then results_shown else appState s).
Proof. unfold join. by destruct (all_fulfilled (workers s)). Qed.

Lemma all_fulfilled_spec (ws : list Worker) :
  all_fulfilled ws = true <-> forall w, w ∈ ws -> w = Fulfilled.
Proof.
  unfold all_fulfilled. rewrite forallb_forall. split.
  - intros H w Hw. apply list_elem_of_In in Hw. specialize (H w Hw). by destruct w.
  - intros H w Hw. apply list_elem_of_In in Hw. by rewrite (H w Hw).
Qed.

Lemma Forall_set_key {A : Type} (P : string * A -> Prop) (o : list (string * A))
    (k : string) (v : A) :
  (forall k', P (k', v)) -> Forall P o -> Forall P (set_key o k v).
Proof.
  intros Hv. induction 1 as [|[k0 v0] o H0 Ho IH]; simpl.
  - by repeat constructor.
  - destruct (String.eqb k0 k); constructor; auto.
Qed.

(** What a step of a worker is, in a state that satisfies the invariant:
    the outcome of the call is recorded for the item the worker awaited,
    and the worker takes the head of the queue or, if there is none,
    finishes. *)
Lemma step_worker_settles (s s' : App) (i : nat) (ai : remote) :
  Inv s ->
  step (WorkerSettles i ai) s = Some s' ->
  exists pimp v w rest,
    workers s !! i = Some (Awaiting pimp)
    /\ (status v = Done \/ status v = Error) /\ entry_wf v
    /\ ((pimpQueue s = [] /\ w = Fulfilled /\ rest = [])
        \/ (pimpQueue s = awaited [w] ++ rest /\ exists q, w = Awaiting q))
    /\ uploadedImage s' = uploadedImage s
    /\ generatedImages s' = set_key (generatedImages s) pimp v
    /\ pimpQueue s' = rest
    /\ workers s' = <[i:=w]> (workers s)
    /\ regenerating s' = regenerating s
    /\ dispatched s' = log_dispatch i w (dispatched s)
    /\ appState s'
       = (if all_fulfilled (<[i:=w]> (workers s)) then results_shown else appState s).
Proof.
  intros HI Hstep. unfold step in Hstep.
  destruct (workers s !! i) as [[pimp| |]|] eqn:Hw; try discriminate.
  destruct (uploadedImage s) as [image|] eqn:Himg; try discriminate.
  unfold processPimp in Hstep.
  destruct (record_outcome_recorded (snd (generatePimpImage ai image pimp)) pimp
              (generatedImages s)) as (v & Hrec & Hv).
  rewrite Hrec in Hstep. clear Hrec.
  rewrite (worker_loop_truthy _ (inv_truthy s HI)) in Hstep.
  assert ((status v = Done \/ status v = Error) /\ entry_wf v) as [Hst Hwf].
  { destruct (snd (generatePimpImage ai image pimp)) as [u|e].
    - subst v. split; [by left|]. split; [by eexists|done].
    - destruct Hv as [m ->]. split; [by right|]. split; [done|by eexists]. }
  destruct (pimpQueue s) as [|q rest] eqn:Hq.
  - injection Hstep as <-. exists pimp, v, Fulfilled, [].
    match goal with
    | |- context [join ?x] =>
        destruct (join_spec x) as (-> & -> & -> & -> & -> & -> & ->)
    end.
    simpl. repeat split; try done. by left.
  - injection Hstep as <-. exists pimp, v, (Awaiting q), rest.
    match goal with
    | |- context [join ?x] =>
        destruct (join_spec x) as (-> & -> & -> & -> & -> & -> & ->)
    end.
    simpl. repeat split; try done. right. split; [done|by eexists].
Qed.

Lemma elem_of_insert_inv {A : Type} (l : list A) (i : nat) (a b : A) :
  b ∈ <[i:=a]> l -> b = a \/ b ∈ l.
Proof.
  intros (j & Hj)%list_elem_of_lookup.
  apply list_lookup_insert_Some in Hj as [(_ & -> & _)|(_ & Hj)]; [by left|].
  right. apply list_elem_of_lookup. by exists j.
Qed.

(** The names that are queued or in flight, before and after a worker's
    call settles: the settled name leaves, nothing else changes. *)
Lemma settle_perm (queue rest regs : list string) (ws : list Worker)
    (i : nat) (pimp : string) (w : Worker) :
  ws !! i = Some (Awaiting pimp) ->
  (queue = [] /\ w = Fulfilled /\ rest = [])
  \/ (queue = awaited [w] ++ rest /\ exists q, w = Awaiting q) ->
  queue ++ awaited ws ++ regs
  ≡ₚ pimp :: (rest ++ awaited (<[i:=w]> ws) ++ regs).
Proof.
  intros Hw Hq.
  destruct (awaited_settle _ _ _ Hw) as (before & after & -> & ->).
  destruct Hq as [(-> & -> & ->)|(-> & q & ->)]; simpl.
  - solve_Permutation.
  - solve_Permutation.
Qed.

Lemma Inv_worker_settles (s s' : App) (i : nat) (ai : remote) :
  Inv s -> step (WorkerSettles i ai) s = Some s' -> Inv s'.
Proof.
  intros HI Hstep.
  destruct (step_worker_settles s s' i ai HI Hstep)
    as (pimp & v & w & rest & Hw & Hst & Hwf & Hq & E1 & E2 & E3 & E4 & E5 & E6 & E7).
  pose proof (settle_perm _ rest (regenerating s) _ _ _ w Hw Hq) as Hperm.
  pose proof (inv_nodup s HI) as Hnodup. unfold in_flight in Hnodup.
  rewrite Hperm in Hnodup. apply NoDup_cons in Hnodup as [Hfresh Hnodup].
  assert (forall x, x ∈ pimpQueue s' ++ in_flight s' ->
                    x <> pimp /\ x ∈ pimpQueue s ++ in_flight s) as Hold.
  { unfold in_flight. rewrite E3, E4, E5. intros x Hx. split; [by intros ->|].
    rewrite Hperm. by right. }
  assert (terminal (status_of (generatedImages s') pimp)) as Hterm.
  { rewrite E2, status_of_set_key_eq. destruct Hst as [-> | ->]; [by left|by right]. }
  split.
  - by rewrite E1; apply HI.
  - unfold in_flight. by rewrite E3, E4, E5.
  - intros x Hx. destruct (Hold x Hx) as [Hne Hxo].
    rewrite E2, status_of_set_key_ne by done. by apply HI.
  - rewrite E3. pose proof (inv_truthy s HI) as Ht.
    destruct Hq as [(_ & _ & ->)|(Hq & q & ->)]; [constructor|].
    rewrite Hq in Ht. simpl in Ht. by inversion Ht.
  - intros x Hx. destruct (decide (x = pimp)) as [->|Hne]; [by right|].
    destruct (inv_covered s HI x Hx) as [Hin|Hter].
    + left. unfold in_flight in *. rewrite Hperm in Hin.
      apply elem_of_cons in Hin as [?|Hin]; [done|]. by rewrite E3, E4, E5.
    + right. by rewrite E2, status_of_set_key_ne.
  - rewrite E3, E4. intros Hful.
    destruct Hq as [(_ & _ & ->)|(Hq & q & ->)]; [done|].
    apply elem_of_insert_inv in Hful as [?|Hful]; [done|].
    rewrite (inv_drained s HI Hful) in Hq. done.
  - rewrite E4. intros e [He|He]%elem_of_insert_inv.
    + destruct Hq as [(_ & -> & _)|(_ & q & ->)]; done.
    + by apply (inv_no_reject s HI e).
  - rewrite E4, length_insert. apply HI.
  - rewrite E3, E6. rewrite <- (inv_log s HI).
    destruct Hq as [(-> & -> & ->)|(-> & q & ->)]; simpl; [done|].
    rewrite map_app. simpl. by rewrite <- app_assoc.
  - rewrite E4, E7. destruct (all_fulfilled (<[i:=w]> (workers s))) eqn:Hall; [done|].
    split; [|done]. intros Hshown. apply (inv_shown s HI) in Hshown.
    rewrite all_fulfilled_spec in Hshown.
    assert (Awaiting pimp = Fulfilled) as Habs; [|done].
    apply Hshown. by eapply list_elem_of_lookup_2.
  - rewrite E2. apply Forall_set_key; [done|apply HI].
  - rewrite E2. apply NoDup_keys_set_key, HI.
  - rewrite E4, E6. intros x Hx.
    destruct (awaited_settle _ _ _ Hw) as (before & after & Hbefore & Hafter).
    rewrite Hafter in Hx.
    assert (x ∈ awaited [w] \/ x ∈ awaited (workers s)) as [Hnew|Hkept].
    { rewrite Hbefore. rewrite !elem_of_app in Hx. rewrite elem_of_app, elem_of_cons.
      tauto. }
    + destruct w as [q| |e]; try by apply elem_of_nil in Hnew.
      apply list_elem_of_singleton in Hnew as ->. simpl.
      rewrite map_app. apply elem_of_app. right. by left.
    + pose proof (inv_awaited s HI x Hkept) as Hlog.
      destruct w as [q| |e]; simpl; try done.
      rewrite map_app. apply elem_of_app. by left.
Qed.


Lemma Inv_shake (s : App) (pimp : string) :
  Inv s -> Inv (handleRegeneratePimp pimp s).
Proof.
  intros HI. unfold handleRegeneratePimp.
  destruct (no_image (uploadedImage s)); [done|].
  case_bool_decide as Hst; [done|].
  assert (pimp ∉ pimpQueue s ++ in_flight s) as Hfresh.
  { intros Hin. by apply Hst, HI. }
  assert (pimpQueue s ++ awaited (workers s) ++ pimp :: regenerating s
          ≡ₚ pimp :: (pimpQueue s ++ in_flight s)) as Hperm.
  { unfold in_flight. solve_Permutation. }
  split; simpl; unfold in_flight; simpl; try apply HI.
  - rewrite Hperm. apply NoDup_cons. split; [done|apply HI].
  - intros x Hx. rewrite Hperm in Hx.
    apply elem_of_cons in Hx as [->|Hx]; [apply status_of_set_key_eq|].
    rewrite status_of_set_key_ne by (by intros ->). by apply HI.
  - intros x Hx. destruct (decide (x = pimp)) as [->|Hne].
    + left. rewrite Hperm. by left.
    + destruct (inv_covered s HI x Hx) as [Hin|Hter].
      * left. rewrite Hperm. by right.
      * right. by rewrite status_of_set_key_ne.
  - apply Forall_set_key; [done|apply HI].
  - apply NoDup_keys_set_key, HI.
Qed.

Lemma step_regeneration_settles (s s' : App) (pimp : string) (ai : remote) :
  step (RegenerationSettles pimp ai) s = Some s' ->
  exists v,
    pimp ∈ regenerating s
    /\ (status v = Done \/ status v = Error) /\ entry_wf v
    /\ s' = {| uploadedImage := uploadedImage s;
               generatedImages := set_key (generatedImages s) pimp v;
               isLoading := isLoading s;
               appState := appState s;
               pimpQueue := pimpQueue s;
               workers := workers s;
               regenerating := remove_one pimp (regenerating s);
               dispatched := dispatched s |}.
Proof.
  unfold step. case_bool_decide as Hin; [|done].
  destruct (uploadedImage s) as [image|]; [|done].
  destruct (record_outcome_recorded (snd (generatePimpImage ai image pimp)) pimp
              (generatedImages s)) as (v & -> & Hv).
  intros [= <-]. exists v. split; [done|].
  destruct (snd (generatePimpImage ai image pimp)) as [u|e].
  - subst v. repeat split; [by left|by eexists].
  - destruct Hv as [m ->]. repeat split; [by right|by eexists].
Qed.

Lemma Inv_regeneration_settles (s s' : App) (pimp : string) (ai : remote) :
  Inv s -> step (RegenerationSettles pimp ai) s = Some s' -> Inv s'.
Proof.
  intros HI Hstep.
  destruct (step_regeneration_settles s s' pimp ai Hstep) as (v & Hin & Hst & Hwf & ->).
  destruct (remove_one_split pimp _ Hin) as (before & after & Hreg & Hrem).
  assert (pimpQueue s ++ in_flight s
          ≡ₚ pimp :: (pimpQueue s ++ awaited (workers s) ++ remove_one pimp (regenerating s)))
    as Hperm.
  { unfold in_flight. rewrite Hrem, Hreg. solve_Permutation. }
  pose proof (inv_nodup s HI) as Hnodup.
  rewrite Hperm in Hnodup. apply NoDup_cons in Hnodup as [Hfresh Hnodup].
  split; simpl; unfold in_flight; simpl; try apply HI.
  - done.
  - intros x Hx. rewrite status_of_set_key_ne by (by intros ->).
    apply HI. rewrite Hperm. by right.
  - intros x Hx. destruct (decide (x = pimp)) as [->|Hne].
    + right. rewrite status_of_set_key_eq. destruct Hst as [-> | ->]; [by left|by right].
    + destruct (inv_covered s HI x Hx) as [Hxin|Hter].
      * left. rewrite Hperm in Hxin. by apply elem_of_cons in Hxin as [?|?].
      * right. by rewrite status_of_set_key_ne.
  - apply Forall_set_key; [done|apply HI].
  - apply NoDup_keys_set_key, HI.
Qed.

Lemma Inv_step (e : event) (s s' : App) : Inv s -> step e s = Some s' -> Inv s'.
Proof.
  destruct e as [i ai|pimp|pimp ai]; intros HI Hstep.
  - by eapply Inv_worker_settles.
  - injection Hstep as <-. by apply Inv_shake.
  - by eapply Inv_regeneration_settles.
Qed.

Lemma Inv_exec (trace : list event) (s s' : App) :
  Inv s -> exec trace s = Some s' -> Inv s'.
Proof.
  revert s. induction trace as [|e trace IH]; intros s HI Hexec; simpl in Hexec.
  - by injection Hexec as <-.
  - destruct (step e s) as [s1|] eqn:Hstep; [|done].
    eapply IH; [|done]. by eapply Inv_step.
Qed.

(** The state in which [handleGenerateClick] leaves the application when
    it reaches its [await]: the first two names are in flight, the other
    three are queued. *)
Lemma handleGenerateClick_uploaded (imageDataUrl : string) :
  truthy imageDataUrl = true ->
  handleGenerateClick (uploaded imageDataUrl)
  = {| uploadedImage := Some imageDataUrl;
       generatedImages := initialImages;
       isLoading := true;
       appState := generating;
       pimpQueue := ["Gold-Zahn Günther"; "Disco Dieter"; "Porsche-Paul"];
       workers := [Awaiting "Kiez-König"; Awaiting "Luden-Larry"];
       regenerating := [];
       dispatched := [(0%nat, "Kiez-König"); (1%nat, "Luden-Larry")] |}.
Proof.
  intros Himage. unfold handleGenerateClick, uploaded. cbn [uploadedImage no_image].
  rewrite Himage. reflexivity.
Qed.

Ltac by_evaluation := apply (bool_decide_unpack _); vm_compute; exact I.

Lemma Inv_handleGenerateClick (imageDataUrl : string) :
  truthy imageDataUrl = true ->
  Inv (handleGenerateClick (uploaded imageDataUrl)).
Proof.
  intros Himage. rewrite handleGenerateClick_uploaded by done.
  split; simpl; unfold in_flight; simpl.
  - by eexists.
  - by_evaluation.
  - apply Forall_forall. by_evaluation.
  - by_evaluation.
  - intros p Hp. left. revert p Hp. apply Forall_forall. by_evaluation.
  - intros H. exfalso. revert H. rewrite !elem_of_cons, elem_of_nil.
    intros [?|[?|?]]; done.
  - intros e. rewrite !elem_of_cons, elem_of_nil. intros [?|[?|?]]; done.
  - done.
  - done.
  - done.
  - repeat constructor.
  - by_evaluation.
  - apply Forall_forall. by_evaluation.
Qed.

(** ** Lookups *)

Lemma own_property_elem {A : Type} (o : list (string * A)) (k : string) (v : A) :
  own_property o k = Some v -> (k, v) ∈ o.
Proof.
  induction o as [|[k0 v0] o IH]; simpl; [done|].
  destruct (String.eqb_spec k0 k) as [->|Hne].
  - intros [= ->]. by left.
  - intros H. right. by apply IH.
Qed.

Lemma elem_own_property {A : Type} (o : list (string * A)) (k : string) (v : A) :
  NoDup (List.map fst o) -> (k, v) ∈ o -> own_property o k = Some v.
Proof.
  induction o as [|[k0 v0] o IH]; simpl; intros Hnd Hin; [by apply elem_of_nil in Hin|].
  apply NoDup_cons in Hnd as [Hfresh Hnd].
  apply elem_of_cons in Hin as [[= -> ->]|Hin]; [by rewrite String.eqb_refl|].
  destruct (String.eqb_spec k0 k) as [->|Hne]; [|by apply IH].
  exfalso. apply Hfresh. apply list_elem_of_fmap. by exists (k, v).
Qed.

Lemma length_awaited (ws : list Worker) : (length (awaited ws) <= length ws)%nat.
Proof.
  induction ws as [|[p| |e] ws IH]; simpl; [done|unfold awaited in *; simpl; lia..].
Qed.

(** ** From one session to the next *)

Lemma join_loading (s : App) :
  isLoading (join s) = (if all_fulfilled (workers s) then false else isLoading s).
Proof. unfold join. by destruct (all_fulfilled (workers s)). Qed.

Lemma recorded_value (outcome : completion string) (pimp : string) (prev : Store) :
  exists v,
    record_outcome outcome pimp prev = Normal (set_key prev pimp v)
    /\ (status v = Done \/ status v = Error) /\ entry_wf v.
Proof.
  destruct (record_outcome_recorded outcome pimp prev) as (v & Hrec & Hv).
  exists v. split; [done|].
  destruct outcome as [u|e].
  - subst v. split; [by left|]. split; [by eexists|done].
  - destruct Hv as [m ->]. split; [by right|]. split; [done|by eexists].
Qed.

Lemma worker_settles (s s' : App) (i : nat) (ai : remote) :
  Forall (fun p => truthy p = true) (pimpQueue s) ->
  step (WorkerSettles i ai) s = Some s' ->
  exists pimp v w rest,
    workers s !! i = Some (Awaiting pimp)
    /\ (status v = Done \/ status v = Error) /\ entry_wf v
    /\ ((pimpQueue s = [] /\ w = Fulfilled /\ rest = [])
        \/ (pimpQueue s = awaited [w] ++ rest /\ exists q, w = Awaiting q))
    /\ uploadedImage s' = uploadedImage s
    /\ generatedImages s' = set_key (generatedImages s) pimp v
    /\ pimpQueue s' = rest
    /\ workers s' = <[i:=w]> (workers s)
    /\ regenerating s' = regenerating s
    /\ dispatched s' = log_dispatch i w (dispatched s)
    /\ appState s'
       = (if all_fulfilled (<[i:=w]> (workers s)) then results_shown else appState s)
    /\ isLoading s'
       = (if all_fulfilled (<[i:=w]> (workers s)) then false else isLoading s).
Proof.
  intros Htruthy Hstep. unfold step in Hstep.
  destruct (workers s !! i) as [[pimp| |]|] eqn:Hw; try discriminate.
  destruct (uploadedImage s) as [image|] eqn:Himg; try discriminate.
  unfold processPimp in Hstep.
  destruct (recorded_value (snd (generatePimpImage ai image pimp)) pimp
              (generatedImages s)) as (v & Hrec & Hst & Hwf).
  rewrite Hrec in Hstep. clear Hrec.
  rewrite (worker_loop_truthy _ Htruthy) in Hstep.
  destruct (pimpQueue s) as [|q rest] eqn:Hq.
  - injection Hstep as <-. exists pimp, v, Fulfilled, [].
    rewrite join_loading.
    match goal with
    | |- context [join ?x] =>
        destruct (join_spec x) as (-> & -> & -> & -> & -> & -> & ->)
    end.
    simpl. repeat split; try done. by left.
  - injection Hstep as <-. exists pimp, v, (Awaiting q), rest.
    rewrite join_loading.
    match goal with
    | |- context [join ?x] =>
        destruct (join_spec x) as (-> & -> & -> & -> & -> & -> & ->)
    end.
    simpl. repeat split; try done. right. split; [done|by eexists].
Qed.

Lemma awaited_nil_lookup (ws : list Worker) (i : nat) (pimp : string) :
  awaited ws = [] -> ws !! i <> Some (Awaiting pimp).
Proof.
  intros Hnone Hi. destruct (awaited_settle _ _ _ Hi) as (before & after & Heq & _).
  rewrite Hnone in Heq. by destruct before.
Qed.

Lemma all_fulfilled_awaited (ws : list Worker) :
  all_fulfilled ws = true -> awaited ws = [].
Proof.
  rewrite all_fulfilled_spec. intros Hall.
  induction ws as [|w ws IH]; [done|].
  rewrite (Hall w) by (by left). apply IH. intros w' Hw'. apply Hall. by right.
Qed.

Lemma awaiting_not_all_fulfilled (ws : list Worker) (i : nat) (pimp : string) :
  ws !! i = Some (Awaiting pimp) -> all_fulfilled ws = false.
Proof.
  intros Hi. destruct (all_fulfilled ws) eqn:Hall; [|done].
  apply all_fulfilled_awaited in Hall. by apply awaited_nil_lookup with (i := i) (pimp := pimp) in Hall.
Qed.

Lemma Running_cards_shown (s : App) : Running s -> cards_shown s = true.
Proof.
  intros HR. pose proof (run_ui s HR) as Hui. unfold cards_shown.
  destruct (all_fulfilled (workers s)); destruct Hui as [-> _]; done.
Qed.

Lemma Running_worker_settles (s s' : App) (i : nat) (ai : remote) :
  Running s -> step (WorkerSettles i ai) s = Some s' -> Running s'.
Proof.
  intros HR Hstep.
  destruct (worker_settles s s' i ai (run_truthy s HR) Hstep)
    as (pimp & v & w & rest & Hw & Hst & Hwf & Hq & E1 & E2 & E3 & E4 & E5 & E6 & E7 & E8).
  pose proof (settle_perm _ rest (regenerating s) _ _ _ w Hw Hq) as Hperm.
  pose proof (settle_perm _ rest [] _ _ _ w Hw Hq) as Hperm0.
  rewrite !app_nil_r in Hperm0.
  split.
  - by rewrite E1; apply HR.
  - rewrite E3, E4. pose proof (run_nodup s HR) as Hnd. rewrite Hperm0 in Hnd.
    by apply NoDup_cons in Hnd as [_ ?].
  - rewrite E3. pose proof (run_truthy s HR) as Ht.
    destruct Hq as [(_ & _ & ->)|(Hq & q & ->)]; [constructor|].
    rewrite Hq in Ht. simpl in Ht. by inversion Ht.
  - intros x Hx. destruct (decide (x = pimp)) as [->|Hne].
    + right. rewrite E2, status_of_set_key_eq. destruct Hst as [-> | ->]; [by left|by right].
    + destruct (run_covered s HR x Hx) as [Hin|Hter].
      * left. unfold in_flight in *. rewrite Hperm in Hin.
        apply elem_of_cons in Hin as [?|Hin]; [done|]. by rewrite E3, E4, E5.
      * right. by rewrite E2, status_of_set_key_ne.
  - rewrite E3, E4. intros Hful.
    destruct Hq as [(_ & _ & ->)|(Hq & q & ->)]; [done|].
    apply elem_of_insert_inv in Hful as [?|Hful]; [done|].
    rewrite (run_drained s HR Hful) in Hq. done.
  - rewrite E4, length_insert. apply HR.
  - rewrite E3, E6. rewrite <- (run_log s HR).
    destruct Hq as [(-> & -> & ->)|(-> & q & ->)]; simpl; [done|].
    rewrite map_app. simpl. by rewrite <- app_assoc.
  - rewrite E4, E6. intros x Hx.
    destruct (awaited_settle _ _ _ Hw) as (before & after & Hbefore & Hafter).
    rewrite Hafter in Hx.
    assert (x ∈ awaited [w] \/ x ∈ awaited (workers s)) as [Hnew|Hkept].
    { rewrite Hbefore. rewrite !elem_of_app in Hx. rewrite elem_of_app, elem_of_cons.
      tauto. }
    + destruct w as [q| |e]; try by apply elem_of_nil in Hnew.
      apply list_elem_of_singleton in Hnew as ->. simpl.
      rewrite map_app. apply elem_of_app. right. by left.
    + pose proof (run_awaited s HR x Hkept) as Hlog.
      destruct w as [q| |e]; simpl; try done.
      rewrite map_app. apply elem_of_app. by left.
  - rewrite E4, E7, E8. destruct (all_fulfilled (<[i:=w]> (workers s))); [done|].
    pose proof (run_ui s HR) as Hui.
    by rewrite (awaiting_not_all_fulfilled _ _ _ Hw) in Hui.
Qed.

Lemma Running_shake (s : App) (pimp : string) :
  Running s -> Running (handleRegeneratePimp pimp s).
Proof.
  intros HR. unfold handleRegeneratePimp.
  destruct (no_image (uploadedImage s)); [done|].
  case_bool_decide as Hst; [done|].
  split; simpl; try apply HR.
  intros x Hx. destruct (decide (x = pimp)) as [->|Hne].
  - left. unfold in_flight. simpl. rewrite !elem_of_app, elem_of_cons. tauto.
  - destruct (run_covered s HR x Hx) as [Hin|Hter].
    + left. unfold in_flight in *. simpl. revert Hin.
      rewrite !elem_of_app, elem_of_cons. tauto.
    + right. by rewrite status_of_set_key_ne.
Qed.

(** A write of a settled outcome into the store keeps what holds while
    the cards are shown. *)
Lemma Running_write (s : App) (pimp : string) (v : GeneratedImage) (regs : list string) :
  Running s ->
  (status v = Done \/ status v = Error) ->
  (forall x, x ∈ regenerating s -> x = pimp \/ x ∈ regs) ->
  Running {| uploadedImage := uploadedImage s;
             generatedImages := set_key (generatedImages s) pimp v;
             isLoading := isLoading s;
             appState := appState s;
             pimpQueue := pimpQueue s;
             workers := workers s;
             regenerating := regs;
             dispatched := dispatched s |}.
Proof.
  intros HR Hst Hregs. split; simpl; try apply HR.
  intros x Hx. destruct (decide (x = pimp)) as [->|Hne].
  - right. rewrite status_of_set_key_eq. destruct Hst as [-> | ->]; [by left|by right].
  - destruct (run_covered s HR x Hx) as [Hin|Hter].
    + left. unfold in_flight in *. simpl. revert Hin.
      rewrite !elem_of_app. intros [?|[?|Hin]]; [tauto|tauto|].
      destruct (Hregs x Hin); [done|tauto].
    + right. by rewrite status_of_set_key_ne.
Qed.

Lemma Running_regeneration_settles (s s' : App) (pimp : string) (ai : remote) :
  Running s -> step (RegenerationSettles pimp ai) s = Some s' -> Running s'.
Proof.
  intros HR Hstep.
  destruct (step_regeneration_settles s s' pimp ai Hstep) as (v & Hin & Hst & Hwf & ->).
  apply Running_write; [done|done|].
  intros x Hx. destruct (remove_one_split pimp _ Hin) as (before & after & Hreg & ->).
  rewrite Hreg in Hx. revert Hx. rewrite !elem_of_app, elem_of_cons. tauto.
Qed.

(** A click on "Hit the Streets" starts every session in the same way,
    whatever the sessions before it did. *)
Lemma handleGenerateClick_again (s : App) (image : string) :
  uploadedImage s = Some image -> truthy image = true -> regenerating s = [] ->
  handleGenerateClick s = handleGenerateClick (uploaded image).
Proof.
  intros Himage Htruthy Hregs. unfold handleGenerateClick, uploaded. simpl.
  rewrite Himage, Hregs. simpl. by rewrite Htruthy.
Qed.

Lemma mugshot_shown_spec (s : App) :
  mugshot_shown s = true ->
  appState s = image_uploaded
  /\ exists image, uploadedImage s = Some image /\ truthy image = true.
Proof.
  unfold mugshot_shown, no_image. destruct (appState s); try done.
  destruct (uploadedImage s) as [image|]; [|done].
  destruct (truthy image) eqn:Ht; [|done]. intros _. split; [done|by exists image].
Qed.

Lemma Running_handleGenerateClick (image : string) :
  truthy image = true -> Running (handleGenerateClick (uploaded image)).
Proof.
  intros Himage. rewrite handleGenerateClick_uploaded by done.
  split; simpl; unfold in_flight; simpl.
  - by exists image.
  - by_evaluation.
  - by_evaluation.
  - intros p Hp. left. revert p Hp. apply Forall_forall. by_evaluation.
  - intros H. exfalso. revert H. rewrite !elem_of_cons, elem_of_nil.
    intros [?|[?|?]]; done.
  - done.
  - done.
  - apply Forall_forall. by_evaluation.
  - done.
Qed.

Lemma initialImages_wf : Forall (fun kv => entry_wf (snd kv)) initialImages.
Proof. repeat constructor. Qed.

Lemma Sound_fresh : Sound fresh.
Proof.
  split; simpl; try done.
  intros e He. by apply elem_of_nil in He.
Qed.

Lemma Sound_step (e : ui_event) (w w' : World) :
  Sound w -> ui_step e w = Some w' -> Sound w'.
Proof.
  intros HS. destruct e as [result| | |e|k ai]; simpl.
  - destruct (appState (app w)) eqn:Hst; try done. intros [= <-].
    pose proof (sound_quiet w HS) as Hq. unfold cards_shown in Hq. rewrite Hst in Hq.
    split; simpl; [constructor|apply HS|by intros _; apply Hq|done].
  - intros Hstep.
    assert (awaited (workers (app w)) = [] /\ isLoading (app w) = false) as [Hnone Hload].
    { destruct (mugshot_shown (app w)) eqn:Hm.
      - apply mugshot_shown_spec in Hm as [Hst _].
        pose proof (sound_quiet w HS) as Hq. unfold cards_shown in Hq. rewrite Hst in Hq.
        by destruct Hq as (_ & ? & ?).
      - simpl in Hstep. unfold results_are_shown in Hstep.
        destruct (appState (app w)) eqn:Hst; try done.
        pose proof (sound_running w HS) as HR. unfold cards_shown in HR. rewrite Hst in HR.
        specialize (HR eq_refl). pose proof (run_ui _ HR) as Hui. rewrite Hst in Hui.
        destruct (all_fulfilled (workers (app w))) eqn:Hall; [|by destruct Hui].
        split; [by apply all_fulfilled_awaited|by destruct Hui]. }
    destruct (_ || _); [|done]. injection Hstep as <-.
    split; simpl; [constructor|apply HS|done|done].
  - destruct (mugshot_shown (app w)) eqn:Hm; [|done]. intros [= <-].
    apply mugshot_shown_spec in Hm as (Hst & image & Himg & Htruthy).
    pose proof (sound_quiet w HS) as Hq. unfold cards_shown in Hq. rewrite Hst in Hq.
    destruct (Hq eq_refl) as (Hregs & _ & _).
    simpl. rewrite (handleGenerateClick_again _ image) by done.
    pose proof (Running_handleGenerateClick image Htruthy) as HR.
    rewrite handleGenerateClick_uploaded in * by done.
    split; simpl; [apply initialImages_wf| |done|done].
    intros e. rewrite !elem_of_cons, elem_of_nil. intros [?|[?|?]]; done.
  - intros Hstep.
    assert (exists s', step e (app w) = Some s' /\ w' = {| app := s'; leftover := leftover w |}
                       /\ (cards_shown (app w) = true)) as (s' & Hs' & -> & Hshown).
    { destruct (cards_shown (app w)) eqn:Hshown.
      - destruct e; destruct (step _ (app w)) as [s'|] eqn:Hs'; simpl in Hstep; try done;
          injection Hstep as <-; by exists s'.
      - exfalso. destruct (sound_quiet w HS Hshown) as (Hregs & Hnone & _).
        destruct e as [i ai|pimp|pimp ai]; [| done |].
        + simpl in Hstep. destruct (workers (app w) !! i) as [[pimp| |]|] eqn:Hi; try done.
          by apply awaited_nil_lookup with (i := i) (pimp := pimp) in Hnone.
        + simpl in Hstep. rewrite Hregs in Hstep.
          rewrite bool_decide_eq_false_2 in Hstep; [done|]. apply not_elem_of_nil. }
    pose proof (sound_running w HS Hshown) as HR.
    assert (Running s') as HR'.
    { destruct e as [i ai|pimp|pimp ai].
      - by eapply Running_worker_settles.
      - injection Hs' as <-. by apply Running_shake.
      - by eapply Running_regeneration_settles. }
    split; simpl.
    + destruct e as [i ai|pimp|pimp ai].
      * destruct (worker_settles _ _ i ai (run_truthy _ HR) Hs')
          as (pimp & v & w0 & rest & _ & _ & Hwf & _ & _ & -> & _).
        apply Forall_set_key; [done|apply HS].
      * injection Hs' as <-. unfold handleRegeneratePimp.
        destruct (no_image _); [apply HS|]. case_bool_decide; [apply HS|]. simpl.
        apply Forall_set_key; [done|apply HS].
      * destruct (step_regeneration_settles _ _ pimp ai Hs') as (v & _ & _ & Hwf & ->).
        simpl. apply Forall_set_key; [done|apply HS].
    + destruct e as [i ai|pimp|pimp ai].
      * destruct (worker_settles _ _ i ai (run_truthy _ HR) Hs')
          as (pimp & v & w0 & rest & _ & _ & _ & Hq & _ & _ & _ & -> & _).
        intros e [He|He]%elem_of_insert_inv.
        -- destruct Hq as [(_ & -> & _)|(_ & q & ->)]; done.
        -- by apply (sound_no_reject w HS e).
      * injection Hs' as <-. unfold handleRegeneratePimp.
        destruct (no_image _); [apply HS|]. case_bool_decide; apply HS.
      * destruct (step_regeneration_settles _ _ pimp ai Hs') as (v & _ & _ & _ & ->).
        apply HS.
    + intros Hno. by rewrite (Running_cards_shown _ HR') in Hno.
    + done.
  - destruct (leftover w !! k) as [[pimp image]|]; [|done].
    destruct (recorded_value (snd (generatePimpImage ai image pimp)) pimp
                (generatedImages (app w))) as (v & -> & Hst & Hwf).
    intros [= <-]. split; simpl.
    + apply Forall_set_key; [done|apply HS].
    + apply HS.
    + apply HS.
    + intros Hshown. apply Running_write; [by apply HS|done|tauto].
Qed.

Lemma Sound_run (trace : list ui_event) (w w' : World) :
  Sound w -> ui_run trace w = Some w' -> Sound w'.
Proof.
  revert w. induction trace as [|e trace IH]; intros w HS Hrun; simpl in Hrun.
  - by injection Hrun as <-.
  - destruct (ui_step e w) as [w1|] eqn:Hstep; [|done].
    eapply IH; [|done]. by eapply Sound_step.
Qed.





Lemma Running_progress (s : App) :
  Running s -> (forall e, Rejected e ∉ workers s) -> appState s = generating ->
  exists i pimp,
    workers s !! i = Some (Awaiting pimp)
    /\ forall ai, is_Some (step (WorkerSettles i ai) s).
Proof.
  intros HR Hrej Hgen.
  assert (exists i pimp, workers s !! i = Some (Awaiting pimp)) as (i & pimp & Hi).
  { pose proof (run_ui s HR) as Hui.
    destruct (all_fulfilled (workers s)) eqn:Hall; [destruct Hui; congruence|].
    assert (exists w, w ∈ workers s /\ w <> Fulfilled) as (w & Hw & Hne).
    { clear -Hall. induction (workers s) as [|w ws IH]; simpl in *; [done|].
      destruct w as [p| |e].
      - exists (Awaiting p). split; [by left|done].
      - destruct (IH Hall) as (w & Hw & Hne). exists w. split; [by right|done].
      - exists (Rejected e). split; [by left|done]. }
    apply list_elem_of_lookup in Hw as [i Hi].
    destruct w as [p| |e]; [by exists i, p|done|].
    exfalso. apply (Hrej e). by eapply list_elem_of_lookup_2. }
  exists i, pimp. split; [done|]. intros ai. unfold step. rewrite Hi.
  destruct (run_image s HR) as (image & -> & _).
  unfold processPimp.
  destruct (record_outcome_recorded (snd (generatePimpImage ai image pimp)) pimp
              (generatedImages s)) as (v & -> & _).
  destruct (worker_loop (pimpQueue s)). by eexists.
Qed.

(** A settlement of a worker's call in a state in which nothing is
    awaited is impossible; so a worker settles only while the cards are
    shown. *)
Lemma settles_while_running (w : World) (i : nat) (ai : remote) (s' : App) :
  Sound w -> step (WorkerSettles i ai) (app w) = Some s' -> Running (app w).
Proof.
  intros HS Hstep. apply (sound_running w HS).
  destruct (cards_shown (app w)) eqn:Hshown; [done|exfalso].
  destruct (sound_quiet w HS Hshown) as (_ & Hnone & _).
  simpl in Hstep. destruct (workers (app w) !! i) as [[pimp| |]|] eqn:Hi; try done.
  by apply awaited_nil_lookup with (i := i) (pimp := pimp) in Hnone.
Qed.



Lemma Running_shown (s : App) :
  Running s -> appState s = results_shown ->
  pimpQueue s = [] /\ awaited (workers s) = [].
Proof.
  intros HR Hshown. pose proof (run_ui s HR) as Hui.
  destruct (all_fulfilled (workers s)) eqn:Hall; [|destruct Hui; congruence].
  split; [|by apply all_fulfilled_awaited].
  apply (run_drained s HR).
  pose proof (run_workers s HR) as Hlen. rewrite all_fulfilled_spec in Hall.
  destruct (workers s) as [|w0 ws]; [done|].
  rewrite <- (Hall w0) at 1 by (by left). by left.
Qed.

Lemma none_awaited_all_fulfilled (ws : list Worker) :
  awaited ws = [] -> (forall e, Rejected e ∉ ws) -> all_fulfilled ws = true.
Proof.
  intros Hnone Hrej. apply all_fulfilled_spec. intros w Hw.
  destruct w as [pimp| |e]; [|done|by apply Hrej in Hw].
  apply list_elem_of_lookup in Hw as [i Hi].
  by apply awaited_nil_lookup with (i := i) (pimp := pimp) in Hnone.
Qed.

(** ** The run *)




(** ** The pool *)

(** C7, as the specification states it, fails: the regenerations that the
    user asks for run beside the pool.  With the three items that are done
    shaken while the two workers await the others, five calls of
    [generatePimpImage] are outstanding during the run. *)
Lemma five_calls_outstanding : ~ at_most_two_calls_outstanding.
Proof.
  intros H.
  pose proof (H sample_image sample_busy_run sample_busy eq_refl eq_refl eq_refl) as Hle.
  vm_compute in Hle. lia.
Qed.

(** C7, amended.  Take the application at any moment, as in C1.  At most
    [concurrencyLimit] = 2 items are being processed by the workers of the
    pool.  While the cards are shown, the names awaited by the workers are
    pairwise distinct, the names handed to [processPimp] so far are pairwise
    distinct and are, in order, the archetypes that have left the queue, and
    the run is over exactly when the queue is empty and no worker awaits a
    call, every archetype then having been dispatched, once.  While the run
    goes on, some worker awaits a call and goes on whatever its outcome; and
    a worker whose call settles takes the head of the queue, which is handed
    to [processPimp] at once, or finishes when the queue is empty. *)
Theorem pool_dispatches_each_name_once (trace : list ui_event) (w : World) :
  ui_run trace fresh = Some w ->
  (length (awaited (workers (app w))) <= concurrencyLimit)%nat
  /\ concurrencyLimit = 2%nat
  /\ (cards_shown (app w) = true ->
      NoDup (awaited (workers (app w)))
      /\ NoDup (List.map snd (dispatched (app w)))
      /\ List.map snd (dispatched (app w)) ++ pimpQueue (app w) = PIMP_ARCHETYPES
      /\ (forall pimp, pimp ∈ awaited (workers (app w)) ->
                       pimp ∈ List.map snd (dispatched (app w)))
      /\ (appState (app w) = results_shown
          <-> pimpQueue (app w) = [] /\ awaited (workers (app w)) = [])
      /\ (appState (app w) = results_shown ->
          List.map snd (dispatched (app w)) = PIMP_ARCHETYPES))
  /\ (appState (app w) = generating ->
      exists i pimp, workers (app w) !! i = Some (Awaiting pimp)
                     /\ forall ai, is_Some (step (WorkerSettles i ai) (app w)))
  /\ (forall i ai s',
        step (WorkerSettles i ai) (app w) = Some s' ->
        exists pimp,
          workers (app w) !! i = Some (Awaiting pimp)
          /\ match pimpQueue (app w) with
             | [] =>
                 pimpQueue s' = []
                 /\ workers s' = <[i:=Fulfilled]> (workers (app w))
                 /\ dispatched s' = dispatched (app w)
             | next :: rest =>
                 pimpQueue s' = rest
                 /\ workers s' = <[i:=Awaiting next]> (workers (app w))
                 /\ dispatched s' = dispatched (app w) ++ [(i, next)]
             end).
Proof.
  intros Hrun. pose proof (Sound_run _ _ _ Sound_fresh Hrun) as HS.
  split; [|split; [done|split; [|split]]].
  - destruct (cards_shown (app w)) eqn:Hshown.
    + rewrite <- (run_workers _ (sound_running w HS Hshown)). apply length_awaited.
    + destruct (sound_quiet w HS Hshown) as (_ & -> & _). simpl. lia.
  - intros Hshown. pose proof (sound_running w HS Hshown) as HR.
    assert (NoDup PIMP_ARCHETYPES) as Hnd by by_evaluation.
    split; [|split; [|split; [apply HR|split; [apply HR|split]]]].
    + pose proof (run_nodup _ HR) as H. by apply NoDup_app in H as (_ & _ & ?).
    + rewrite <- (run_log _ HR) in Hnd. by apply NoDup_app in Hnd as [? _].
    + split; [by apply Running_shown|]. intros [Hqueue Hnone].
      pose proof (run_ui _ HR) as Hui.
      rewrite (none_awaited_all_fulfilled _ Hnone (sound_no_reject w HS)) in Hui.
      by destruct Hui.
    + intros Hend. destruct (Running_shown _ HR Hend) as [Hqueue _].
      rewrite <- (run_log _ HR). by rewrite Hqueue, app_nil_r.
  - intros Hgen. apply Running_progress; [|apply HS|done].
    apply (sound_running w HS). unfold cards_shown. by rewrite Hgen.
  - intros i ai s' Hstep.
    pose proof (settles_while_running w i ai s' HS Hstep) as HR.
    destruct (worker_settles _ _ i ai (run_truthy _ HR) Hstep)
      as (pimp & v & w0 & rest & Hw & _ & _ & Hq & _ & _ & E3 & E4 & _ & E6 & _).
    exists pimp. split; [done|].
    destruct Hq as [(-> & -> & ->)|(-> & q & ->)]; simpl; by rewrite E3, E4, E6.
Qed.

Lemma pool_dispatches_each_name_once_witness :
  (length (awaited (workers (app sample_begun))) <= concurrencyLimit)%nat
  /\ concurrencyLimit = 2%nat
  /\ (cards_shown (app sample_begun) = true ->
      NoDup (awaited (workers (app sample_begun)))
      /\ NoDup (List.map snd (dispatched (app sample_begun)))
      /\ List.map snd (dispatched (app sample_begun)) ++ pimpQueue (app sample_begun)
         = PIMP_ARCHETYPES
      /\ (forall pimp, pimp ∈ awaited (workers (app sample_begun)) ->
                       pimp ∈ List.map snd (dispatched (app sample_begun)))
      /\ (appState (app sample_begun) = results_shown
          <-> pimpQueue (app sample_begun) = [] /\ awaited (workers (app sample_begun)) = [])
      /\ (appState (app sample_begun) = results_shown ->
          List.map snd (dispatched (app sample_begun)) = PIMP_ARCHETYPES))
  /\ (appState (app sample_begun) = generating ->
      exists i pimp, workers (app sample_begun) !! i = Some (Awaiting pimp)
                     /\ forall ai, is_Some (step (WorkerSettles i ai) (app sample_begun)))
  /\ (forall i ai s',
        step (WorkerSettles i ai) (app sample_begun) = Some s' ->
        exists pimp,
          workers (app sample_begun) !! i = Some (Awaiting pimp)
          /\ match pimpQueue (app sample_begun) with
             | [] =>
                 pimpQueue s' = []
                 /\ workers s' = <[i:=Fulfilled]> (workers (app sample_begun))
                 /\ dispatched s' = dispatched (app sample_begun)
             | next :: rest =>
                 pimpQueue s' = rest
                 /\ workers s' = <[i:=Awaiting next]> (workers (app sample_begun))
                 /\ dispatched s' = dispatched (app sample_begun) ++ [(i, next)]
             end).
Proof.
  apply (pool_dispatches_each_name_once sample_beginning sample_begun).
  vm_compute. reflexivity.
Defined.

(** ** The lifecycle of an item *)


(** What C6 leaves out: [handleReset] cancels nothing.  With a
    regeneration of the first item outstanding when the user starts over,
    the second run has two calls outstanding for that item; when the older
    one settles, the item is [Done] while a worker still awaits it. *)
Lemma second_session_has_two_attempts_for_one_item :
  ui_run two_sessions fresh = Some sample_second_session
  /\ cards_shown (app sample_second_session) = true
  /\ ~ NoDup (outstanding sample_second_session)
  /\ exists w',
       ui_step (LeftoverSettles 0 answers_image) sample_second_session = Some w'
       /\ "Kiez-König" ∈ awaited (workers (app w'))
       /\ status_of (generatedImages (app w')) "Kiez-König" = Some Done.
Proof.
  split; [by vm_compute|]. split; [done|]. split.
  - intros Hnd. revert Hnd. apply (bool_decide_eq_false_1 _). by vm_compute.
  - eexists. split; [by vm_compute|]. split; [by_evaluation|done].
Qed.



(** ** The lookbook is refused unless every item is done *)

Lemma length_set_key {A : Type} (o : list (string * A)) (k : string) (v : A) :
  (length (set_key o k v) <= S (length o))%nat.
Proof.
  induction o as [|[k0 v0] o IH]; simpl; [done|].
  destruct (String.eqb k0 k); simpl; lia.
Qed.

(** [imageData] has at most one entry for each entry that passes the
    filter. *)
Lemma length_imageData_fold (entries : Store) (acc : list (string * string)) :
  (length (fold_left collect entries acc) <= length acc + length entries)%nat.
Proof.
  revert acc. induction entries as [|[k g] entries IH]; intros acc; simpl; [lia|].
  etransitivity; [apply IH|].
  destruct (url g) as [u|]; [|lia]. pose proof (length_set_key acc k u). lia.
Qed.

Lemma done_entries_miss (generatedImages : Store) (pimp : string) :
  NoDup (List.map fst generatedImages) ->
  status_of generatedImages pimp <> Some Done ->
  pimp ∉ List.map fst (List.filter has_result generatedImages).
Proof.
  intros Hnd Hst Hin.
  apply list_elem_of_fmap in Hin as ([k g] & -> & Hin). simpl in *.
  apply list_elem_of_In, filter_In in Hin as [Hin Hdone].
  apply andb_true_iff in Hdone as [Hdone _]. apply bool_decide_eq_true in Hdone.
  apply list_elem_of_In in Hin.
  apply Hst. unfold status_of. rewrite (elem_own_property _ _ _ Hnd Hin). simpl.
  by rewrite Hdone.
Qed.

Lemma NoDup_keys_filter {A : Type} (f : string * A -> bool) (o : list (string * A)) :
  NoDup (List.map fst o) -> NoDup (List.map fst (List.filter f o)).
Proof.
  induction o as [|[k v] o IH]; simpl; intros Hnd; [constructor|].
  apply NoDup_cons in Hnd as [Hfresh Hnd].
  destruct (f (k, v)); simpl; [|by apply IH].
  apply NoDup_cons. split; [|by apply IH].
  intros Hin. apply Hfresh.
  apply list_elem_of_fmap in Hin as (kv & -> & Hin).
  apply list_elem_of_In, filter_In in Hin as [Hin _].
  apply list_elem_of_fmap. exists kv. split; [done|by apply list_elem_of_In].
Qed.

(** On a store whose keys are archetypes, an archetype that is not [Done]
    keeps the count below the number of archetypes. *)
Lemma handleDownloadLookbook_refuses (b : Browser) (s : App) (pimp : string) :
  NoDup (List.map fst (generatedImages s)) ->
  (forall k, k ∈ List.map fst (generatedImages s) -> k ∈ PIMP_ARCHETYPES) ->
  pimp ∈ PIMP_ARCHETYPES ->
  status_of (generatedImages s) pimp <> Some Done ->
  handleDownloadLookbook b s = Refused.
Proof.
  intros Hnd Hkeys Hpimp Hst. unfold handleDownloadLookbook.
  set (entries := List.filter has_result (generatedImages s)).
  assert (length (imageData_of (generatedImages s)) <= length entries)%nat as Hlen.
  { apply (length_imageData_fold entries []). }
  assert (S (length entries) <= length PIMP_ARCHETYPES)%nat as Hfew.
  { rewrite <- (length_map fst entries).
    change (S (length (List.map fst entries)))
      with (length (pimp :: List.map fst entries)).
    apply submseteq_length, NoDup_submseteq.
    - apply NoDup_cons. split.
      + by apply done_entries_miss.
      + by apply NoDup_keys_filter.
    - intros k [->|Hk]%elem_of_cons; [done|]. apply Hkeys.
      apply list_elem_of_fmap in Hk as (kv & -> & Hin).
      apply list_elem_of_In, filter_In in Hin as [Hin _].
      apply list_elem_of_fmap. exists kv. split; [done|by apply list_elem_of_In]. }
  destruct (Nat.ltb_spec (length (imageData_of (generatedImages s)))
                         (length PIMP_ARCHETYPES)) as [_|Hge]; [done|lia].
Qed.

(** The keys of the store are archetypes, as long as the cards that are
    shaken are those of archetypes. *)
Lemma keys_are_archetypes (trace : list event) (s s' : App) :
  Inv s ->
  (forall k, k ∈ List.map fst (generatedImages s) -> k ∈ PIMP_ARCHETYPES) ->
  Forall shakes_a_card trace ->
  exec trace s = Some s' ->
  forall k, k ∈ List.map fst (generatedImages s') -> k ∈ PIMP_ARCHETYPES.
Proof.
  revert s. induction trace as [|e trace IH]; intros s HI Hkeys Hcards Hexec;
    simpl in Hexec.
  - by injection Hexec as <-.
  - destruct (step e s) as [s1|] eqn:Hstep; [|done].
    inversion Hcards as [|? ? He Hcards']; subst.
    apply (IH s1); [by eapply Inv_step| |done|done].
    assert (forall pimp v, pimp ∈ PIMP_ARCHETYPES ->
              forall k, k ∈ List.map fst (set_key (generatedImages s) pimp v) ->
                        k ∈ PIMP_ARCHETYPES) as Hset.
    { intros pimp v Hpimp k. rewrite keys_set_key. case_bool_decide; [apply Hkeys|].
      intros [Hk| ->%list_elem_of_singleton]%elem_of_app; [by apply Hkeys|done]. }
    assert (forall pimp, status_of (generatedImages s) pimp = Some Pending ->
                         pimp ∈ PIMP_ARCHETYPES) as Hpending.
    { intros pimp Hst. apply Hkeys. unfold status_of in Hst.
      destruct (own_property (generatedImages s) pimp) as [g|] eqn:Hg; [|done].
      apply own_property_elem in Hg. apply list_elem_of_fmap. by exists (pimp, g). }
    destruct e as [i ai|pimp|pimp ai].
    + destruct (step_worker_settles s s1 i ai HI Hstep)
        as (pimp & v & w & rest & Hw & _ & _ & _ & _ & -> & _).
      apply Hset, Hpending, HI. unfold in_flight. rewrite !elem_of_app. right. left.
      destruct (awaited_settle _ _ _ Hw) as (before & after & -> & _).
      rewrite elem_of_app, elem_of_cons. tauto.
    + injection Hstep as <-. unfold handleRegeneratePimp.
      destruct (no_image (uploadedImage s)); [done|]. case_bool_decide; [done|].
      by apply Hset.
    + destruct (step_regeneration_settles s s1 pimp ai Hstep) as (v & Hin & _ & _ & ->).
      apply Hset, Hpending, HI. unfold in_flight. rewrite !elem_of_app. tauto.
Qed.

(** C5. In every state that the application reaches from a click on
    "generate", if some archetype is not [Done] then
    [handleDownloadLookbook] refuses: it raises the alert and returns
    without calling [createLookbookPage], so nothing is composed. *)
Theorem lookbook_refused_unless_all_done
    (b : Browser) (imageDataUrl : string) (trace : list event) (s : App) (pimp : string) :
  truthy imageDataUrl = true ->
  Forall shakes_a_card trace ->
  exec trace (handleGenerateClick (uploaded imageDataUrl)) = Some s ->
  pimp ∈ PIMP_ARCHETYPES ->
  status_of (generatedImages s) pimp <> Some Done ->
  handleDownloadLookbook b s = Refused.
Proof.
  intros Himage Hcards Hexec Hpimp Hst.
  pose proof (Inv_handleGenerateClick imageDataUrl Himage) as HI0.
  pose proof (Inv_exec _ _ _ HI0 Hexec) as HI.
  apply (handleDownloadLookbook_refuses b s pimp); [apply HI| |done|done].
  apply (keys_are_archetypes trace _ s HI0); [|done|done].
  rewrite handleGenerateClick_uploaded by done. simpl.
  apply Forall_forall. by_evaluation.
Qed.

Lemma lookbook_refused_unless_all_done_witness :
  handleDownloadLookbook sample_browser sample_final = Refused.
Proof.
  apply (lookbook_refused_unless_all_done sample_browser sample_image sample_run
           sample_final "Gold-Zahn Günther").
  - reflexivity.
  - repeat constructor.
  - vm_compute. reflexivity.
  - by_evaluation.
  - vm_compute. discriminate.
Defined.

(** ** The layout of the lookbook *)

Open Scope R_scope.

Lemma Rabs_le_inv (a b : R) : Rabs a <= b -> - b <= a <= b.
Proof. unfold Rabs. destruct (Rcase_abs a); lra. Qed.

Lemma product_between (a b A B : R) :
  0 < B -> - A < a < A -> - B <= b <= B -> - (A * B) < a * b < A * B.
Proof.
  intros HB Ha Hb.
  assert (Rabs (a * b) < A * B) as H.
  { rewrite Rabs_mult.
    apply Rle_lt_trans with (Rabs a * B).
    - apply Rmult_le_compat_l; [apply Rabs_pos|by apply Rabs_le].
    - apply Rmult_lt_compat_r; [done|]. apply Rabs_def1; lra. }
  apply Rabs_def2 in H. lra.
Qed.

Lemma Rabs_sin_small (theta : R) :
  Rabs theta <= 3 / 40 -> Rabs (sin theta) <= 3 / 40.
Proof.
  assert (forall t, 0 <= t <= 3 / 40 -> 0 <= sin t <= 3 / 40) as Hpos.
  { intros t [H0 H1]. destruct (Req_dec t 0) as [->|Hne].
    - rewrite sin_0. lra.
    - split.
      + apply Rlt_le, sin_gt_0; [lra|]. pose proof PI2_1. lra.
      + pose proof (sin_lt_x t). lra. }
  intros H. apply Rabs_le_inv in H. apply Rabs_le.
  destruct (Rle_dec 0 theta) as [Hge|Hlt].
  - specialize (Hpos theta). lra.
  - specialize (Hpos (- theta)). rewrite sin_neg in Hpos. lra.
Qed.

(** A point inside a frame that is turned by at most 0.075 rad is within
    these distances of its centre, along each axis of the canvas. *)
Lemma inside_extent (p : Panel) (px py : R) :
  Rabs (Q2R (rotation p)) <= 3 / 40 ->
  inside p px py ->
  Rabs (px - (Q2R (x p) + Q2R (photoWidth p) / 2))
    < Q2R (photoWidth p) / 2 + Q2R (photoHeight p) / 2 * (3 / 40)
  /\ Rabs (py - (Q2R (y p) + Q2R (photoHeight p) / 2))
    < Q2R (photoHeight p) / 2 + Q2R (photoWidth p) / 2 * (3 / 40).
Proof.
  unfold inside. intros Hrot [Hu Hv].
  set (dx := px - _) in *. set (dy := py - _) in *.
  set (w := Q2R (photoWidth p) / 2) in *. set (h := Q2R (photoHeight p) / 2) in *.
  apply Rabs_sin_small in Hrot.
  set (c := cos (Q2R (rotation p))) in *. set (sn := sin (Q2R (rotation p))) in *.
  assert (c * c + sn * sn = 1) as Hone.
  { unfold c, sn. pose proof (sin2_cos2 (Q2R (rotation p))) as H.
    unfold Rsqr in H. lra. }
  assert (-1 <= c <= 1) as Hc by apply COS_bound.
  apply Rabs_le_inv in Hrot.
  apply Rabs_def2 in Hu. apply Rabs_def2 in Hv.
  assert (dx = (dx * c + dy * sn) * c - (dy * c - dx * sn) * sn) as Hdx.
  { transitivity (dx * (c * c + sn * sn)); [rewrite Hone|]; ring. }
  assert (dy = (dx * c + dy * sn) * sn + (dy * c - dx * sn) * c) as Hdy.
  { transitivity (dy * (c * c + sn * sn)); [rewrite Hone|]; ring. }
  set (u := dx * c + dy * sn) in *. set (v := dy * c - dx * sn) in *.
  assert (- w < u < w) as Hu' by lra. assert (- h < v < h) as Hv' by lra.
  clear Hu Hv. rename Hu' into Hu. rename Hv' into Hv.
  pose proof (product_between u c w 1 ltac:(lra) Hu Hc).
  pose proof (product_between v sn h (3 / 40) ltac:(lra) Hv Hrot).
  pose proof (product_between u sn w (3 / 40) ltac:(lra) Hu Hrot).
  pose proof (product_between v c h 1 ltac:(lra) Hv Hc).
  split; apply Rabs_def1; lra.
Qed.

Lemma Q2R_inject_Z (z : Z) : Q2R (inject_Z z) = IZR z.
Proof. unfold Q2R, inject_Z. simpl. field. Qed.

Lemma place_frame_at (b : Browser) (index : N) (figure : string) (img : Image) :
  let p := place b 2480 3508 550 index figure img in
  frame_at p (row p) (col p).
Proof.
  intros p. unfold frame_at.
  assert (x p == (309 # 2) + 1190 * inject_Z (col p))%Q as Hx.
  { unfold p, place, cellWidth, grid_cols, grid_padding. simpl. field. }
  assert (y p == 650 + (2858 # 3) * inject_Z (row p))%Q as Hy.
  { unfold p, place, cellHeight, grid_rows, grid_padding. simpl. field. }
  assert (photoWidth p == 981)%Q as Hw by reflexivity.
  assert (photoHeight p == 4905 # 4)%Q as Hh by reflexivity.
  rewrite (Qeq_eqR _ _ Hx), (Qeq_eqR _ _ Hy), (Qeq_eqR _ _ Hw), (Qeq_eqR _ _ Hh).
  rewrite !Q2R_plus, !Q2R_mult, !Q2R_inject_Z.
  unfold Q2R. simpl. repeat split; lra.
Qed.

Lemma place_rotation (b : Browser) (index : N) (figure : string) (img : Image) :
  (forall n, 0 <= random b n /\ random b n < 1)%Q ->
  Rabs (Q2R (rotation (place b 2480 3508 550 index figure img))) <= 3 / 40.
Proof.
  intros Hrandom. destruct (Hrandom (texture_draws + index)%N) as [H0 H1].
  apply Qle_Rle in H0. apply Qlt_Rlt in H1.
  unfold place. simpl rotation.
  rewrite Q2R_mult, Q2R_minus.
  replace (Q2R 0) with 0 in H0 by (unfold Q2R; simpl; lra).
  replace (Q2R 1) with 1 in H1 by (unfold Q2R; simpl; lra).
  replace (Q2R (1 # 2)) with (1 / 2) by (unfold Q2R; simpl; lra).
  replace (Q2R (15 # 100)) with (15 / 100) by (unfold Q2R; simpl; lra).
  apply Rabs_le. lra.
Qed.

(** Two frames in different columns have no point in common. *)
Lemma different_columns_disjoint (p q : Panel) (rp cp rq cq : Z) :
  frame_at p rp cp -> frame_at q rq cq ->
  Rabs (Q2R (rotation p)) <= 3 / 40 -> Rabs (Q2R (rotation q)) <= 3 / 40 ->
  cp <> cq ->
  ~ overlap p q.
Proof.
  intros (Hxp & Hyp & Hwp & Hhp) (Hxq & Hyq & Hwq & Hhq) Hrp Hrq Hne (px & py & Hp & Hq).
  apply inside_extent in Hp as [Hp _]; [|done].
  apply inside_extent in Hq as [Hq _]; [|done].
  rewrite Hxp, Hwp, Hhp in Hp. rewrite Hxq, Hwq, Hhq in Hq.
  apply Rabs_def2 in Hp. apply Rabs_def2 in Hq.
  assert (cp + 1 <= cq \/ cq + 1 <= cp)%Z as [Hlt|Hlt] by lia;
    apply IZR_le in Hlt; rewrite plus_IZR in Hlt; lra.
Qed.

(** Nor have two frames that are two rows or more apart. *)
Lemma rows_apart_disjoint (p q : Panel) (rp cp rq cq : Z) :
  frame_at p rp cp -> frame_at q rq cq ->
  Rabs (Q2R (rotation p)) <= 3 / 40 -> Rabs (Q2R (rotation q)) <= 3 / 40 ->
  (rp + 2 <= rq \/ rq + 2 <= rp)%Z ->
  ~ overlap p q.
Proof.
  intros (Hxp & Hyp & Hwp & Hhp) (Hxq & Hyq & Hwq & Hhq) Hrp Hrq Hfar (px & py & Hp & Hq).
  apply inside_extent in Hp as [_ Hp]; [|done].
  apply inside_extent in Hq as [_ Hq]; [|done].
  rewrite Hyp, Hwp, Hhp in Hp. rewrite Hyq, Hwq, Hhq in Hq.
  apply Rabs_def2 in Hp. apply Rabs_def2 in Hq.
  destruct Hfar as [Hlt|Hlt];
    apply IZR_le in Hlt; rewrite plus_IZR in Hlt; lra.
Qed.

(** Two frames of the same column in consecutive rows always have a point
    in common, however they are turned: the point half way between their
    centres. *)
Lemma vertical_neighbours_overlap (p q : Panel) (r c : Z) :
  frame_at p r c -> frame_at q (r + 1) c -> overlap p q.
Proof.
  intros (Hxp & Hyp & Hwp & Hhp) (Hxq & Hyq & Hwq & Hhq).
  exists (Q2R (x p) + Q2R (photoWidth p) / 2),
         (Q2R (y p) + Q2R (photoHeight p) / 2 + 1429 / 3).
  assert (forall theta d, Rabs d < 981 / 2 ->
            Rabs (0 * cos theta + d * sin theta) < 981 / 2
            /\ Rabs (d * cos theta - 0 * sin theta) < 4905 / 4 / 2) as Hturn.
  { intros theta d Hd. apply Rabs_def2 in Hd.
    pose proof (product_between d (sin theta) (981 / 2) 1 ltac:(lra) ltac:(lra)
                  (SIN_bound theta)).
    pose proof (product_between d (cos theta) (981 / 2) 1 ltac:(lra) ltac:(lra)
                  (COS_bound theta)).
    split; apply Rabs_def1; lra. }
  split; unfold inside; cbv zeta.
  - rewrite Hwp, Hhp.
    replace (Q2R (x p) + 981 / 2 - (Q2R (x p) + 981 / 2)) with 0 by ring.
    replace (Q2R (y p) + 4905 / 4 / 2 + 1429 / 3 - (Q2R (y p) + 4905 / 4 / 2))
      with (1429 / 3) by ring.
    apply Hturn. apply Rabs_def1; lra.
  - rewrite Hwp, Hhp, Hwq, Hhq, Hxq, Hyq, Hxp, Hyp. rewrite plus_IZR.
    replace (309 / 2 + 1190 * IZR c + 981 / 2 - (309 / 2 + 1190 * IZR c + 981 / 2))
      with 0 by ring.
    replace (650 + 2858 / 3 * IZR r + 4905 / 4 / 2 + 1429 / 3
             - (650 + 2858 / 3 * (IZR r + 1) + 4905 / 4 / 2))
      with (- (1429 / 3)) by field.
    apply Hturn. apply Rabs_def1; lra.
Qed.

Close Scope R_scope.

Lemma loadAll_loads (b : Browser) (urls : list string) :
  (forall u, u ∈ urls -> is_Some (load b u)) ->
  exists loadedImages,
    loadAll b urls = Normal loadedImages /\ length loadedImages = length urls.
Proof.
  induction urls as [|u urls IH]; intros Hload; simpl; [by exists []|].
  unfold loadImage. destruct (Hload u) as [i ->]; [by left|].
  destruct IH as (imgs & -> & Hlen); [intros u' Hu'; apply Hload; by right|].
  exists (i :: imgs). simpl. by rewrite Hlen.
Qed.

Lemma combine_figures {A B : Type} (figures : list A) (loadedImages : list B) :
  length loadedImages = length figures ->
  List.map fst (combine figures loadedImages) = figures.
Proof.
  revert loadedImages. induction figures as [|f figures IH]; intros [|i imgs] Hlen;
    simpl in *; try done.
  f_equal. apply IH. lia.
Qed.

Lemma place_all_figures (b : Browser) (W H T : Q) (start : N) (l : list (string * Image)) :
  List.map figure (place_all b W H T start l) = List.map fst l.
Proof.
  revert start. induction l as [|[f im] l IH]; intros start; simpl; [done|].
  by rewrite IH.
Qed.

Lemma place_all_lookup (b : Browser) (W H T : Q) (start : N) (l : list (string * Image))
    (i : nat) (p : Panel) :
  place_all b W H T start l !! i = Some p ->
  exists f im, l !! i = Some (f, im) /\ p = place b W H T (start + N.of_nat i) f im.
Proof.
  revert start i. induction l as [|[f im] l IH]; intros start i Hp; simpl in Hp; [done|].
  destruct i as [|i]; simpl in *.
  - injection Hp as <-. exists f, im. split; [done|]. by rewrite N.add_0_r.
  - destruct (IH _ _ Hp) as (f' & im' & Hl & ->). exists f', im'. split; [done|].
    f_equal. lia.
Qed.

(** What [createLookbookPage] lays out when the canvas has a context and
    every image loads. *)
Lemma createLookbookPage_panels (b : Browser) (imageData : list (string * string)) :
  has_context b = true ->
  (forall u, u ∈ List.map snd imageData -> is_Some (load b u)) ->
  exists page,
    createLookbookPage b imageData = Normal page
    /\ List.map figure (panels page) = List.map fst imageData
    /\ forall i p, panels page !! i = Some p ->
         exists f im, p = place b 2480 3508 550 (N.of_nat i) f im.
Proof.
  intros Hctx Hload. unfold createLookbookPage. rewrite Hctx.
  destruct (loadAll_loads b _ Hload) as (imgs & -> & Hlen).
  eexists. split; [done|]. simpl. split.
  - rewrite place_all_figures. apply combine_figures.
    by rewrite Hlen, !length_map.
  - intros i p Hp. apply place_all_lookup in Hp as (f & im & _ & ->).
    by exists f, im.
Qed.

(** With three images, the first and the third frame stand in the same
    column, 952.67 apart, and are 1226.25 high, so they overlap. *)
Lemma three_panels_overlap :
  exists page,
    createLookbookPage sample_browser sample_three = Normal page
    /\ ~ no_two_panels_overlap page.
Proof.
  eexists. split; [reflexivity|].
  intros Hno. cbn [panels] in Hno.
  set (im := {| naturalWidth := 1024; naturalHeight := 1024 |}).
  apply (Hno 0%nat 2%nat
           (place sample_browser 2480 3508 550 0 "Kiez-König" im)
           (place sample_browser 2480 3508 550 2 "Gold-Zahn Günther" im));
    [done|reflexivity|reflexivity|].
  apply (vertical_neighbours_overlap _ _ 0 0).
  - apply (place_frame_at sample_browser 0 "Kiez-König" im).
  - apply (place_frame_at sample_browser 2 "Gold-Zahn Günther" im).
Qed.

(** What the layout does achieve.  For a non-empty mapping of at most six
    named images, on a canvas that has a context and with images that load,
    [createLookbookPage] lays out one panel for each image, in the order of
    the mapping, captioned with its name; panel number [i] stands in row
    [i / 2] and column [i mod 2] of a grid of three rows and two columns,
    its frame 981 by 1226.25, its left edge at [100 (col + 1) + 1090 col +
    54.5], its top at [550 + 100 (row + 1) + cellHeight row], turned by at
    most 0.075 rad; and two panels do not overlap unless one stands right
    below the other. *)
Lemma lookbook_layout (b : Browser) (imageData : list (string * string)) :
  has_context b = true ->
  (forall u, u ∈ List.map snd imageData -> is_Some (load b u)) ->
  (forall n, 0 <= random b n /\ random b n < 1)%Q ->
  imageData <> [] ->
  (length imageData <= 6)%nat ->
  exists page,
    createLookbookPage b imageData = Normal page
    /\ length (panels page) = length imageData
    /\ List.map figure (panels page) = List.map fst imageData
    /\ (forall i p, panels page !! i = Some p ->
          row p = (Z.of_nat i / 2)%Z /\ col p = (Z.of_nat i mod 2)%Z
          /\ (0 <= row p < grid_rows)%Z /\ (0 <= col p < grid_cols)%Z
          /\ (photoWidth p == cellWidth 2480 * (9 # 10))%Q
          /\ (photoHeight p == photoWidth p * (5 # 4))%Q
          /\ (x p == grid_padding * (inject_Z (col p) + 1)
                     + cellWidth 2480 * inject_Z (col p)
                     + (cellWidth 2480 - photoWidth p) / 2)%Q
          /\ (y p == 550 + grid_padding * (inject_Z (row p) + 1)
                     + cellHeight (3508 - 550) * inject_Z (row p))%Q
          /\ (- (3 # 40) <= rotation p /\ rotation p <= 3 # 40)%Q)
    /\ (forall i j p q,
          panels page !! i = Some p -> panels page !! j = Some q ->
          i <> j -> i <> (j + 2)%nat -> j <> (i + 2)%nat ->
          ~ overlap p q).
Proof.
  intros Hctx Hload Hrandom Hne Hlen.
  destruct (createLookbookPage_panels b imageData Hctx Hload)
    as (page & Hpage & Hfig & Hplace).
  assert (length (panels page) = length imageData) as Hcount.
  { by rewrite <- (length_map figure), Hfig, length_map. }
  exists page. split; [done|]. split; [done|]. split; [done|]. split.
  - intros i p Hp.
    assert (i < 6)%nat as Hi.
    { apply lookup_lt_Some in Hp. lia. }
    destruct (Hplace i p Hp) as (f & im & ->).
    unfold place. cbn [row col photoWidth photoHeight x y rotation].
    rewrite nat_N_Z. unfold grid_rows, grid_cols.
    split; [done|]. split; [done|].
    split; [split; [apply Z.div_pos; lia|apply Z.div_lt_upper_bound; lia]|].
    split; [apply Z.mod_pos_bound; lia|].
    split; [reflexivity|]. split; [reflexivity|]. split; [reflexivity|].
    split; [reflexivity|].
    destruct (Hrandom (texture_draws + N.of_nat i)%N) as [H0 H1].
    revert H0 H1. generalize (random b (texture_draws + N.of_nat i)%N).
    intros r H0 H1. split; Lqa.lra.
  - intros i j p q Hp Hq Hij Hi2 Hj2.
    assert (i < 6 /\ j < 6)%nat as [Hi Hj].
    { apply lookup_lt_Some in Hp. apply lookup_lt_Some in Hq. lia. }
    destruct (Hplace i p Hp) as (fp & imp & ->).
    destruct (Hplace j q Hq) as (fq & imq & ->).
    pose proof (place_frame_at b (N.of_nat i) fp imp) as Fp.
    pose proof (place_frame_at b (N.of_nat j) fq imq) as Fq.
    pose proof (place_rotation b (N.of_nat i) fp imp Hrandom) as Rp.
    pose proof (place_rotation b (N.of_nat j) fq imq Hrandom) as Rq.
    cbv zeta in Fp, Fq.
    set (p := place b 2480 3508 550 (N.of_nat i) fp imp) in *.
    set (q := place b 2480 3508 550 (N.of_nat j) fq imq) in *.
    assert (row p = Z.of_nat i / 2 /\ col p = Z.of_nat i mod 2
            /\ row q = Z.of_nat j / 2 /\ col q = Z.of_nat j mod 2)%Z
      as (Hrp & Hcp & Hrq & Hcq).
    { unfold p, q, place. cbn [row col]. rewrite !nat_N_Z. done. }
    destruct (decide (col p = col q)) as [Hcol|Hcol].
    + apply (rows_apart_disjoint p q _ _ _ _ Fp Fq Rp Rq).
      rewrite Hrp, Hrq. rewrite Hcp, Hcq in Hcol.
      clear -Hcol Hij Hi2 Hj2 Hi Hj. unfold grid_cols in *.
      Z.div_mod_to_equations. lia.
    + by apply (different_columns_disjoint p q _ _ _ _ Fp Fq Rp Rq).
Qed.

Lemma lookbook_layout_witness :
  exists page,
    createLookbookPage sample_browser sample_three = Normal page
    /\ length (panels page) = length sample_three
    /\ List.map figure (panels page) = List.map fst sample_three
    /\ (forall i p, panels page !! i = Some p ->
          row p = (Z.of_nat i / 2)%Z /\ col p = (Z.of_nat i mod 2)%Z
          /\ (0 <= row p < grid_rows)%Z /\ (0 <= col p < grid_cols)%Z
          /\ (photoWidth p == cellWidth 2480 * (9 # 10))%Q
          /\ (photoHeight p == photoWidth p * (5 # 4))%Q
          /\ (x p == grid_padding * (inject_Z (col p) + 1)
                     + cellWidth 2480 * inject_Z (col p)
                     + (cellWidth 2480 - photoWidth p) / 2)%Q
          /\ (y p == 550 + grid_padding * (inject_Z (row p) + 1)
                     + cellHeight (3508 - 550) * inject_Z (row p))%Q
          /\ (- (3 # 40) <= rotation p /\ rotation p <= 3 # 40)%Q)
    /\ (forall i j p q,
          panels page !! i = Some p -> panels page !! j = Some q ->
          i <> j -> i <> (j + 2)%nat -> j <> (i + 2)%nat ->
          ~ overlap p q).
Proof.
  apply (lookbook_layout sample_browser sample_three).
  - reflexivity.
  - intros u _. by eexists.
  - intros n. unfold Qle, Qlt. simpl. lia.
  - discriminate.
  - simpl. lia.
Defined.

(** The frames of the third row reach below the canvas, which is 3508
    high: their top is at about 2555.33 and they are 1226.25 high. *)
Lemma third_row_leaves_canvas (b : Browser) (figure : string) (img : Image) :
  let p := place b 2480 3508 550 4 figure img in
  row p = 2%Z /\ (3508 < y p + photoHeight p)%Q.
Proof. split; reflexivity. Qed.

(** ** The frames are higher than their cells *)

Open Scope R_scope.

Lemma cos_small (theta : R) : Rabs theta <= 3 / 40 -> 9 / 10 < cos theta.
Proof.
  intros H. pose proof (Rabs_sin_small theta H) as Hs.
  apply Rabs_le_inv in H. apply Rabs_le_inv in Hs.
  assert (0 < cos theta) as Hpos.
  { apply cos_gt_0; pose proof PI2_1; lra. }
  pose proof (sin2_cos2 theta) as Hone. unfold Rsqr in Hone.
  nra.
Qed.

(** A point given in the coordinates of the frame is inside the frame when
    it is within half the width and half the height of its centre. *)
Lemma to_canvas_inside (p : Panel) (lx ly : R) :
  Rabs lx < Q2R (photoWidth p) / 2 -> Rabs ly < Q2R (photoHeight p) / 2 ->
  inside p (fst (to_canvas p lx ly)) (snd (to_canvas p lx ly)).
Proof.
  intros Hx Hy. unfold inside, to_canvas. cbv zeta. cbn [fst snd].
  set (c := cos (Q2R (rotation p))). set (sn := sin (Q2R (rotation p))).
  assert (c * c + sn * sn = 1) as Hone.
  { unfold c, sn. pose proof (sin2_cos2 (Q2R (rotation p))) as H.
    unfold Rsqr in H. lra. }
  set (cx := Q2R (x p) + Q2R (photoWidth p) / 2).
  set (cy := Q2R (y p) + Q2R (photoHeight p) / 2).
  replace ((cx + lx * c - ly * sn - cx) * c + (cy + lx * sn + ly * c - cy) * sn)
    with (lx * (c * c + sn * sn)) by ring.
  replace ((cy + lx * sn + ly * c - cy) * c - (cx + lx * c - ly * sn - cx) * sn)
    with (ly * (c * c + sn * sn)) by ring.
  rewrite Hone, !Rmult_1_r. done.
Qed.

Close Scope R_scope.

Lemma createLookbookPage_Normal (b : Browser) (imageData : list (string * string))
    (page : Page) (i : nat) (p : Panel) :
  createLookbookPage b imageData = Normal page ->
  panels page !! i = Some p ->
  canvasWidth page = 2480%Q /\ canvasHeight page = 3508%Q /\ contentTopMargin page = 550%Q
  /\ exists f im, p = place b 2480 3508 550 (N.of_nat i) f im.
Proof.
  unfold createLookbookPage. destruct (has_context b); [|done].
  destruct (loadAll b (List.map snd imageData)) as [imgs|]; [|done].
  intros [= <-] Hp. simpl in *. repeat split.
  apply place_all_lookup in Hp as (f & im & _ & ->). by exists f, im.
Qed.

Open Scope R_scope.

(** The frame of panel number [i] of a page, and its rotation. *)
Lemma page_panel_geometry (b : Browser) (imageData : list (string * string))
    (page : Page) (i : nat) (p : Panel) :
  createLookbookPage b imageData = Normal page ->
  (forall n, 0 <= random b n /\ random b n < 1)%Q ->
  panels page !! i = Some p ->
  frame_at p (Z.of_nat i / 2) (Z.of_nat i mod 2)
  /\ Rabs (Q2R (rotation p)) <= 3 / 40
  /\ Q2R (canvasWidth page) = 2480 /\ Q2R (canvasHeight page) = 3508
  /\ Q2R (contentTopMargin page) = 550.
Proof.
  intros Hpage Hrandom Hp.
  destruct (createLookbookPage_Normal _ _ _ _ _ Hpage Hp) as (-> & -> & -> & f & im & ->).
  split; [|split; [by apply place_rotation|]].
  - pose proof (place_frame_at b (N.of_nat i) f im) as Hf. cbv zeta in Hf.
    unfold place in Hf at 2 3. cbn [row col] in Hf. by rewrite nat_N_Z in Hf.
  - unfold Q2R. simpl. repeat split; lra.
Qed.

Lemma Q2R_captionY (h : Q) : Q2R (captionY h) = Q2R h / 2 - 60.
Proof.
  unfold captionY. rewrite Q2R_minus, Q2R_div by done.
  unfold Q2R. simpl. lra.
Qed.

Lemma sample_random_in_range :
  forall n, (0 <= random sample_browser n /\ random sample_browser n < 1)%Q.
Proof. intros n. unfold Qle, Qlt. simpl. lia. Qed.

Lemma row_below (i : nat) :
  (Z.of_nat (i + 2) / 2 = Z.of_nat i / 2 + 1 /\ Z.of_nat (i + 2) mod 2 = Z.of_nat i mod 2)%Z.
Proof.
  rewrite Nat2Z.inj_add. change (Z.of_nat 2) with (1 * 2)%Z.
  split; [by rewrite Z.div_add|by rewrite Z.mod_add].
Qed.

(** C4, where the code departs from it.  The frames are higher than the
    cells of the grid in which they are placed, [photoHeight] being derived
    from the width of the cell and never compared with its height.  So on every page, however the frames
    are turned, a panel and the panel placed two places after it, which
    stands right below it, overlap; and the point at which the caption of
    the upper panel is written, in the space that its frame keeps for it,
    lies inside the frame of the lower panel, which is painted afterwards. *)
Theorem frame_below_covers_the_caption
    (b : Browser) (imageData : list (string * string)) (page : Page) (i : nat) (p q : Panel) :
  createLookbookPage b imageData = Normal page ->
  (forall n, 0 <= random b n /\ random b n < 1)%Q ->
  panels page !! i = Some p ->
  panels page !! (i + 2)%nat = Some q ->
  (cellHeight (canvasHeight page - contentTopMargin page) < photoHeight p)%Q
  /\ overlap p q
  /\ inside p (fst (caption_anchor p)) (snd (caption_anchor p))
  /\ inside q (fst (caption_anchor p)) (snd (caption_anchor p)).
Proof.
  intros Hpage Hrandom Hp Hq.
  destruct (page_panel_geometry _ _ _ _ _ Hpage Hrandom Hp) as (Fp & Rp & _).
  destruct (page_panel_geometry _ _ _ _ _ Hpage Hrandom Hq) as (Fq & Rq & _).
  destruct (row_below i) as [Hrow Hcol]. rewrite Hrow, Hcol in Fq.
  split; [|split; [by eapply vertical_neighbours_overlap|]].
  { destruct (createLookbookPage_Normal _ _ _ _ _ Hpage Hp) as (_ & -> & -> & f & im & ->).
    reflexivity. }
  destruct Fp as (Hxp & Hyp & Hwp & Hhp). destruct Fq as (Hxq & Hyq & Hwq & Hhq).
  unfold caption_anchor. split.
  - apply to_canvas_inside; rewrite ?Q2R_captionY, ?Hwp, ?Hhp; apply Rabs_def1; lra.
  - unfold inside, to_canvas. cbv zeta. cbn [fst snd].
    rewrite Q2R_captionY, Hxp, Hyp, Hwp, Hhp, Hxq, Hyq, Hwq, Hhq. rewrite plus_IZR.
    pose proof (cos_small _ Rp) as Hcp. pose proof (cos_small _ Rq) as Hcq.
    pose proof (COS_bound (Q2R (rotation p))) as [_ Hcp1].
    pose proof (COS_bound (Q2R (rotation q))) as Hcq1.
    apply Rabs_sin_small, Rabs_le_inv in Rp. apply Rabs_sin_small, Rabs_le_inv in Rq.
    set (cp := cos (Q2R (rotation p))) in *. set (sp := sin (Q2R (rotation p))) in *.
    set (cq := cos (Q2R (rotation q))) in *. set (sq := sin (Q2R (rotation q))) in *.
    set (r := IZR (Z.of_nat i / 2)). set (c := IZR (Z.of_nat i mod 2)).
    set (dx := 309 / 2 + 1190 * c + 981 / 2 + 0 * cp - (4905 / 4 / 2 - 60) * sp
               - (309 / 2 + 1190 * c + 981 / 2)).
    set (dy := 650 + 2858 / 3 * r + 4905 / 4 / 2 + 0 * sp + (4905 / 4 / 2 - 60) * cp
               - (650 + 2858 / 3 * (r + 1) + 4905 / 4 / 2)).
    assert (- 42 < dx < 42) as Hdx by (unfold dx; lra).
    assert (- 455 < dy < - 399) as Hdy by (unfold dy; lra).
    pose proof (product_between dx cq 42 1 ltac:(lra) Hdx Hcq1).
    pose proof (product_between dy sq 455 (3 / 40) ltac:(lra) ltac:(lra) Rq).
    pose proof (product_between dy cq 455 1 ltac:(lra) ltac:(lra) Hcq1).
    pose proof (product_between dx sq 42 (3 / 40) ltac:(lra) Hdx Rq).
    split; apply Rabs_def1; lra.
Qed.

Lemma frame_below_covers_the_caption_witness :
  (cellHeight (canvasHeight sample_three_page - contentTopMargin sample_three_page)
   < photoHeight (sample_three_panel 0))%Q
  /\ overlap (sample_three_panel 0) (sample_three_panel 2)
  /\ inside (sample_three_panel 0) (fst (caption_anchor (sample_three_panel 0)))
            (snd (caption_anchor (sample_three_panel 0)))
  /\ inside (sample_three_panel 2) (fst (caption_anchor (sample_three_panel 0)))
            (snd (caption_anchor (sample_three_panel 0))).
Proof.
  apply (frame_below_covers_the_caption sample_browser sample_three sample_three_page 0).
  - vm_compute. reflexivity.
  - exact sample_random_in_range.
  - reflexivity.
  - reflexivity.
Defined.

Close Scope R_scope.

(** * Further properties of the code *)

(** ** The data URL of the source image *)

Lemma strip_prefix_Some (p s r : string) :
  strip_prefix p s = Some r <-> s = p +:+ r.
Proof.
  revert s. induction p as [|a p IH]; intros s; simpl.
  - split; [by intros [= ->]|by intros ->].
  - destruct s as [|b s]; [by split|].
    destruct (Ascii.eqb_spec a b) as [->|Hne].
    + rewrite IH. split; [by intros ->|by intros [= ->]].
    + split; [done|]. intros [= ? _]. by subst.
Qed.

Lemma span_word_spec (s w rest : string) :
  span_word s = (w, rest) ->
  s = w +:+ rest /\ all_word w = true /\ starts_outside_word rest.
Proof.
  revert w rest. induction s as [|c s IH]; intros w rest; simpl.
  - by intros [= <- <-].
  - destruct (is_word_char c) eqn:Hc.
    + destruct (span_word s) as [w' rest']. intros [= <- <-].
      destruct (IH w' rest' eq_refl) as (-> & Hw & Hrest).
      simpl. by rewrite Hc, Hw.
    + intros [= <- <-]. simpl. by rewrite Hc.
Qed.

Lemma span_word_append (w rest : string) :
  all_word w = true -> starts_outside_word rest ->
  span_word (w +:+ rest) = (w, rest).
Proof.
  intros Hw Hrest. induction w as [|c w IH]; simpl in *.
  - destruct rest as [|c rest]; [done|]. simpl in *. by rewrite Hrest.
  - apply andb_true_iff in Hw as [Hc Hw]. by rewrite Hc, (IH Hw).
Qed.

(** Printing a data URL and matching it. *)
Lemma match_data_url_print (w d : string) :
  truthy w = true -> all_word w = true -> has_line_terminator d = false ->
  match_data_url ("data:image/" +:+ w +:+ ";base64," +:+ d) = Some ("image/" +:+ w, d).
Proof.
  intros Hne Hw Hd. unfold match_data_url.
  rewrite (proj2 (strip_prefix_Some "data:image/" _ (w +:+ ";base64," +:+ d)) eq_refl).
  rewrite (span_word_append w (";base64," +:+ d) Hw) by reflexivity.
  rewrite Hne.
  rewrite (proj2 (strip_prefix_Some ";base64," _ d) eq_refl).
  by rewrite Hd.
Qed.

(** X1. [match_data_url] accepts exactly the strings made of [data:image/],
    a non-empty run of word characters, [;base64,] and a payload without
    line terminator, and its two groups are the media type and the payload:
    printing them back gives the URL. *)
Theorem match_data_url_exact (imageDataUrl mime payload : string) :
  match_data_url imageDataUrl = Some (mime, payload)
  <-> exists subtype,
        truthy subtype = true
        /\ all_word subtype = true
        /\ has_line_terminator payload = false
        /\ mime = "image/" +:+ subtype
        /\ imageDataUrl = "data:" +:+ mime +:+ ";base64," +:+ payload.
Proof.
  split.
  - unfold match_data_url.
    destruct (strip_prefix "data:image/" imageDataUrl) as [after|] eqn:Hdata; [|done].
    apply strip_prefix_Some in Hdata as ->.
    destruct (span_word after) as [w rest] eqn:Hspan.
    apply span_word_spec in Hspan as (-> & Hw & _).
    destruct (truthy w) eqn:Hne; [|done].
    destruct (strip_prefix ";base64," rest) as [d|] eqn:Hrest; [|done].
    apply strip_prefix_Some in Hrest as ->.
    destruct (has_line_terminator d) eqn:Hd; [done|].
    intros [= <- <-]. by exists w.
  - intros (w & Hne & Hw & Hd & -> & ->). by apply match_data_url_print.
Qed.

(** ** What comes back from the remote capability *)

Lemma find_first {A : Type} (f : A -> bool) (l : list A) (a : A) :
  List.find f l = Some a
  <-> exists before after,
        l = before ++ a :: after /\ f a = true /\ Forall (fun b => f b = false) before.
Proof.
  induction l as [|b l IH]; simpl.
  - split; [done|]. intros (before & after & H & _). by destruct before.
  - destruct (f b) eqn:Hb.
    + split.
      * intros [= ->]. exists [], l. by repeat split.
      * intros ([|b' before] & after & H & Ha & Hbefore); simpl in H.
        -- by injection H as ->.
        -- injection H as -> _. inversion Hbefore; congruence.
    + rewrite IH. split.
      * intros (before & after & -> & Ha & Hbefore).
        exists (b :: before), after. repeat split; [done|by constructor].
      * intros ([|b' before] & after & H & Ha & Hbefore); simpl in H.
        -- injection H as -> _. congruence.
        -- injection H as -> ->. inversion Hbefore; subst.
           by exists before, after.
Qed.

(** X2. [processGeminiResponse] returns a result exactly when the first
    candidate of the response has a part with inline data, and the result
    is the data URL of the first such part of that candidate: the other
    candidates are never consulted, nor is the text of the response. *)
Theorem processGeminiResponse_first_image (response : GenerateContentResponse) (resultUrl : string) :
  processGeminiResponse response = Normal resultUrl
  <-> exists c cs ct before part after b,
        candidates response = Some (c :: cs)
        /\ content c = Some ct
        /\ parts ct = Some (before ++ part :: after)
        /\ Forall (fun earlier => inlineData earlier = None) before
        /\ inlineData part = Some b
        /\ resultUrl = "data:" +:+ template (mimeType b) +:+ ";base64," +:+ template (data b).
Proof.
  unfold processGeminiResponse, imagePartFromResponse. split.
  - destruct (candidates response) as [[|c cs]|] eqn:Hcs; try done.
    destruct (content c) as [ct|] eqn:Hct; [|done].
    destruct (parts ct) as [ps|] eqn:Hps; [|done].
    destruct (List.find _ ps) as [part|] eqn:Hfind; [|done].
    apply find_first in Hfind as (before & after & -> & Hpart & Hbefore).
    destruct part as [[b|] t]; [|done]. intros [= <-].
    exists c, cs, ct, before, {| inlineData := Some b; part_text := t |}, after, b.
    split; [done|]. split; [done|]. split; [done|]. split; [|done].
    eapply Forall_impl; [exact Hbefore|]. intros q Hq. simpl in Hq.
    destruct (inlineData q); [|done]. by rewrite bool_decide_eq_true_2 in Hq.
  - intros (c & cs & ct & before & part & after & b & -> & -> & -> & Hbefore & Hb & ->).
    assert (List.find (fun part => bool_decide (is_Some (inlineData part)))
                      (before ++ part :: after) = Some part) as ->.
    { apply find_first. exists before, after. repeat split.
      - rewrite Hb. by apply bool_decide_eq_true_2.
      - eapply Forall_impl; [exact Hbefore|]. intros q Hq. simpl. rewrite Hq.
        apply bool_decide_eq_false_2. by intros [? ?]. }
    destruct part as [i t]. simpl in Hb. by subst i.
Qed.

(** X3. An image that the remote capability returns with a media type
    [image/...] of word characters and a payload without line terminator
    comes out of [processGeminiResponse] as a data URL that
    [generatePimpImage] accepts in turn as a source image, with the same
    media type and payload. *)
Theorem generated_image_is_a_valid_source
    (response : GenerateContentResponse) (part : Part) (subtype payload : string) :
  imagePartFromResponse response = Some part ->
  inlineData part = Some {| mimeType := Some ("image/" +:+ subtype); data := Some payload |} ->
  truthy subtype = true -> all_word subtype = true ->
  has_line_terminator payload = false ->
  exists resultUrl,
    processGeminiResponse response = Normal resultUrl
    /\ match_data_url resultUrl = Some ("image/" +:+ subtype, payload).
Proof.
  intros Hpart Hinline Hne Hw Hd. unfold processGeminiResponse. rewrite Hpart.
  destruct part as [i t]. simpl in Hinline. subst i. cbn [mimeType data template].
  eexists. split; [done|]. by apply match_data_url_print.
Qed.

Lemma generated_image_is_a_valid_source_witness :
  exists resultUrl,
    processGeminiResponse sample_answer = Normal resultUrl
    /\ match_data_url resultUrl = Some ("image/" +:+ "png", "BBBB").
Proof.
  apply (generated_image_is_a_valid_source _
           {| inlineData := Some {| mimeType := Some "image/png"; data := Some "BBBB" |};
              part_text := None |} "png" "BBBB"); reflexivity.
Defined.

(** ** The retry wrapper, whatever the remote capability does *)

Lemma schedule_from_S (rq : request) (attempt : Z) (k : nat) :
  schedule_from rq attempt (S (S k))
  = GenerateContent attempt rq :: Sleep (initialDelay * 2 ^ (attempt - 1))%Z
      :: schedule_from rq (attempt + 1) (S k).
Proof. reflexivity. Qed.

(** The loop entered at [attempt] stops at the first attempt from there
    that succeeds or fails for good, or at the last one allowed. *)
Lemma attempt_loop_stops (ai : remote) (rq : request) (left : nat) (attempt : Z) :
  (attempt + Z.of_nat left = maxRetries)%Z ->
  exists k : nat,
    (k <= left)%nat
    /\ fst (attempt_loop ai rq attempt) = schedule_from rq attempt (S k)
    /\ (forall j, (attempt <= j < attempt + Z.of_nat k)%Z ->
          exists e, ai j = Throw e /\ classified_transient e = true)
    /\ snd (attempt_loop ai rq attempt)
       = match ai (attempt + Z.of_nat k)%Z with
         | Normal r => Returned r
         | Throw e => Rethrown (rethrown e)
         end
    /\ ((k < left)%nat ->
        match ai (attempt + Z.of_nat k)%Z with
        | Normal _ => True
        | Throw e => classified_transient e = false
        end).
Proof.
  revert attempt. induction left as [|left IH]; intros attempt Hleft.
  - exists 0%nat. rewrite attempt_loop_body.
    destruct (Z_le_dec attempt maxRetries) as [_|n]; [|lia].
    rewrite Z.add_0_r. unfold rethrown.
    destruct (ai attempt) as [r|e]; [repeat split; try done; lia|].
    destruct (errorMessage e) as [m|]; [|repeat split; try done; lia].
    rewrite bool_decide_eq_false_2 by lia. rewrite andb_false_r.
    repeat split; try done; lia.
  - rewrite attempt_loop_body.
    destruct (Z_le_dec attempt maxRetries) as [_|n]; [|lia].
    destruct (ai attempt) as [r|e] eqn:Hai.
    { exists 0%nat. rewrite Z.add_0_r, Hai. repeat split; try done; lia. }
    destruct (errorMessage e) as [m|] eqn:Hm.
    2:{ exists 0%nat. rewrite Z.add_0_r, Hai. unfold rethrown, classified_transient.
        rewrite Hm. repeat split; try done; lia. }
    destruct (isInternalError m) eqn:Hint.
    2:{ exists 0%nat. rewrite Z.add_0_r, Hai. unfold rethrown, classified_transient.
        rewrite Hm. simpl. repeat split; try done; lia. }
    rewrite bool_decide_eq_true_2 by lia. simpl.
    destruct (IH (attempt + 1)%Z) as (k & Hk & Hfst & Hbefore & Hsnd & Hdecisive); [lia|].
    destruct (attempt_loop ai rq (attempt + 1)) as [effects exit]. simpl in *.
    exists (S k). replace (attempt + Z.of_nat (S k))%Z with (attempt + 1 + Z.of_nat k)%Z by lia.
    split; [lia|]. split; [rewrite Hfst; reflexivity|].
    split; [|split; [done|intros; apply Hdecisive; lia]].
    intros j Hj. destruct (decide (j = attempt)) as [->|Hne].
    + exists e. split; [done|]. unfold classified_transient. by rewrite Hm.
    + apply Hbefore. lia.
Qed.

(** X4. Whatever the remote capability does, [callGeminiWithRetry] makes
    the attempts 1 to [k] for some [k] between 1 and 3, with the timers
    1000 and 2000 between them and none after the last; the attempts
    before [k] all failed with a transient failure; the outcome is that of
    attempt [k], its response or the failure it threw; and when [k < 3]
    that attempt succeeded or failed for good.  So it never calls more than
    three times and never waits more than 3000 ms in all. *)
Theorem wrapper_stops_at_first_decisive_attempt (ai : remote) (rq : request) :
  exists k : nat,
    (1 <= k <= 3)%nat
    /\ fst (callGeminiWithRetry ai rq) = schedule rq k
    /\ (forall j, (1 <= j < Z.of_nat k)%Z ->
          exists e, ai j = Throw e /\ classified_transient e = true)
    /\ snd (callGeminiWithRetry ai rq)
       = match ai (Z.of_nat k) with
         | Normal r => Normal r
         | Throw e => Throw (rethrown e)
         end
    /\ ((k < 3)%nat ->
        match ai (Z.of_nat k) with
        | Normal _ => True
        | Throw e => classified_transient e = false
        end)
    /\ (fold_right Z.add 0 (delays (fst (callGeminiWithRetry ai rq))) <= 3000)%Z.
Proof.
  destruct (attempt_loop_stops ai rq 2 1 eq_refl)
    as (k & Hk & Hfst & Hbefore & Hsnd & Hdecisive).
  exists (S k). replace (Z.of_nat (S k)) with (1 + Z.of_nat k)%Z by lia.
  unfold callGeminiWithRetry, schedule.
  destruct (attempt_loop ai rq 1) as [effects exit]. simpl in Hfst, Hsnd. subst effects exit.
  assert (forall j, (1 <= j < 1 + Z.of_nat k)%Z ->
            exists e, ai j = Throw e /\ classified_transient e = true) as Hbefore'.
  { intros j Hj. apply Hbefore. lia. }
  assert ((S k < 3)%nat ->
          match ai (1 + Z.of_nat k)%Z with
          | Normal _ => True
          | Throw e => classified_transient e = false
          end) as Hdecisive'.
  { intros Hlt. apply Hdecisive. lia. }
  assert (fold_right Z.add 0 (delays (schedule_from rq 1 (S k))) <= 3000)%Z as Hwait.
  { destruct k as [|[|[|k]]]; [by vm_compute..|lia]. }
  destruct (ai (1 + Z.of_nat k)%Z); simpl; (split; [lia|by repeat split]).
Qed.

Lemma wrapper_stops_at_first_decisive_attempt_witness :
  exists k : nat,
    (1 <= k <= 3)%nat
    /\ fst (callGeminiWithRetry always_internal sample_request) = schedule sample_request k
    /\ (forall j, (1 <= j < Z.of_nat k)%Z ->
          exists e, always_internal j = Throw e /\ classified_transient e = true)
    /\ snd (callGeminiWithRetry always_internal sample_request)
       = match always_internal (Z.of_nat k) with
         | Normal r => Normal r
         | Throw e => Throw (rethrown e)
         end
    /\ ((k < 3)%nat ->
        match always_internal (Z.of_nat k) with
        | Normal _ => True
        | Throw e => classified_transient e = false
        end)
    /\ (fold_right Z.add 0 (delays (fst (callGeminiWithRetry always_internal sample_request)))
        <= 3000)%Z.
Proof. exact (wrapper_stops_at_first_decisive_attempt always_internal sample_request). Defined.

(** ** The failures of generatePimpImage *)

(** With a source image that matches and a prompt that is truthy, the
    remote capability is called, first of all with the media type and the
    payload of the source image and with the prompt. *)
Lemma generatePimpImage_dispatches (ai : remote) (imageDataUrl pimpName mime payload : string)
    (p : js_prop) :
  match_data_url imageDataUrl = Some (mime, payload) ->
  PROMPTS_get pimpName = Some p ->
  prop_truthy (Some p) = true ->
  exists rest,
    fst (generatePimpImage ai imageDataUrl pimpName)
    = GenerateContent 1 {| req_mimeType := mime; req_data := payload; req_text := p |} :: rest.
Proof.
  intros Hurl Hp Htruthy. unfold generatePimpImage. rewrite Hurl, Hp, Htruthy.
  set (rq := {| req_mimeType := mime; req_data := payload; req_text := p |}).
  unfold callGeminiWithRetry. rewrite attempt_loop_body.
  destruct (Z_le_dec 1 maxRetries) as [_|n]; [|unfold maxRetries in n; lia].
  destruct (ai 1%Z) as [r|e].
  { destruct (processGeminiResponse r); simpl; eauto. }
  destruct (errorMessage e) as [msg|]; [|simpl; eauto].
  destruct (isInternalError msg && bool_decide (1 < maxRetries)%Z); [|simpl; eauto].
  destruct (attempt_loop ai rq (1 + 1)) as [effects [r|e'|]]; simpl; eauto.
  destruct (processGeminiResponse r); simpl; eauto.
Qed.

(** X5. Whatever [generatePimpImage] throws is an [Error], and its message
    is one of three: the one for a malformed source image, the one for a
    name without prompt, or the fixed prefix followed by the details of
    what went wrong with the remote call.  So [processPimp] always stores
    the message of the error, never its fallback text for a thrown value
    that is not an [Error]. *)
Theorem failure_messages (ai : remote) (image pimp : string) (prev : Store) (e : js_thrown) :
  snd (generatePimpImage ai image pimp) = Throw e ->
  exists message,
    e = ErrorObj message
    /\ processPimp ai image pimp prev
       = Normal (set_key prev pimp {| status := Error; url := None; error := Some message |})
    /\ (message = "Invalid image data URL format. Expected 'data:image/...;base64,...'"
        \/ message = "No prompt found for archetype: " +:+ pimp
        \/ exists details,
             message = "The AI model failed to generate an image. Details: " +:+ details).
Proof.
  intros Hthrow.
  assert (exists message,
             e = ErrorObj message
             /\ (message = "Invalid image data URL format. Expected 'data:image/...;base64,...'"
                 \/ message = "No prompt found for archetype: " +:+ pimp
                 \/ exists details,
                      message = "The AI model failed to generate an image. Details: "
                                +:+ details))
    as (message & -> & Hkind).
  { revert Hthrow. unfold generatePimpImage.
    destruct (match_data_url image) as [[mime payload]|];
      [|intros [= <-]; eexists; split; [done|by left]].
    destruct (PROMPTS_get pimp) as [p|];
      [|intros [= <-]; eexists; split; [done|by right; left]].
    destruct (prop_truthy (Some p));
      [|intros [= <-]; eexists; split; [done|by right; left]].
    destruct (callGeminiWithRetry ai _) as [effects [r|err]].
    - destruct (processGeminiResponse r) as [u|err]; [done|].
      intros [= <-]. eexists. split; [done|]. right. right. by eexists.
    - intros [= <-]. eexists. split; [done|]. right. right. by eexists. }
  exists message. split; [done|]. split; [|done].
  unfold processPimp. by rewrite Hthrow.
Qed.

Lemma failure_messages_witness :
  exists message,
    ErrorObj "The AI model failed to generate an image. Details: Request blocked by the content policy"
      = ErrorObj message
    /\ processPimp content_policy sample_image "Disco Dieter" []
       = Normal (set_key [] "Disco Dieter"
                         {| status := Error; url := None; error := Some message |})
    /\ (message = "Invalid image data URL format. Expected 'data:image/...;base64,...'"
        \/ message = "No prompt found for archetype: " +:+ "Disco Dieter"
        \/ exists details,
             message = "The AI model failed to generate an image. Details: " +:+ details).
Proof.
  apply (failure_messages content_policy sample_image "Disco Dieter" []).
  vm_compute. reflexivity.
Defined.

(** X6. The prompt table and the list of archetypes agree: the keys of
    [PROMPTS] are the archetypes, in order, so that for every archetype and
    every source image that matches, [generatePimpImage] passes both of its
    checks and calls the remote capability with the prompt of that
    archetype. *)
Theorem every_archetype_has_a_prompt
    (ai : remote) (imageDataUrl mime payload pimp : string) :
  pimp ∈ PIMP_ARCHETYPES ->
  match_data_url imageDataUrl = Some (mime, payload) ->
  List.map fst PROMPTS = PIMP_ARCHETYPES
  /\ exists prompt rest,
       own_property PROMPTS pimp = Some prompt
       /\ fst (generatePimpImage ai imageDataUrl pimp)
          = GenerateContent 1 {| req_mimeType := mime; req_data := payload;
                                 req_text := OwnString prompt |} :: rest.
Proof.
  intros Hpimp Hurl. split; [reflexivity|].
  assert (exists prompt, own_property PROMPTS pimp = Some prompt /\ truthy prompt = true)
    as (prompt & Hown & Htruthy).
  { revert pimp Hpimp. apply Forall_forall.
    repeat (constructor; [eexists; split; reflexivity|]). constructor. }
  destruct (generatePimpImage_dispatches ai imageDataUrl pimp mime payload (OwnString prompt))
    as [rest Hrest]; [done| |done|by exists prompt, rest].
  unfold PROMPTS_get. by rewrite Hown.
Qed.

Lemma every_archetype_has_a_prompt_witness :
  List.map fst PROMPTS = PIMP_ARCHETYPES
  /\ exists prompt rest,
       own_property PROMPTS "Porsche-Paul" = Some prompt
       /\ fst (generatePimpImage content_policy sample_image "Porsche-Paul")
          = GenerateContent 1 {| req_mimeType := "image/png"; req_data := "AAAA";
                                 req_text := OwnString prompt |} :: rest.
Proof.
  apply (every_archetype_has_a_prompt content_policy sample_image "image/png" "AAAA"
           "Porsche-Paul").
  - by_evaluation.
  - reflexivity.
Defined.

(** ** The store during a run *)

Lemma generatePimpImage_result (ai : remote) (image pimp resultUrl : string) :
  snd (generatePimpImage ai image pimp) = Normal resultUrl ->
  exists rest, resultUrl = "data:" +:+ rest.
Proof.
  unfold generatePimpImage.
  destruct (match_data_url image) as [[mime payload]|]; [|done].
  destruct (PROMPTS_get pimp) as [p|]; [|done].
  destruct (prop_truthy (Some p)); [|done].
  destruct (callGeminiWithRetry ai _) as [effects [r|err]]; [|done].
  unfold processGeminiResponse.
  destruct (imagePartFromResponse r) as [[[b|] t]|]; try done.
  intros [= <-]. by eexists.
Qed.

Lemma record_outcome_good (ai : remote) (image pimp : string) (prev : Store) :
  exists v,
    record_outcome (snd (generatePimpImage ai image pimp)) pimp prev
    = Normal (set_key prev pimp v)
    /\ good_entry v.
Proof.
  destruct (snd (generatePimpImage ai image pimp)) as [u|e] eqn:Hout; simpl.
  - eexists. split; [done|]. split; [split; [by eexists|done]|].
    intros _. apply generatePimpImage_result in Hout as [rest ->]. by eexists.
  - eexists. split; [done|]. split; [split; [done|by eexists]|done].
Qed.

Lemma status_of_key (generatedImages : Store) (pimp : string) (st : ImageStatus) :
  status_of generatedImages pimp = Some st -> pimp ∈ List.map fst generatedImages.
Proof.
  unfold status_of. destruct (own_property generatedImages pimp) as [g|] eqn:Hg; [|done].
  intros _. apply own_property_elem in Hg. apply list_elem_of_fmap. by exists (pimp, g).
Qed.

Lemma store_ok_set_key (generatedImages : Store) (pimp : string) (v : GeneratedImage) :
  store_ok generatedImages -> pimp ∈ List.map fst generatedImages -> good_entry v ->
  store_ok (set_key generatedImages pimp v).
Proof.
  intros [Hkeys Hgood] Hin Hv. split.
  - rewrite keys_set_key. by rewrite bool_decide_eq_true_2.
  - by apply Forall_set_key.
Qed.

Lemma store_ok_step (e : event) (s s' : App) :
  Inv s -> store_ok (generatedImages s) -> shakes_a_card e ->
  step e s = Some s' -> store_ok (generatedImages s').
Proof.
  intros HI Hok Hcard Hstep. destruct e as [i ai|pimp|pimp ai]; simpl in Hstep.
  - destruct (workers s !! i) as [[pimp| |]|] eqn:Hw; try done.
    destruct (uploadedImage s) as [image|]; [|done].
    unfold processPimp in Hstep.
    destruct (record_outcome_good ai image pimp (generatedImages s)) as (v & Hrec & Hv).
    rewrite Hrec in Hstep. destruct (worker_loop (pimpQueue s)) as [w rest].
    injection Hstep as <-.
    match goal with
    | |- context [join ?x] => destruct (join_spec x) as (_ & -> & _)
    end.
    simpl. apply store_ok_set_key; [done| |done].
    apply (status_of_key _ _ Pending), HI. unfold in_flight. rewrite !elem_of_app.
    right. left. destruct (awaited_settle _ _ _ Hw) as (before & after & -> & _).
    rewrite elem_of_app, elem_of_cons. tauto.
  - injection Hstep as <-. unfold handleRegeneratePimp.
    destruct (no_image (uploadedImage s)); [done|]. case_bool_decide; [done|].
    simpl. apply store_ok_set_key; [done| |by split].
    destruct Hok as [-> _]. exact Hcard.
  - case_bool_decide as Hin; [|done].
    destruct (uploadedImage s) as [image|]; [|done].
    destruct (record_outcome_good ai image pimp (generatedImages s)) as (v & Hrec & Hv).
    rewrite Hrec in Hstep. injection Hstep as <-. simpl.
    apply store_ok_set_key; [done| |done].
    apply (status_of_key _ _ Pending), HI. unfold in_flight. rewrite !elem_of_app. tauto.
Qed.

Lemma store_ok_exec (trace : list event) (s s' : App) :
  Inv s -> store_ok (generatedImages s) -> Forall shakes_a_card trace ->
  exec trace s = Some s' -> store_ok (generatedImages s').
Proof.
  revert s. induction trace as [|e trace IH]; intros s HI Hok Hcards Hexec;
    simpl in Hexec.
  - by injection Hexec as <-.
  - destruct (step e s) as [s1|] eqn:Hstep; [|done].
    inversion Hcards as [|? ? He Hcards']; subst.
    apply (IH s1); [by eapply Inv_step|by eapply store_ok_step|done|done].
Qed.

Lemma store_ok_reachable (imageDataUrl : string) (trace : list event) (s : App) :
  truthy imageDataUrl = true ->
  Forall shakes_a_card trace ->
  exec trace (handleGenerateClick (uploaded imageDataUrl)) = Some s ->
  store_ok (generatedImages s).
Proof.
  intros Himage Hcards Hexec.
  apply (store_ok_exec trace _ s (Inv_handleGenerateClick _ Himage)); [|done|done].
  rewrite handleGenerateClick_uploaded by done. simpl.
  split; [reflexivity|]. repeat constructor; done.
Qed.

(** X7. In every state that the application reaches from a click on
    "generate", the store holds exactly one entry for each archetype, in the
    order of [PIMP_ARCHETYPES]; an entry carries a URL exactly when it is
    [Done] and a message exactly when it is [Error]; and the URL of a [Done]
    entry is a data URL. *)
Theorem store_has_one_good_entry_per_archetype
    (imageDataUrl : string) (trace : list event) (s : App) :
  truthy imageDataUrl = true ->
  Forall shakes_a_card trace ->
  exec trace (handleGenerateClick (uploaded imageDataUrl)) = Some s ->
  List.map fst (generatedImages s) = PIMP_ARCHETYPES
  /\ forall pimp, pimp ∈ PIMP_ARCHETYPES ->
       exists g,
         own_property (generatedImages s) pimp = Some g
         /\ match status g with
            | Pending => url g = None /\ error g = None
            | Done => (exists rest, url g = Some ("data:" +:+ rest)) /\ error g = None
            | Error => url g = None /\ is_Some (error g)
            end.
Proof.
  intros Himage Hcards Hexec.
  destruct (store_ok_reachable _ _ _ Himage Hcards Hexec) as [Hkeys Hgood].
  split; [done|]. intros pimp Hpimp. rewrite <- Hkeys in Hpimp.
  apply list_elem_of_fmap in Hpimp as ([k g] & -> & Hin). simpl.
  assert (NoDup (List.map fst (generatedImages s))) as Hnd.
  { rewrite Hkeys. by_evaluation. }
  exists g. split; [by apply elem_own_property|].
  rewrite Forall_forall in Hgood. destruct (Hgood _ Hin) as [Hwf Hdone].
  simpl in *. unfold entry_wf in Hwf.
  destruct (status g); [done| |done]. split; [by apply Hdone|apply Hwf].
Qed.

Lemma store_has_one_good_entry_per_archetype_witness :
  List.map fst (generatedImages sample_final) = PIMP_ARCHETYPES
  /\ forall pimp, pimp ∈ PIMP_ARCHETYPES ->
       exists g,
         own_property (generatedImages sample_final) pimp = Some g
         /\ match status g with
            | Pending => url g = None /\ error g = None
            | Done => (exists rest, url g = Some ("data:" +:+ rest)) /\ error g = None
            | Error => url g = None /\ is_Some (error g)
            end.
Proof.
  apply (store_has_one_good_entry_per_archetype sample_image sample_run sample_final).
  - reflexivity.
  - repeat constructor.
  - vm_compute. reflexivity.
Defined.

(** ** The lookbook is composed once every item is done *)

Lemma collect_keys (entries : Store) (acc : list (string * string)) :
  NoDup (List.map fst acc ++ List.map fst entries) ->
  Forall (fun kv => is_Some (url (snd kv))) entries ->
  List.map fst (fold_left collect entries acc) = List.map fst acc ++ List.map fst entries.
Proof.
  revert acc. induction entries as [|[k g] entries IH]; intros acc Hnd Hurl; simpl.
  - by rewrite app_nil_r.
  - inversion Hurl as [|? ? [u Hu] Hurl']; subst. simpl in Hu. rewrite Hu.
    assert (k ∉ List.map fst acc) as Hfresh.
    { simpl in Hnd. apply NoDup_app in Hnd as (_ & Hdisj & _).
      intros Hin. apply (Hdisj k Hin). by left. }
    rewrite IH; [|rewrite keys_set_key, bool_decide_eq_false_2 by done|done].
    + rewrite keys_set_key, bool_decide_eq_false_2 by done. by rewrite <- app_assoc.
    + rewrite <- app_assoc. exact Hnd.
Qed.

Lemma filter_all {A : Type} (f : A -> bool) (l : list A) :
  Forall (fun a => f a = true) l -> List.filter f l = l.
Proof. induction 1 as [|a l Ha _ IH]; simpl; [done|]. by rewrite Ha, IH. Qed.

(** When every archetype is [Done], [imageData] has the five names, in
    order. *)
Lemma imageData_all_done (generatedImages : Store) :
  store_ok generatedImages ->
  (forall pimp, pimp ∈ PIMP_ARCHETYPES -> status_of generatedImages pimp = Some Done) ->
  List.map fst (imageData_of generatedImages) = PIMP_ARCHETYPES.
Proof.
  intros [Hkeys Hgood] Hdone.
  assert (NoDup (List.map fst generatedImages)) as Hnd.
  { rewrite Hkeys. by_evaluation. }
  assert (Forall (fun kv => status (snd kv) = Done
                            /\ exists rest, url (snd kv) = Some ("data:" +:+ rest))
                 generatedImages) as Hall.
  { apply Forall_forall. intros [k g] Hin. simpl.
    rewrite Forall_forall in Hgood. destruct (Hgood _ Hin) as [_ Hurl]. simpl in Hurl.
    assert (status g = Done) as Hst; [|by split; [|apply Hurl]].
    assert (k ∈ PIMP_ARCHETYPES) as Hk.
    { rewrite <- Hkeys. apply list_elem_of_fmap. by exists (k, g). }
    specialize (Hdone k Hk). unfold status_of in Hdone.
    rewrite (elem_own_property _ _ _ Hnd Hin) in Hdone. by injection Hdone. }
  unfold imageData_of. rewrite filter_all.
  - rewrite collect_keys; [by rewrite Hkeys|done|].
    eapply Forall_impl; [exact Hall|]. intros [k g] [_ [rest ->]]. by eexists.
  - eapply Forall_impl; [exact Hall|]. intros [k g] [Hst [rest Hurl]]. simpl in *.
    rewrite Hurl, bool_decide_eq_true_2 by done. done.
Qed.

(** X8. In a state reached from a click on "generate" in which every
    archetype is [Done], [handleDownloadLookbook] does not refuse: when the
    canvas has a context and the images load it downloads a page with one
    panel for each archetype, captioned in the order of [PIMP_ARCHETYPES];
    otherwise it reports the failure and downloads nothing. *)
Theorem lookbook_composed_when_all_done
    (b : Browser) (imageDataUrl : string) (trace : list event) (s : App) :
  truthy imageDataUrl = true ->
  Forall shakes_a_card trace ->
  exec trace (handleGenerateClick (uploaded imageDataUrl)) = Some s ->
  (forall pimp, pimp ∈ PIMP_ARCHETYPES -> status_of (generatedImages s) pimp = Some Done) ->
  handleDownloadLookbook b s <> Refused
  /\ (has_context b = true -> (forall u, is_Some (load b u)) ->
      exists page,
        handleDownloadLookbook b s = Downloaded page
        /\ List.map figure (panels page) = PIMP_ARCHETYPES)
  /\ (has_context b = false -> handleDownloadLookbook b s = Failed).
Proof.
  intros Himage Hcards Hexec Hdone.
  pose proof (store_ok_reachable _ _ _ Himage Hcards Hexec) as Hok.
  pose proof (imageData_all_done _ Hok Hdone) as Hkeys.
  unfold handleDownloadLookbook.
  assert (length (imageData_of (generatedImages s)) = length PIMP_ARCHETYPES) as Hlen.
  { by rewrite <- Hkeys, length_map. }
  rewrite Hlen, Nat.ltb_irrefl.
  split; [by destruct (createLookbookPage b _)|]. split.
  - intros Hctx Hload.
    destruct (createLookbookPage_panels b (imageData_of (generatedImages s)) Hctx)
      as (page & -> & Hfig & _); [intros u _; apply Hload|].
    exists page. split; [done|]. by rewrite Hfig.
  - intros Hctx. unfold createLookbookPage. by rewrite Hctx.
Qed.

Lemma lookbook_composed_when_all_done_witness :
  handleDownloadLookbook sample_browser sample_success_final <> Refused
  /\ (has_context sample_browser = true -> (forall u, is_Some (load sample_browser u)) ->
      exists page,
        handleDownloadLookbook sample_browser sample_success_final = Downloaded page
        /\ List.map figure (panels page) = PIMP_ARCHETYPES)
  /\ (has_context sample_browser = false ->
      handleDownloadLookbook sample_browser sample_success_final = Failed).
Proof.
  apply (lookbook_composed_when_all_done sample_browser sample_image sample_success_run
           sample_success_final).
  - reflexivity.
  - repeat constructor.
  - vm_compute. reflexivity.
  - apply Forall_forall. by_evaluation.
Defined.

(** ** What the interface shows *)

Lemma step_ui (e : event) (s s' : App) :
  step e s = Some s' ->
  (appState s' = appState s /\ isLoading s' = isLoading s)
  \/ (appState s' = results_shown /\ isLoading s' = false).
Proof.
  destruct e as [i ai|pimp|pimp ai]; simpl.
  - destruct (workers s !! i) as [[pimp| |]|]; try done.
    destruct (uploadedImage s) as [image|]; [|done].
    destruct (processPimp ai image pimp (generatedImages s)).
    + destruct (worker_loop (pimpQueue s)) as [w rest]. intros [= <-].
      unfold join. simpl. destruct (all_fulfilled _); simpl; tauto.
    + intros [= <-]. simpl. tauto.
  - intros [= <-]. unfold handleRegeneratePimp.
    destruct (no_image _); [tauto|]. case_bool_decide; simpl; tauto.
  - case_bool_decide; [|done]. destruct (uploadedImage s); [|done].
    destruct (record_outcome _ _ _); intros [= <-]; simpl; tauto.
Qed.

(** The events of a session are events of the application: what a click
    on "Hit the Streets" and the events after it lead to, with nothing left
    over, is a state of the application. *)
Lemma session_in_the_application (trace : list event) (s s' : App)
    (rest : list (string * string)) :
  cards_shown s = true ->
  exec trace s = Some s' ->
  ui_run (List.map During trace) {| app := s; leftover := rest |}
  = Some {| app := s'; leftover := rest |}.
Proof.
  revert s. induction trace as [|e trace IH]; intros s Hshown Hexec; simpl in Hexec.
  - by injection Hexec as <-.
  - destruct (step e s) as [s1|] eqn:Hstep; [|done].
    cbn [List.map ui_run].
    assert (ui_step (During e) {| app := s; leftover := rest |}
            = Some {| app := s1; leftover := rest |}) as ->.
    { unfold ui_step. cbn [app leftover]. rewrite Hshown, Hstep. by destruct e. }
    apply IH; [|done].
    unfold cards_shown in *.
    destruct (step_ui e s s1 Hstep) as [[-> _]|[-> _]]; done.
Qed.

Lemma first_session_in_the_application (imageDataUrl : string) (trace : list event) (s : App) :
  truthy imageDataUrl = true ->
  exec trace (handleGenerateClick (uploaded imageDataUrl)) = Some s ->
  ui_run (FileRead (Some imageDataUrl) :: HitTheStreets :: List.map During trace) fresh
  = Some {| app := s; leftover := [] |}.
Proof.
  intros Himage Hexec. cbn [ui_run ui_step fresh app leftover appState].
  change (handleImageUpload (Some imageDataUrl) _) with (uploaded imageDataUrl).
  unfold mugshot_shown. cbn [appState uploaded uploadedImage no_image]. rewrite Himage.
  cbn [negb]. apply session_in_the_application; [|done].
  rewrite handleGenerateClick_uploaded by done. done.
Qed.




(** ** The page: all of it or nothing *)

Lemma loadAll_fails (b : Browser) (urls : list string) (e : js_thrown) :
  loadAll b urls = Throw e ->
  exists u, u ∈ urls /\ load b u = None
            /\ e = ErrorObj ("Failed to load image: " +:+ substring_units 50 u +:+ "...").
Proof.
  induction urls as [|u urls IH]; simpl; [done|].
  unfold loadImage. destruct (load b u) as [i|] eqn:Hu.
  - destruct (loadAll b urls) as [imgs|e']; [done|].
    intros [= <-]. destruct (IH eq_refl) as (u' & Hin & Hnone & ->).
    exists u'. split; [by right|done].
  - intros [= <-]. exists u. split; [by left|done].
Qed.

(** X10. [createLookbookPage] returns a page exactly when the canvas gives
    a context and every image loads; the page then has one panel for each
    entry of the mapping, captioned with its key, in order, on a canvas of
    2480 by 3508, and there is no check on the number of entries: an empty
    mapping gives a page without panels.  Otherwise it throws, for the
    missing context or for an image that failed to load, with a message
    that quotes the first 50 UTF-16 code units of the URL of that image, and
    returns no page at all. *)
Theorem createLookbookPage_all_or_nothing (b : Browser) (imageData : list (string * string)) :
  ((exists page, createLookbookPage b imageData = Normal page)
   <-> has_context b = true /\ forall u, u ∈ List.map snd imageData -> is_Some (load b u))
  /\ (forall page, createLookbookPage b imageData = Normal page ->
        List.map figure (panels page) = List.map fst imageData
        /\ (canvasWidth page == 2480)%Q /\ (canvasHeight page == 3508)%Q)
  /\ (forall e, createLookbookPage b imageData = Throw e ->
        (has_context b = false /\ e = ErrorObj "Could not get 2D canvas context")
        \/ (exists u, u ∈ List.map snd imageData /\ load b u = None
                      /\ e = ErrorObj ("Failed to load image: "
                                       +:+ substring_units 50 u +:+ "..."))).
Proof.
  split; [split|split].
  - intros [page Hpage]. unfold createLookbookPage in Hpage.
    destruct (has_context b); [|done]. split; [done|].
    destruct (loadAll b (List.map snd imageData)) as [imgs|e] eqn:Hload; [|done].
    intros u Hu. destruct (load b u) as [i|] eqn:Hlu; [by eexists|].
    exfalso. clear Hpage. revert imgs Hload.
    induction (List.map snd imageData) as [|u' urls IH]; intros imgs Hload;
      [by apply elem_of_nil in Hu|].
    simpl in Hload. unfold loadImage in Hload.
    apply elem_of_cons in Hu as [<-|Hu]; [by rewrite Hlu in Hload|].
    destruct (load b u'); [|done].
    destruct (loadAll b urls) as [imgs'|]; [|done]. by apply (IH Hu imgs').
  - intros [Hctx Hload].
    destruct (createLookbookPage_panels b imageData Hctx Hload) as (page & Hpage & _).
    by exists page.
  - intros page Hpage. unfold createLookbookPage in Hpage.
    destruct (has_context b); [|done].
    destruct (loadAll b (List.map snd imageData)) as [imgs|e] eqn:Hload; [|done].
    injection Hpage as <-. simpl. split; [|done].
    rewrite place_all_figures. apply combine_figures.
    assert (forall urls imgs, loadAll b urls = Normal imgs -> length imgs = length urls)
      as Hlen.
    { clear. induction urls as [|u urls IH]; intros imgs; simpl; [by intros [= <-]|].
      unfold loadImage. destruct (load b u); [|done].
      destruct (loadAll b urls) as [imgs'|]; [|done].
      intros [= <-]. simpl. by rewrite (IH imgs'). }
    by rewrite (Hlen _ _ Hload), !length_map.
  - intros e He. unfold createLookbookPage in He.
    destruct (has_context b); [|left; by injection He as <-].
    destruct (loadAll b (List.map snd imageData)) as [imgs|e'] eqn:Hload; [done|].
    injection He as <-. right. by apply loadAll_fails.
Qed.

Lemma createLookbookPage_all_or_nothing_witness :
  (List.map figure (panels sample_three_page) = List.map fst sample_three
   /\ (canvasWidth sample_three_page == 2480)%Q
   /\ (canvasHeight sample_three_page == 3508)%Q)
  /\ ((has_context flaky_browser = false
       /\ ErrorObj "Failed to load image: data:image/png;base64,CCCC..."
          = ErrorObj "Could not get 2D canvas context")
      \/ (exists u, u ∈ List.map snd sample_three /\ load flaky_browser u = None
                    /\ ErrorObj "Failed to load image: data:image/png;base64,CCCC..."
                       = ErrorObj ("Failed to load image: "
                                   +:+ substring_units 50 u +:+ "..."))).
Proof.
  split.
  - apply (createLookbookPage_all_or_nothing sample_browser sample_three).
    vm_compute. reflexivity.
  - apply (createLookbookPage_all_or_nothing flaky_browser sample_three).
    vm_compute. reflexivity.
Defined.

(** ** The picture inside the frame *)

Open Scope Q_scope.

(** X11. For a picture whose natural sizes are positive, in a frame wider
    than 70 and higher than 170, the rectangle in which the picture is
    drawn keeps the aspect ratio of the picture, fits in the region left by
    the inset of 35 and the 100 reserved for the caption, fills that region
    in one direction at least, is centred in it in both, and ends at least
    75 above the line on which the caption is centred. *)
Theorem picture_fits_above_the_caption (img : Image) (photoWidth photoHeight : Q) :
  (0 < naturalWidth img)%Z -> (0 < naturalHeight img)%Z ->
  70 < photoWidth -> 170 < photoHeight ->
  let r := drawImage_rect img photoWidth photoHeight in
  drawWidth r * inject_Z (naturalHeight img) == drawHeight r * inject_Z (naturalWidth img)
  /\ 0 < drawWidth r /\ drawWidth r <= photoWidth - 70
  /\ 0 < drawHeight r /\ drawHeight r <= photoHeight - 170
  /\ (drawWidth r == photoWidth - 70 \/ drawHeight r == photoHeight - 170)
  /\ imgX r + drawWidth r / 2 == 0
  /\ imgY r + drawHeight r / 2 == (- photoHeight / 2 + 35) + (photoHeight - 170) / 2
  /\ - photoWidth / 2 + 35 <= imgX r
  /\ imgX r + drawWidth r <= photoWidth / 2 - 35
  /\ - photoHeight / 2 + 35 <= imgY r
  /\ imgY r + drawHeight r <= captionY photoHeight - 75.
Proof.
  intros Hw Hh Hpw Hph. unfold drawImage_rect, captionY. cbv zeta.
  set (a := inject_Z (naturalWidth img)). set (b := inject_Z (naturalHeight img)).
  assert (0 < a) as Ha by (unfold a; rewrite <- (Zlt_Qlt 0); done).
  assert (0 < b) as Hb by (unfold b; rewrite <- (Zlt_Qlt 0); done).
  set (cW := photoWidth - inset * 2). set (cH := photoHeight - inset * 2 - 100).
  assert (cW == photoWidth - 70) as HcW by (unfold cW, inset; ring).
  assert (cH == photoHeight - 170) as HcH by (unfold cH, inset; ring).
  assert (~ a == 0) as Ha0 by Lqa.lra. assert (~ b == 0) as Hb0 by Lqa.lra.
  set (dh0 := cW / (a / b)). set (dw1 := cH * (a / b)).
  assert (dh0 * a == cW * b) as Hdh0 by (unfold dh0; field; split; done).
  assert (dw1 * b == cH * a) as Hdw1 by (unfold dw1; field; done).
  assert (forall q, q / 2 == q * (1 # 2)) as Hhalf by (intros; field).
  unfold inset.
  destruct (Qlt_le_dec cH dh0) as [Hlt|Hle]; cbn [imgX imgY drawWidth drawHeight].
  - assert (0 < dw1 /\ dw1 <= cW) as [? ?] by (split; Lqa.nra).
    repeat split; rewrite ?Hhalf; Lqa.lra.
  - assert (0 < dh0) by Lqa.nra.
    repeat split; rewrite ?Hhalf; Lqa.lra.
Qed.

Close Scope Q_scope.

Lemma picture_fits_above_the_caption_witness :
  let r := drawImage_rect {| naturalWidth := 1024; naturalHeight := 768 |} 981 (4905 # 4) in
  (drawWidth r * inject_Z 768 == drawHeight r * inject_Z 1024
   /\ 0 < drawWidth r /\ drawWidth r <= 981 - 70
   /\ 0 < drawHeight r /\ drawHeight r <= (4905 # 4) - 170
   /\ (drawWidth r == 981 - 70 \/ drawHeight r == (4905 # 4) - 170)
   /\ imgX r + drawWidth r / 2 == 0
   /\ imgY r + drawHeight r / 2 == (- (4905 # 4) / 2 + 35) + ((4905 # 4) - 170) / 2
   /\ - 981 / 2 + 35 <= imgX r
   /\ imgX r + drawWidth r <= 981 / 2 - 35
   /\ - (4905 # 4) / 2 + 35 <= imgY r
   /\ imgY r + drawHeight r <= captionY (4905 # 4) - 75)%Q.
Proof.
  apply (picture_fits_above_the_caption {| naturalWidth := 1024; naturalHeight := 768 |}
           981 (4905 # 4)); reflexivity.
Defined.

(** ** Where the frames fall on the canvas *)

Open Scope R_scope.

(** X12. On every page, the caption of a panel of the third row (the
    fifth panel and those after it) is anchored on its frame but below the
    lower edge of the canvas, however the frame is turned: the point on
    which [fillText] centres it has a [y] above the height of the canvas. *)
Theorem third_row_captions_fall_off_the_canvas
    (b : Browser) (imageData : list (string * string)) (page : Page) (i : nat) (p : Panel) :
  createLookbookPage b imageData = Normal page ->
  (forall n, 0 <= random b n /\ random b n < 1)%Q ->
  panels page !! i = Some p ->
  (4 <= i)%nat ->
  inside p (fst (caption_anchor p)) (snd (caption_anchor p))
  /\ Q2R (canvasHeight page) < snd (caption_anchor p).
Proof.
  intros Hpage Hrandom Hp Hi.
  destruct (page_panel_geometry _ _ _ _ _ Hpage Hrandom Hp)
    as ((Hx & Hy & Hw & Hh) & Hrot & _ & -> & _).
  unfold caption_anchor. split.
  - apply to_canvas_inside; rewrite ?Q2R_captionY, ?Hw, ?Hh; apply Rabs_def1; lra.
  - unfold to_canvas. cbn [snd]. rewrite Q2R_captionY, Hy, Hh.
    pose proof (cos_small _ Hrot) as Hcos.
    assert (2 <= Z.of_nat i / 2)%Z as Hrow by (apply Z.div_le_lower_bound; lia).
    apply IZR_le in Hrow. nra.
Qed.

Lemma third_row_captions_fall_off_the_canvas_witness :
  inside (sample_panel 4) (fst (caption_anchor (sample_panel 4)))
         (snd (caption_anchor (sample_panel 4)))
  /\ Q2R (canvasHeight sample_page) < snd (caption_anchor (sample_panel 4)).
Proof.
  apply (third_row_captions_fall_off_the_canvas sample_browser sample_seven sample_page 4).
  - vm_compute. reflexivity.
  - exact sample_random_in_range.
  - reflexivity.
  - lia.
Defined.

(** X13. On every page, every frame lies between the left and the right
    edge of the canvas, and the frames of the first two rows (the first
    four panels) lie wholly on the canvas, below the margin kept for the
    title, however they are turned. *)
Theorem first_two_rows_lie_on_the_canvas
    (b : Browser) (imageData : list (string * string)) (page : Page) (i : nat) (p : Panel)
    (px py : R) :
  createLookbookPage b imageData = Normal page ->
  (forall n, 0 <= random b n /\ random b n < 1)%Q ->
  panels page !! i = Some p ->
  inside p px py ->
  0 < px < Q2R (canvasWidth page)
  /\ ((i < 4)%nat -> Q2R (contentTopMargin page) < py < Q2R (canvasHeight page)).
Proof.
  intros Hpage Hrandom Hp Hin.
  destruct (page_panel_geometry _ _ _ _ _ Hpage Hrandom Hp)
    as ((Hx & Hy & Hw & Hh) & Hrot & -> & -> & ->).
  apply inside_extent in Hin as [Hpx Hpy]; [|done].
  rewrite Hx, Hw, Hh in Hpx. rewrite Hy, Hw, Hh in Hpy.
  apply Rabs_def2 in Hpx. apply Rabs_def2 in Hpy.
  assert (0 <= Z.of_nat i mod 2 <= 1)%Z as [Hc0 Hc1].
  { pose proof (Z.mod_pos_bound (Z.of_nat i) 2). lia. }
  apply IZR_le in Hc0. apply IZR_le in Hc1.
  split; [lra|]. intros Hi.
  assert (0 <= Z.of_nat i / 2 <= 1)%Z as [Hr0 Hr1].
  { split; [apply Z.div_pos; lia|]. apply Z.lt_succ_r, Z.div_lt_upper_bound; lia. }
  apply IZR_le in Hr0. apply IZR_le in Hr1. lra.
Qed.

Lemma first_two_rows_lie_on_the_canvas_witness :
  (0 < fst (to_canvas (sample_panel 3) 0 0) < Q2R (canvasWidth sample_page)
   /\ ((3 < 4)%nat ->
       Q2R (contentTopMargin sample_page) < snd (to_canvas (sample_panel 3) 0 0)
       < Q2R (canvasHeight sample_page)))%R.
Proof.
  apply (first_two_rows_lie_on_the_canvas sample_browser sample_seven sample_page 3
           (sample_panel 3)).
  - vm_compute. reflexivity.
  - exact sample_random_in_range.
  - reflexivity.
  - apply to_canvas_inside; rewrite Rabs_R0; unfold Q2R; simpl; lra.
Defined.

(** X14. [createLookbookPage] does not limit the number of images to the
    six cells of its grid: a seventh image and those after it are placed
    all the same, in rows below the third, where no point of their frames
    is more than 37 above the lower edge of the canvas. *)
Theorem panels_beyond_the_grid_are_off_the_canvas
    (b : Browser) (imageData : list (string * string)) (page : Page) (i : nat) (p : Panel)
    (px py : R) :
  createLookbookPage b imageData = Normal page ->
  (forall n, 0 <= random b n /\ random b n < 1)%Q ->
  panels page !! i = Some p ->
  (6 <= i)%nat ->
  inside p px py ->
  (IZR grid_rows <= IZR (row p)) /\ Q2R (canvasHeight page) - 37 < py.
Proof.
  intros Hpage Hrandom Hp Hi Hin.
  destruct (page_panel_geometry _ _ _ _ _ Hpage Hrandom Hp)
    as ((Hx & Hy & Hw & Hh) & Hrot & _ & -> & _).
  apply inside_extent in Hin as [_ Hpy]; [|done].
  rewrite Hy, Hw, Hh in Hpy. apply Rabs_def2 in Hpy.
  assert (3 <= Z.of_nat i / 2)%Z as Hrow by (apply Z.div_le_lower_bound; lia).
  destruct (createLookbookPage_Normal _ _ _ _ _ Hpage Hp) as (_ & _ & _ & f & im & ->).
  unfold place. cbn [row]. rewrite nat_N_Z. unfold grid_rows, grid_cols.
  apply IZR_le in Hrow. split; [done|lra].
Qed.

Lemma panels_beyond_the_grid_are_off_the_canvas_witness :
  (IZR grid_rows <= IZR (row (sample_panel 6)))
  /\ Q2R (canvasHeight sample_page) - 37 < snd (to_canvas (sample_panel 6) 0 0).
Proof.
  apply (panels_beyond_the_grid_are_off_the_canvas sample_browser sample_seven sample_page 6
           (sample_panel 6) (fst (to_canvas (sample_panel 6) 0 0))).
  - vm_compute. reflexivity.
  - exact sample_random_in_range.
  - reflexivity.
  - lia.
  - apply to_canvas_inside; rewrite Rabs_R0; unfold Q2R; simpl; lra.
Defined.

Close Scope R_scope.

(** ** One entry at a time *)

(** X15. Every event writes at most one entry of the store, that of the
    item it is about: the item the worker awaited, or the item whose card
    was shaken or whose regeneration settled.  The entries of all the
    other items are left as they were. *)
Theorem events_touch_one_entry (e : event) (s s' : App) (other : string) :
  step e s = Some s' ->
  match e with
  | WorkerSettles i _ => workers s !! i <> Some (Awaiting other)
  | Shake pimp => pimp <> other
  | RegenerationSettles pimp _ => pimp <> other
  end ->
  own_property (generatedImages s') other = own_property (generatedImages s) other.
Proof.
  assert (forall pimp v, pimp <> other ->
            own_property (set_key (generatedImages s) pimp v) other
            = own_property (generatedImages s) other) as Hset.
  { intros pimp v Hne. rewrite own_property_set_key.
    destruct (String.eqb_spec pimp other); done. }
  destruct e as [i ai|pimp|pimp ai]; simpl; intros Hstep Hother.
  - destruct (workers s !! i) as [[pimp| |]|]; try done.
    destruct (uploadedImage s) as [image|]; [|done].
    unfold processPimp in Hstep.
    destruct (record_outcome_recorded (snd (generatePimpImage ai image pimp)) pimp
                (generatedImages s)) as (v & Hrec & _).
    rewrite Hrec in Hstep. destruct (worker_loop (pimpQueue s)) as [w rest].
    injection Hstep as <-.
    match goal with
    | |- context [join ?x] => destruct (join_spec x) as (_ & -> & _)
    end.
    simpl. apply Hset. congruence.
  - injection Hstep as <-. unfold handleRegeneratePimp.
    destruct (no_image _); [done|]. case_bool_decide; [done|]. simpl. by apply Hset.
  - case_bool_decide; [|done]. destruct (uploadedImage s) as [image|]; [|done].
    destruct (record_outcome_recorded (snd (generatePimpImage ai image pimp)) pimp
                (generatedImages s)) as (v & Hrec & _).
    rewrite Hrec in Hstep. injection Hstep as <-. simpl. by apply Hset.
Qed.

Lemma events_touch_one_entry_witness :
  own_property (generatedImages (handleRegeneratePimp "Kiez-König" sample_settled))
               "Luden-Larry"
  = own_property (generatedImages sample_settled) "Luden-Larry".
Proof.
  apply (events_touch_one_entry (Shake "Kiez-König")).
  - reflexivity.
  - discriminate.
Defined.

(** ** Calls of the remote capability by generatePimpImage *)

(** X16. [generatePimpImage] makes no call of the remote capability
    exactly when the source image does not match or the prompt read for the
    name is falsy, and it then throws; in every other case it makes at
    least one call and at most three. *)
Theorem generatePimpImage_calls (ai : remote) (imageDataUrl pimpName : string) :
  (fst (generatePimpImage ai imageDataUrl pimpName) = []
   <-> match_data_url imageDataUrl = None \/ prop_truthy (PROMPTS_get pimpName) = false)
  /\ (fst (generatePimpImage ai imageDataUrl pimpName) = [] ->
      exists e, snd (generatePimpImage ai imageDataUrl pimpName) = Throw e)
  /\ (fst (generatePimpImage ai imageDataUrl pimpName) <> [] ->
      (1 <= attempts (fst (generatePimpImage ai imageDataUrl pimpName)) <= 3)%nat)
  /\ (attempts (fst (generatePimpImage ai imageDataUrl pimpName)) = 0%nat
      <-> fst (generatePimpImage ai imageDataUrl pimpName) = [])
  /\ (attempts (fst (generatePimpImage ai imageDataUrl pimpName)) <= 3)%nat.
Proof.
  assert (attempts (fst (generatePimpImage ai imageDataUrl pimpName)) <= 3)%nat as Hmost.
  { destruct (match_data_url imageDataUrl) as [[mime payload]|] eqn:Hurl.
    2:{ rewrite generatePimpImage_rejects_malformed_url by done. unfold attempts; simpl; lia. }
    destruct (PROMPTS_get pimpName) as [p|] eqn:Hp.
    2:{ destruct (generatePimpImage_rejects_undefined_prompt ai imageDataUrl pimpName Hp)
          as [-> He].
        unfold attempts; simpl; lia. }
    unfold generatePimpImage. rewrite Hurl, Hp.
    destruct (prop_truthy (Some p)) eqn:Htruthy; [|unfold attempts; simpl; lia].
    destruct (attempt_loop_exits ai
                {| req_mimeType := mime; req_data := payload; req_text := p |} 3 1)
      as [_ [_ Hle]]; [unfold maxRetries; lia..|].
    unfold callGeminiWithRetry.
    destruct (attempt_loop ai _ 1) as [effects [r|err|]]; simpl in *; try done.
    by destruct (processGeminiResponse r). }
  assert (fst (generatePimpImage ai imageDataUrl pimpName) <> [] ->
          (1 <= attempts (fst (generatePimpImage ai imageDataUrl pimpName)))%nat) as Hleast.
  { destruct (match_data_url imageDataUrl) as [[mime payload]|] eqn:Hurl.
    2:{ by rewrite generatePimpImage_rejects_malformed_url. }
    destruct (PROMPTS_get pimpName) as [p|] eqn:Hp.
    2:{ by destruct (generatePimpImage_rejects_undefined_prompt ai imageDataUrl pimpName Hp)
          as [-> He]. }
    destruct (prop_truthy (Some p)) eqn:Htruthy.
    - destruct (generatePimpImage_dispatches ai _ _ _ _ _ Hurl Hp Htruthy) as [rest ->].
      intros _. unfold attempts. simpl. lia.
    - unfold generatePimpImage. by rewrite Hurl, Hp, Htruthy. }
  split; [|split; [|split; [|split; [|done]]]].
  - destruct (match_data_url imageDataUrl) as [[mime payload]|] eqn:Hurl.
    2:{ rewrite generatePimpImage_rejects_malformed_url by done. simpl.
        split; [by left|done]. }
    destruct (PROMPTS_get pimpName) as [p|] eqn:Hp.
    2:{ destruct (generatePimpImage_rejects_undefined_prompt ai imageDataUrl pimpName Hp)
          as [-> He].
        split; [by right|done]. }
    destruct (prop_truthy (Some p)) eqn:Htruthy.
    + destruct (generatePimpImage_dispatches ai _ _ _ _ _ Hurl Hp Htruthy) as [rest ->].
      split; [done|]. by intros [?|?].
    + unfold generatePimpImage. rewrite Hurl, Hp, Htruthy. simpl.
      split; [by right|done].
  - destruct (match_data_url imageDataUrl) as [[mime payload]|] eqn:Hurl.
    2:{ rewrite generatePimpImage_rejects_malformed_url by done. by eexists. }
    destruct (PROMPTS_get pimpName) as [p|] eqn:Hp.
    2:{ by destruct (generatePimpImage_rejects_undefined_prompt ai imageDataUrl pimpName Hp)
          as [-> He]. }
    destruct (prop_truthy (Some p)) eqn:Htruthy.
    + by destruct (generatePimpImage_dispatches ai _ _ _ _ _ Hurl Hp Htruthy) as [rest ->].
    + unfold generatePimpImage. rewrite Hurl, Hp, Htruthy. simpl. by eexists.
  - intros Hne. split; [by apply Hleast|done].
  - split.
    + intros Hzero.
      destruct (fst (generatePimpImage ai imageDataUrl pimpName)) as [|e effects] eqn:Hfst;
        [done|].
      pose proof (Hleast ltac:(done)) as Hone. lia.
    + by intros ->.
Qed.

Lemma generatePimpImage_calls_witness :
  (1 <= attempts (fst (generatePimpImage always_internal sample_image "Disco Dieter")) <= 3)%nat.
Proof.
  apply (generatePimpImage_calls always_internal sample_image "Disco Dieter").
  vm_compute. discriminate.
Defined.

(** ** The download of one image *)

(** X17. In every state reached from a click on "generate",
    [handleDownloadIndividualImage] downloads something for an item
    exactly when the status of that item is [Done]; what it downloads is
    the URL stored for the item, which is a data URL, under the name made
    of [hamburg-pimp-], the lower-cased name with its first space replaced
    by a hyphen, and [.jpg]. *)
Theorem individual_download_iff_done
    (toLowerCase : string -> string) (imageDataUrl : string) (trace : list event) (s : App)
    (pimp : string) :
  truthy imageDataUrl = true ->
  Forall shakes_a_card trace ->
  exec trace (handleGenerateClick (uploaded imageDataUrl)) = Some s ->
  (is_Some (handleDownloadIndividualImage toLowerCase pimp s)
   <-> status_of (generatedImages s) pimp = Some Done)
  /\ (forall href name,
        handleDownloadIndividualImage toLowerCase pimp s = Some (href, name) ->
        (exists rest, href = "data:" +:+ rest)
        /\ (url <$> own_property (generatedImages s) pimp) = Some (Some href)
        /\ name = "hamburg-pimp-" +:+ replace_first_space (toLowerCase pimp) +:+ ".jpg").
Proof.
  intros Himage Hcards Hexec.
  destruct (store_ok_reachable _ _ _ Himage Hcards Hexec) as [_ Hgood].
  unfold handleDownloadIndividualImage, status_of.
  destruct (own_property (generatedImages s) pimp) as [g|] eqn:Hg; simpl.
  2:{ split; [split; [by intros [? ?]|done]|done]. }
  apply own_property_elem in Hg. rewrite Forall_forall in Hgood.
  destruct (Hgood _ Hg) as [Hwf Hdone]. simpl in *. unfold entry_wf in Hwf.
  destruct (status g) eqn:Hst.
  - destruct Hwf as [-> _]. split; [split; [by intros [? ?]|done]|done].
  - destruct (Hdone eq_refl) as [rest ->]. simpl.
    split; [split; [done|by eexists]|]. intros href name [= <- <-]. by eauto.
  - destruct Hwf as [-> _]. split; [split; [by intros [? ?]|done]|done].
Qed.

Lemma individual_download_iff_done_witness :
  (is_Some (handleDownloadIndividualImage (fun s => s) "Disco Dieter" sample_final)
   <-> status_of (generatedImages sample_final) "Disco Dieter" = Some Done)
  /\ (forall href name,
        handleDownloadIndividualImage (fun s => s) "Disco Dieter" sample_final
        = Some (href, name) ->
        (exists rest, href = "data:" +:+ rest)
        /\ (url <$> own_property (generatedImages sample_final) "Disco Dieter")
           = Some (Some href)
        /\ name = "hamburg-pimp-" +:+ replace_first_space "Disco Dieter" +:+ ".jpg").
Proof.
  apply (individual_download_iff_done (fun s => s) sample_image sample_run sample_final
           "Disco Dieter").
  - reflexivity.
  - repeat constructor.
  - vm_compute. reflexivity.
Defined.
